(** * PayOpti: vendor payment optimisation engine

    A shallow embedding of the scoring and allocation core of
    [pay_opti.py] together with the properties its specification states.

    Modelling conventions.
    - In the scoring model and the reports, Python numbers (JSON ints
      and floats) are exact rationals [Q] and equalities between
      computed amounts are stated with [==] ([Qeq]); the rounding of
      binary floating point is not modelled there.  The allocation loop,
      whose decisions depend on that rounding, is also given on binary64
      numbers ([Binary64]), and the budget properties are stated on
      that model.
    - Strings are [string]; a character is a code point below 256.
    - Dictionaries with optional keys are records of [option] fields or
      [gmap string _]; [d.get(k, dflt)] is [get] or [get_field].
    - A [datetime] is a number of microseconds since midnight of ordinal
      day 0; a calendar date is its ordinal day number.
    - An exception is the [Raise] outcome of the monad [M]. *)

From Stdlib Require Import ZArith QArith Qpower Qminmax Lqa Lia List Ascii String Bool.
From Stdlib Require Import Sorted Permutation Floats.
From stdpp Require Import base option gmap strings.
Import ListNotations.

Local Open Scope Z_scope.
Local Open Scope Q_scope.
Set Warnings "-inexact-float".

(** ** Python primitives *)

Definition Qleb (x y : Q) : bool := Qle_bool x y.
Definition Qltb (x y : Q) : bool := negb (Qle_bool y x).

(** [max(0, x)]: Python returns the first maximal argument. *)
Definition max0 (x : Q) : Q := if Qltb 0 x then x else 0.

(** [min(c, x)]: Python returns the first minimal argument. *)
Definition pymin (c x : Q) : Q := if Qltb x c then x else c.

(** [d.get(key, dflt)] on a dictionary and on an optional field. *)
Definition get {V} (d : gmap string V) (key : string) (dflt : V) : V :=
  default dflt (d !! key).

Definition get_field {V} (field : option V) (dflt : V) : V :=
  default dflt field.

(** ** Regular expressions: the fragment of [re] used by the parsers

    Backtracking matcher with Python's priorities: alternatives left to
    right, quantifiers greedy, [re.search] returning the leftmost match.
    A repetition stops at an iteration that consumes nothing; the bodies
    repeated below are character classes, which always consume. *)

Module Re.

Inductive regex : Type :=
| Lit (c : ascii)
| Cls (p : ascii -> bool)
| Cat (r1 r2 : regex)
| Alt (r1 r2 : regex)
| Star (r : regex)
| Opt (r : regex)
| Grp (n : nat) (r : regex).

Definition Plus (r : regex) : regex := Cat r (Star r).

Fixpoint Word (w : list ascii) : regex :=
  match w with
  | [] => Opt (Cls (fun _ => false))
  | [c] => Lit c
  | c :: w' => Cat (Lit c) (Word w')
  end.

(** Capture groups: [None] for a group that did not take part. *)
Definition groups : Type := nat -> option (list ascii).

Definition no_groups : groups := fun _ => None.

Definition set_group (n : nat) (v : list ascii) (g : groups) : groups :=
  fun i => if Nat.eqb i n then Some v else g i.

(** The text consumed between the suffix [s] and its later suffix [s']. *)
Definition consumed (s s' : list ascii) : list ascii :=
  firstn (length s - length s') s.

Section Matcher.
Context {A : Type}.

Fixpoint run (r : regex) (s : list ascii) (g : groups)
    (k : list ascii -> groups -> option A) {struct r} : option A :=
  match r with
  | Lit c =>
      match s with
      | x :: s' => if Ascii.eqb x c then k s' g else None
      | [] => None
      end
  | Cls p =>
      match s with
      | x :: s' => if p x then k s' g else None
      | [] => None
      end
  | Cat r1 r2 => run r1 s g (fun s' g' => run r2 s' g' k)
  | Alt r1 r2 =>
      match run r1 s g k with
      | Some res => Some res
      | None => run r2 s g k
      end
  | Opt r1 =>
      match run r1 s g k with
      | Some res => Some res
      | None => k s g
      end
  | Star r1 =>
      (fix iter (n : nat) (s : list ascii) (g : groups) : option A :=
         match n with
         | O => k s g
         | S n' =>
             match run r1 s g (fun s' g' =>
                      if Nat.ltb (length s') (length s)
                      then iter n' s' g' else None) with
             | Some res => Some res
             | None => k s g
             end
         end) (length s) s g
  | Grp n r1 => run r1 s g (fun s' g' => k s' (set_group n (consumed s s') g'))
  end.
End Matcher.

(** [re.search(r, s)]: the first start position that admits a match. *)
Fixpoint search (r : regex) (s : list ascii) : option groups :=
  match run r s no_groups (fun _ g => Some g) with
  | Some g => Some g
  | None =>
      match s with
      | [] => None
      | _ :: s' => search r s'
      end
  end.

Definition code (c : ascii) : N := N_of_ascii c.

(** [\d] *)
Definition digit (c : ascii) : bool :=
  (N.leb 48 (code c) && N.leb (code c) 57)%bool.

(** [\s]: str.isspace on code points below 256. *)
Definition space (c : ascii) : bool :=
  let n := code c in
  ((N.leb 9 n && N.leb n 13) || (N.leb 28 n && N.leb n 32)
   || N.eqb n 133 || N.eqb n 160)%bool.

Definition one_of (cs : string) (c : ascii) : bool :=
  existsb (Ascii.eqb c) (list_ascii_of_string cs).

End Re.

(** [str.lower] on code points below 256. *)
Definition lower_char (c : ascii) : ascii :=
  let n := N_of_ascii c in
  if ((N.leb 65 n && N.leb n 90)
      || (N.leb 192 n && N.leb n 222 && negb (N.eqb n 215)))%bool
  then ascii_of_N (n + 32) else c.

Definition lower (s : string) : list ascii :=
  map lower_char (list_ascii_of_string s).

(** [int(s)] on a string of decimal digits. *)
Definition digit_val (c : ascii) : Z := Z.of_N (N_of_ascii c) - 48.

Definition int_of_digits (ds : list ascii) : Z :=
  fold_left (fun acc c => 10 * acc + digit_val c)%Z ds 0%Z.

(** [float(s)] on [digits] or [digits.digits], as an exact rational. *)
Fixpoint split_dot (s : list ascii) : list ascii * list ascii :=
  match s with
  | [] => ([], [])
  | c :: s' =>
      if Ascii.eqb c "."%char then ([], s')
      else let '(i, f) := split_dot s' in (c :: i, f)
  end.

Fixpoint pow10 (k : nat) : positive :=
  match k with
  | O => 1%positive
  | S k' => (10 * pow10 k')%positive
  end.

Definition float_of_decimal (s : list ascii) : Q :=
  let '(i, f) := split_dot s in
  Qmake (int_of_digits (i ++ f)) (pow10 (length f)).

(** ** Data model *)

Record PaymentTerms : Type := mkPaymentTerms {
  payment_type : string;
  discount_rate : Q;
  discount_days : Z;
  net_days : Z;
  late_fee_rate : Q;
  confidence : Q
}.

(** ** The deterministic payment-terms parser *)

Module AIIntegrator.
Import Re.

(** [(\d+(?:\.\d+)?)%?\s*[\/within]*\s*(\d+)] *)
Definition discount_pattern : regex :=
  Cat (Grp 1 (Cat (Plus (Cls digit))
                  (Opt (Cat (Lit ".") (Plus (Cls digit))))))
 (Cat (Opt (Lit "%"))
 (Cat (Star (Cls space))
 (Cat (Star (Cls (one_of "/within")))
 (Cat (Star (Cls space))
      (Grp 2 (Plus (Cls digit))))))).

(** [net\s*(\d+)|(\d+)\s*days?] *)
Definition net_pattern : regex :=
  Alt (Cat (Word (list_ascii_of_string "net"))
      (Cat (Star (Cls space)) (Grp 1 (Plus (Cls digit)))))
      (Cat (Grp 2 (Plus (Cls digit)))
      (Cat (Star (Cls space))
      (Cat (Word (list_ascii_of_string "day")) (Opt (Lit "s"))))).

(** [m.group(n)], with the empty string standing for a match object
    whose group is read although it is absent (never the case below). *)
Definition group (g : groups) (n : nat) : list ascii := get_field (g n) [].

(** [a or b] on optional strings: the first one that is not falsy. *)
Definition or_group (a b : option (list ascii)) : list ascii :=
  match a with
  | Some (c :: w) => c :: w
  | _ => get_field b []
  end.

Definition parse_discount_rate (terms_lower : list ascii) : Q :=
  match search discount_pattern terms_lower with
  | Some g => float_of_decimal (group g 1)
  | None => 0
  end.

Definition parse_discount_days (terms_lower : list ascii) : Z :=
  match search discount_pattern terms_lower with
  | Some g => int_of_digits (group g 2)
  | None => 0%Z
  end.

Definition parse_net_days (terms_lower : list ascii) : Z :=
  match search net_pattern terms_lower with
  | Some g => int_of_digits (or_group (g 1%nat) (g 2%nat))
  | None => 30%Z
  end.

Definition _fallback_payment_terms_parse (raw_terms : string) : PaymentTerms :=
  let terms_lower := lower raw_terms in
  let discount_rate := parse_discount_rate terms_lower in
  let discount_days := parse_discount_days terms_lower in
  let net_days := parse_net_days terms_lower in
  let payment_type :=
    if Qltb 0 discount_rate then "early_discount"%string else "net_term"%string in
  {| payment_type := payment_type;
     discount_rate := discount_rate;
     discount_days := discount_days;
     net_days := net_days;
     late_fee_rate := 0;
     confidence := 7 # 10 |}.

(** *** The errors of the conversions

    [int(s)] refuses a string with more digits than
    [sys.get_int_max_str_digits()], 4300 unless it is configured
    otherwise (Python 3.11 and later); [float(s)] has no such limit. *)
Definition int_max_str_digits : nat := 4300.

Inductive Conversion (A : Type) : Type :=
| Converted (a : A)
| ValueError.
Arguments Converted {A} a.
Arguments ValueError {A}.

(** [int(s)] on a string of decimal digits that is not empty. *)
Definition int_of_str (ds : list ascii) : Conversion Z :=
  if Nat.leb (length ds) int_max_str_digits
  then Converted (int_of_digits ds)
  else ValueError.

Definition and_then {A B} (c : Conversion A) (f : A -> Conversion B) : Conversion B :=
  match c with
  | Converted a => f a
  | ValueError => ValueError
  end.

(** Lines 230-251 with the error that [int] can raise;
    [_fallback_payment_terms_parse] above is what is returned when it
    does not. *)
Definition _fallback_payment_terms_parse_or_error (raw_terms : string)
    : Conversion PaymentTerms :=
  let terms_lower := lower raw_terms in
  let discount_match := search discount_pattern terms_lower in
  let net_match := search net_pattern terms_lower in
  let discount_rate :=
    match discount_match with
    | Some g => float_of_decimal (group g 1)
    | None => 0
    end in
  and_then (match discount_match with
            | Some g => int_of_str (group g 2)
            | None => Converted 0%Z
            end) (fun discount_days =>
  and_then (match net_match with
            | Some g => int_of_str (or_group (g 1%nat) (g 2%nat))
            | None => Converted 30%Z
            end) (fun net_days =>
  let payment_type :=
    if Qltb 0 discount_rate then "early_discount"%string else "net_term"%string in
  Converted {| payment_type := payment_type;
               discount_rate := discount_rate;
               discount_days := discount_days;
               net_days := net_days;
               late_fee_rate := 0;
               confidence := 7 # 10 |})).

End AIIntegrator.

Record VRSComponents : Type := mkVRSComponents {
  hard_factors_score : Q;
  soft_factors_score : Q;
  final_vrs : Q;
  total_value_score : Q;
  repayment_score : Q;
  longevity_score : Q;
  reliability_score : Q;
  communication_score : Q
}.

Record BusinessValue : Type := mkBusinessValue {
  net_financial_benefit : Q;
  business_impact_multiplier : Q;
  relationship_multiplier : Q;
  risk_multiplier : Q;
  vrs_multiplier : Q;
  urgency_multiplier : Q;
  market_multiplier : Q;
  final_business_value : Q
}.

(** One entry of [vendor_master.json]; a sub-dictionary that is absent
    is [None]. *)
Record VendorProfile : Type := mkVendorProfile {
  basic_info : option (gmap string string);
  contract_details : option (gmap string Q);
  external_data : option (gmap string Q);
  strategic_classification : option (gmap string string);
  relationship_metrics : option (gmap string Q)
}.

Record PaymentHistory : Type := mkPaymentHistory {
  transaction_summary : option (gmap string Q)
}.

Record CommunicationData : Type := mkCommunicationData {
  email_metrics : option (gmap string Q)
}.

Record PerformanceData : Type := mkPerformanceData {
  operational_metrics : option (gmap string Q);
  risk_indicators : option (gmap string Q)
}.

Record MarketData : Type := mkMarketData {
  market_position : option string
}.

Record FinancialParameters : Type := mkFinancialParameters {
  wacc : option Q;
  business_impact_multipliers : option (gmap string Q);
  risk_multipliers : option (gmap string Q);
  market_multipliers : option (gmap string Q)
}.

(** [self.database], one field per loaded file. *)
Record Database : Type := mkDatabase {
  vendor_master : gmap string VendorProfile;
  payment_history : gmap string PaymentHistory;
  communication_logs : gmap string CommunicationData;
  performance_metrics : gmap string PerformanceData;
  market_intelligence : gmap string MarketData;
  financial_parameters : FinancialParameters
}.

(** An invoice of the batch.  [issue_date] is the ordinal of the day that
    [strptime] reads from the invoice; [due_date] is kept as text. *)
Record Invoice : Type := mkInvoice {
  invoice_id : string;
  inv_vendor_id : string;
  invoice_amount : Q;
  issue_date : Z;
  due_date : string;
  raw_payment_terms : option string
}.

(** The two keys of the analysis dictionary that the allocator reads. *)
Record AIAnalysis : Type := mkAIAnalysis {
  vendor_classification : option string;
  analysis_payment_priority : option string
}.

Record ScoredInvoice : Type := mkScoredInvoice {
  invoice : Invoice;
  vendor_id : string;
  vendor_name : string;
  payment_terms : PaymentTerms;
  vrs_components : VRSComponents;
  business_value : BusinessValue;
  ai_analysis : AIAnalysis
}.

Inductive Status : Type := scheduled | deferred.

(** [payment_timing] is either a computed day printed by [strftime] or
    the invoice's [due_date] text as it was read. *)
Inductive Timing : Type :=
| OnDay (ordinal : Z)
| AsWritten (text : string).

(** An entry of the payment sequence.  The two keys that only scheduled
    entries carry are optional; the free-text [reasoning] is left out. *)
Record PaymentSequenceEntry : Type := mkEntry {
  position : nat;
  entry_vendor_id : string;
  entry_vendor_name : string;
  entry_invoice_id : string;
  amount : Q;
  entry_business_value : Q;
  vrs_score : Q;
  entry_discount_rate : Q;
  discount_captured : Q;
  payment_timing : Timing;
  strategic_impact : option string;
  payment_priority : option string;
  status : Status
}.

Definition is_scheduled (e : PaymentSequenceEntry) : bool :=
  match status e with scheduled => true | deferred => false end.

(** The empty dictionaries that [.get(vendor_id, {})] falls back to. *)
Definition no_profile : VendorProfile := mkVendorProfile None None None None None.
Definition no_history : PaymentHistory := mkPaymentHistory None.
Definition no_communication : CommunicationData := mkCommunicationData None.
Definition no_performance : PerformanceData := mkPerformanceData None None.
Definition no_market : MarketData := mkMarketData None.

Definition microseconds_per_day : Z := 86400000000%Z.

(** [datetime] of a date at midnight, [timedelta(days=n)] and
    [timedelta.days] (the floor of the difference in days). *)
Definition midnight (ordinal : Z) : Z := (ordinal * microseconds_per_day)%Z.
Definition timedelta_days (n : Z) : Z := (n * microseconds_per_day)%Z.
Definition days_of (delta : Z) : Z := (delta / microseconds_per_day)%Z.

(** ** Scoring *)

Module PayOptiSystem.

Definition _simple_terms_parser (raw_terms : string) : PaymentTerms :=
  let terms_lower := lower raw_terms in
  let discount_rate := AIIntegrator.parse_discount_rate terms_lower in
  let discount_days := AIIntegrator.parse_discount_days terms_lower in
  let net_days := AIIntegrator.parse_net_days terms_lower in
  let payment_type :=
    if Qltb 0 discount_rate then "early_discount"%string else "net_term"%string in
  {| payment_type := payment_type;
     discount_rate := discount_rate;
     discount_days := discount_days;
     net_days := net_days;
     late_fee_rate := 0;
     confidence := 7 # 10 |}.

Definition annual_contract_value (v_data : VendorProfile) : Q :=
  get (get_field (contract_details v_data) ∅) "annual_contract_value" 0.

Definition _calculate_spend_percentile (db : Database) (vendor_id : string)
    (annual_spend : Q) : Q :=
  let all_spends := map (fun kv => annual_contract_value (snd kv))
                        (map_to_list (vendor_master db)) in
  match all_spends with
  | [] => 50
  | _ =>
      let vendors_below :=
        length (List.filter (fun spend => Qleb spend annual_spend) all_spends) in
      (inject_Z (Z.of_nat vendors_below)
         / inject_Z (Z.of_nat (length all_spends))) * 100
  end.

(** Lines 553-556 of [calculate_vrs]. *)
Definition repayment_of (payment_history : PaymentHistory) : Q :=
  let transaction_summary := get_field (transaction_summary payment_history) ∅ in
  let on_time_payments := get transaction_summary "invoices_paid_on_time" 0 in
  let total_payments := get transaction_summary "total_invoices" 1 in
  if Qltb 0 total_payments
  then (on_time_payments / total_payments) * 100
  else 50.

Definition calculate_vrs (db : Database) (vendor_id : string) : VRSComponents :=
  let vendor_profile := get (vendor_master db) vendor_id no_profile in
  let payment_history := get (payment_history db) vendor_id no_history in
  let communication_data := get (communication_logs db) vendor_id no_communication in
  let performance_data := get (performance_metrics db) vendor_id no_performance in
  (* Hard factors *)
  let annual_spend := annual_contract_value vendor_profile in
  let total_value_score := _calculate_spend_percentile db vendor_id annual_spend in
  let repayment_score := repayment_of payment_history in
  let hard_factors_score :=
    (total_value_score * (7 # 10)) + (repayment_score * (3 # 10)) in
  (* Soft factors *)
  let external_data := get_field (external_data vendor_profile) ∅ in
  let years_in_business := get external_data "years_in_business" 5 in
  let longevity_score := pymin 100 ((years_in_business / 15) * 100) in
  let operational_metrics := get_field (operational_metrics performance_data) ∅ in
  let reliability_score := get operational_metrics "on_time_delivery_rate" 85 in
  let email_metrics := get_field (email_metrics communication_data) ∅ in
  let friction_emails := get email_metrics "friction_emails" 5 in
  let communication_score := max0 (100 - friction_emails * 2) in
  let soft_factors_score :=
    (longevity_score + reliability_score + communication_score) / 3 in
  let final_vrs :=
    (hard_factors_score * (6 # 10)) + (soft_factors_score * (4 # 10)) in
  {| hard_factors_score := hard_factors_score;
     soft_factors_score := soft_factors_score;
     final_vrs := final_vrs;
     total_value_score := total_value_score;
     repayment_score := repayment_score;
     longevity_score := longevity_score;
     reliability_score := reliability_score;
     communication_score := communication_score |}.

(** The default tables of [calculate_enhanced_business_value]. *)
Definition default_impact_multipliers : gmap string Q :=
  <["critical" := 3]> (<["high" := 2]> (<["medium" := 15 # 10]> (<["low" := 1]> ∅))).

Definition default_risk_multipliers : gmap string Q :=
  <["very_low" := 12 # 10]> (<["low" := 1]> (<["medium" := 85 # 100]>
    (<["high" := 7 # 10]> (<["very_high" := 5 # 10]> ∅)))).

Definition default_market_multipliers : gmap string Q :=
  <["market_leader" := 12 # 10]> (<["major_player" := 11 # 10]>
    (<["standard" := 1]> (<["follower" := 9 # 10]> ∅))).

(** Lines 656-658: whole days from [now] to the discount deadline. *)
Definition days_to_deadline (invoice : Invoice) (payment_terms : PaymentTerms)
    (now : Z) : Z :=
  let issue_date := midnight (issue_date invoice) in
  let discount_deadline :=
    (issue_date + timedelta_days (discount_days payment_terms))%Z in
  days_of (discount_deadline - now).

(** Lines 660-669. *)
Definition urgency_of (days_to_deadline : Z) : Q :=
  if (days_to_deadline <=? 0)%Z then 0
  else if (days_to_deadline <=? 3)%Z then 15 # 10
  else if (days_to_deadline <=? 7)%Z then 12 # 10
  else if (days_to_deadline <=? 14)%Z then 11 # 10
  else 1.

(** Lines 641-650. *)
Definition risk_multiplier_of (risk_thresholds : gmap string Q) (risk_score : Q) : Q :=
  if Qleb risk_score 20 then get risk_thresholds "very_low" (12 # 10)
  else if Qleb risk_score 40 then get risk_thresholds "low" 1
  else if Qleb risk_score 60 then get risk_thresholds "medium" (85 # 100)
  else if Qleb risk_score 80 then get risk_thresholds "high" (7 # 10)
  else get risk_thresholds "very_high" (5 # 10).

(** [now] is the reading of [datetime.now()]. *)
Definition calculate_enhanced_business_value (db : Database) (now : Z)
    (invoice : Invoice) (vendor_id : string) (payment_terms : PaymentTerms)
    (vrs_components : VRSComponents) : BusinessValue :=
  let financial_params := financial_parameters db in
  let wacc := get_field (wacc financial_params) (8 # 100) in
  (* Financial component *)
  let invoice_amount := invoice_amount invoice in
  let discount_value := invoice_amount * (discount_rate payment_terms / 100) in
  let days_early :=
    Z.max 0 (net_days payment_terms - discount_days payment_terms) in
  let opportunity_cost := invoice_amount * (wacc / 365) * inject_Z days_early in
  let net_financial_benefit := max0 (discount_value - opportunity_cost) in
  (* Vendor data *)
  let vendor_data := get (vendor_master db) vendor_id no_profile in
  let performance_data := get (performance_metrics db) vendor_id no_performance in
  let market_data := get (market_intelligence db) vendor_id no_market in
  (* Business impact multiplier *)
  let business_impact :=
    get (get_field (strategic_classification vendor_data) ∅)
        "business_impact" "medium"%string in
  let impact_multipliers :=
    get_field (business_impact_multipliers financial_params)
              default_impact_multipliers in
  let business_impact_multiplier := get impact_multipliers business_impact (15 # 10) in
  (* Relationship multiplier *)
  let years_as_vendor :=
    get (get_field (relationship_metrics vendor_data) ∅) "years_as_vendor" 1 in
  let relationship_multiplier := pymin 2 (1 + (years_as_vendor / 10)) in
  (* Risk multiplier *)
  let risk_score :=
    get (get_field (risk_indicators performance_data) ∅)
        "financial_stress_score" 50 in
  let risk_thresholds :=
    get_field (risk_multipliers financial_params) default_risk_multipliers in
  let risk_multiplier := risk_multiplier_of risk_thresholds risk_score in
  (* VRS multiplier *)
  let vrs_multiplier := (8 # 10) + (final_vrs vrs_components / 100) * (4 # 10) in
  (* Urgency multiplier *)
  let urgency_multiplier := urgency_of (days_to_deadline invoice payment_terms now) in
  (* Market multiplier *)
  let market_position := get_field (market_position market_data) "unknown"%string in
  let market_multipliers :=
    get_field (market_multipliers financial_params) default_market_multipliers in
  let market_multiplier := get market_multipliers market_position 1 in
  let final_business_value :=
    net_financial_benefit *
    business_impact_multiplier *
    relationship_multiplier *
    risk_multiplier *
    vrs_multiplier *
    urgency_multiplier *
    market_multiplier in
  {| net_financial_benefit := net_financial_benefit;
     business_impact_multiplier := business_impact_multiplier;
     relationship_multiplier := relationship_multiplier;
     risk_multiplier := risk_multiplier;
     vrs_multiplier := vrs_multiplier;
     urgency_multiplier := urgency_multiplier;
     market_multiplier := market_multiplier;
     final_business_value := final_business_value |}.

(** ** Allocation *)

(** [sorted(xs, key=key, reverse=True)]: descending and stable, so that
    elements with equal keys keep their input order. *)
Section SortedReverse.
Context {A : Type} (key : A -> Q).

Fixpoint insert_desc (x : A) (l : list A) : list A :=
  match l with
  | [] => [x]
  | y :: l' =>
      if Qltb (key x) (key y) then y :: insert_desc x l' else x :: y :: l'
  end.

Definition sorted_reverse (l : list A) : list A :=
  fold_right insert_desc [] l.
End SortedReverse.

(** [enumerate(xs)] *)
Definition enumerate {A} (l : list A) : list (nat * A) :=
  combine (seq 0 (length l)) l.

(** Lines 713-716. *)
Definition usable_cash_of (available_cash reserve_ratio : Q) : Q :=
  let minimum_reserve := available_cash * reserve_ratio in
  available_cash - minimum_reserve.

Definition bv (x : ScoredInvoice) : Q := final_business_value (business_value x).

(** Lines 784-799. *)
Definition scheduled_entry (i : nat) (scored_invoice : ScoredInvoice)
    : PaymentSequenceEntry :=
  let invoice := invoice scored_invoice in
  let invoice_amount := invoice_amount invoice in
  let discount_captured :=
    invoice_amount * (discount_rate (payment_terms scored_invoice) / 100) in
  let optimal_date :=
    (issue_date invoice + (discount_days (payment_terms scored_invoice) - 1))%Z in
  {| position := i + 1;
     entry_vendor_id := vendor_id scored_invoice;
     entry_vendor_name := vendor_name scored_invoice;
     entry_invoice_id := invoice_id invoice;
     amount := invoice_amount;
     entry_business_value := bv scored_invoice;
     vrs_score := final_vrs (vrs_components scored_invoice);
     entry_discount_rate := discount_rate (payment_terms scored_invoice);
     discount_captured := discount_captured;
     payment_timing := OnDay optimal_date;
     strategic_impact :=
       Some (get_field (vendor_classification (ai_analysis scored_invoice))
                       "standard"%string);
     payment_priority :=
       Some (get_field (analysis_payment_priority (ai_analysis scored_invoice))
                       "medium"%string);
     status := scheduled |}.

(** Lines 805-818. *)
Definition deferred_entry (i : nat) (scored_invoice : ScoredInvoice)
    : PaymentSequenceEntry :=
  let invoice := invoice scored_invoice in
  {| position := i + 1;
     entry_vendor_id := vendor_id scored_invoice;
     entry_vendor_name := vendor_name scored_invoice;
     entry_invoice_id := invoice_id invoice;
     amount := invoice_amount invoice;
     entry_business_value := bv scored_invoice;
     vrs_score := final_vrs (vrs_components scored_invoice);
     entry_discount_rate := discount_rate (payment_terms scored_invoice);
     discount_captured := 0;
     payment_timing := AsWritten (due_date invoice);
     strategic_impact := None;
     payment_priority := None;
     status := deferred |}.

(** The variables that the loop of lines 772-820 updates. *)
Record LoopState : Type := mkLoopState {
  payment_sequence : list PaymentSequenceEntry;
  remaining_cash : Q
}.

Definition loop_body (st : LoopState) (item : nat * ScoredInvoice) : LoopState :=
  let '(i, scored_invoice) := item in
  let invoice_amount := invoice_amount (invoice scored_invoice) in
  if Qleb invoice_amount (remaining_cash st)
  then {| payment_sequence :=
            payment_sequence st ++ [scheduled_entry i scored_invoice];
          remaining_cash := remaining_cash st - invoice_amount |}
  else {| payment_sequence :=
            payment_sequence st ++ [deferred_entry i scored_invoice];
          remaining_cash := remaining_cash st |}.

(** The allocator: lines 763-820 of [generate_payment_sequence], run on
    the scored invoices and the budget that the earlier lines produce. *)
Definition allocate (usable_cash : Q) (scored_invoices : list ScoredInvoice)
    : list PaymentSequenceEntry :=
  let sorted_invoices := sorted_reverse bv scored_invoices in
  payment_sequence
    (fold_left loop_body (enumerate sorted_invoices)
       {| payment_sequence := []; remaining_cash := usable_cash |}).

(** Lines 709-716 followed by the allocator; the two arguments are the
    [available_cash] and [cash_reserve_ratio] keys of the configuration. *)
Definition generate_payment_sequence (available_cash cash_reserve_ratio : option Q)
    (scored_invoices : list ScoredInvoice) : list PaymentSequenceEntry :=
  let available_cash := get_field available_cash 2500000 in
  let reserve_ratio := get_field cash_reserve_ratio (20 # 100) in
  allocate (usable_cash_of available_cash reserve_ratio) scored_invoices.

(** The sum of [amount] over the scheduled entries of a sequence. *)
Definition scheduled_total (entries : list PaymentSequenceEntry) : Q :=
  fold_right (fun e acc => if is_scheduled e then amount e + acc else acc) 0 entries.

End PayOptiSystem.

(** ** The allocator as the specification words it

    A single pass over the sorted list with a running [remaining]
    budget; an invoice is scheduled exactly when it fits. *)

Import PayOptiSystem.

Definition stable_descending {A} (key : A -> Q) (input output : list A) : Prop :=
  Permutation input output
  /\ StronglySorted (fun x y => key y <= key x) output
  /\ forall v : Q,
       List.filter (fun x => Qeq_bool (key x) v) output
       = List.filter (fun x => Qeq_bool (key x) v) input.

(** ** Comparing modes *)

Module ModeComparer.

(** A call either returns a value or raises an exception (one that
    [except Exception] catches), here the text that [str(e)] gives. *)
Inductive Outcome (A : Type) : Type :=
| Return (a : A)
| Raise (e : string).
Arguments Return {A} a.
Arguments Raise {A} e.

(** The value stored under a mode name in [mode_results]. *)
Inductive ModeResult (Results : Type) : Type :=
| Success (results : Results)
| Failed (error : string).
Arguments Success {Results} results.
Arguments Failed {Results} error.

Definition is_success {Results} (r : ModeResult Results) : bool :=
  match r with Success _ => true | Failed _ => false end.

Definition is_failed {Results} (r : ModeResult Results) : bool :=
  match r with Success _ => false | Failed _ => true end.

Record Comparison (Results Analysis : Type) : Type := mkComparison {
  mode_results : gmap string (ModeResult Results);
  comparative_analysis : Analysis;
  modes_requested : nat;
  modes_successful : nat;
  modes_failed : nat
}.
Arguments mkComparison {Results Analysis}.
Arguments mode_results {Results Analysis}.
Arguments modes_requested {Results Analysis}.
Arguments modes_successful {Results Analysis}.
Arguments modes_failed {Results Analysis}.

Section Pipeline.
(** [World] is whatever a run of the pipeline reads and changes outside
    the program: the clock and the text-analysis service. *)
Context {World Results Analysis : Type}.

Definition M (A : Type) : Type := World -> Outcome A * World.

Definition ret {A} (a : A) : M A := fun w => (Return a, w).

Definition bind {A B} (c : M A) (k : A -> M B) : M B :=
  fun w =>
    match c w with
    | (Return a, w') => k a w'
    | (Raise e, w') => (Raise e, w')
    end.

(** [try: c  except Exception as e: handler(e)] *)
Definition try_except {A} (c : M A) (handler : string -> M A) : M A :=
  fun w =>
    match c w with
    | (Return a, w') => (Return a, w')
    | (Raise e, w') => handler e w'
    end.

Variable generate_payment_sequence : string -> M Results.
Variable _generate_mode_comparison : gmap string (ModeResult Results) -> M Analysis.

(** The body of the loop, lines 1083-1095. *)
Definition process_mode (mode_results : gmap string (ModeResult Results))
    (mode : string) : M (gmap string (ModeResult Results)) :=
  try_except
    (bind (generate_payment_sequence mode) (fun results =>
       ret (<[mode := Success results]> mode_results)))
    (fun e => ret (<[mode := Failed e]> mode_results)).

(** [for mode in modes: ...]: an exception that leaves the body ends
    the loop. *)
Fixpoint for_each_mode (modes : list string)
    (mode_results : gmap string (ModeResult Results))
    : M (gmap string (ModeResult Results)) :=
  match modes with
  | [] => ret mode_results
  | mode :: modes' =>
      bind (process_mode mode_results mode) (for_each_mode modes')
  end.

Definition count_values (p : ModeResult Results -> bool)
    (d : gmap string (ModeResult Results)) : nat :=
  length (List.filter p (map snd (map_to_list d))).

Definition compare_modes (modes : list string) : M (Comparison Results Analysis) :=
  bind (for_each_mode modes ∅) (fun mode_results =>
  bind (_generate_mode_comparison mode_results) (fun comparative_analysis =>
  ret {| mode_results := mode_results;
         comparative_analysis := comparative_analysis;
         modes_requested := length modes;
         modes_successful := count_values is_success mode_results;
         modes_failed := count_values is_failed mode_results |})).

(** What each call of the pipeline gives when every mode of the list is
    run in turn, whatever the earlier calls gave. *)
Fixpoint calls (modes : list string) (w : World)
    : list (string * Outcome Results) * World :=
  match modes with
  | [] => ([], w)
  | mode :: modes' =>
      let '(o, w') := generate_payment_sequence mode w in
      let '(rest, w'') := calls modes' w' in
      ((mode, o) :: rest, w'')
  end.

Definition recorded (o : Outcome Results) : ModeResult Results :=
  match o with
  | Return results => Success results
  | Raise e => Failed e
  end.

(** [mode_results[mode] = ...] for one call and what it gave. *)
Definition record (d : gmap string (ModeResult Results))
    (call : string * Outcome Results) : gmap string (ModeResult Results) :=
  <[fst call := recorded (snd call)]> d.
End Pipeline.

End ModeComparer.

(** ** Auxiliary definitions for the statements *)

(** The two counts that [calculate_vrs] reads, with their defaults. *)
Definition on_time_of (db : Database) (vendor_id : string) : Q :=
  get (get_field (transaction_summary (get (payment_history db) vendor_id no_history)) ∅)
      "invoices_paid_on_time" 0.

Definition total_of (db : Database) (vendor_id : string) : Q :=
  get (get_field (transaction_summary (get (payment_history db) vendor_id no_history)) ∅)
      "total_invoices" 1.

(** A database that knows one vendor only through its payment history. *)
Definition history_only (vendor_id : string) (history : PaymentHistory) : Database :=
  {| vendor_master := ∅;
     payment_history := {[ vendor_id := history ]};
     communication_logs := ∅;
     performance_metrics := ∅;
     market_intelligence := ∅;
     financial_parameters := mkFinancialParameters None None None None |}.

Definition summary_of (entries : list (string * Q)) : PaymentHistory :=
  mkPaymentHistory (Some (list_to_map entries)).

Definition empty_database : Database :=
  {| vendor_master := ∅;
     payment_history := ∅;
     communication_logs := ∅;
     performance_metrics := ∅;
     market_intelligence := ∅;
     financial_parameters := mkFinancialParameters None None None None |}.

(** The cost of capital that the business value model uses. *)
Definition wacc_of (db : Database) : Q :=
  get_field (wacc (financial_parameters db)) (8 # 100).

(** An invoice of 250,000 issued on day 739000, with its terms read by
    the fallback parser, and the terms of a plain 30-day invoice. *)
Definition scenario_invoice : Invoice :=
  {| invoice_id := "INV-001";
     inv_vendor_id := "V001";
     invoice_amount := 250000;
     issue_date := 739000;
     due_date := "2024-05-01";
     raw_payment_terms := Some "2.5/10 net 30"%string |}.

Definition scenario_terms : PaymentTerms := _simple_terms_parser "2.5/10 net 30".

Definition plain_terms : PaymentTerms :=
  {| payment_type := "net_term";
     discount_rate := 0;
     discount_days := 0;
     net_days := 30;
     late_fee_rate := 0;
     confidence := 1 |}.

(** The entries that the loop appends when it reaches index [i] with
    [remaining] cash and the invoices [l] still to visit. *)
Fixpoint appended (i : nat) (remaining : Q) (l : list ScoredInvoice)
    : list PaymentSequenceEntry :=
  match l with
  | [] => []
  | x :: rest =>
      if Qleb (invoice_amount (invoice x)) remaining
      then scheduled_entry i x
             :: appended (S i) (remaining - invoice_amount (invoice x)) rest
      else deferred_entry i x :: appended (S i) remaining rest
  end.

(** What identifies the invoice behind an entry and behind a scored
    invoice. *)
Definition entry_source (e : PaymentSequenceEntry) : string * string * Q * Q :=
  (entry_invoice_id e, entry_vendor_id e, amount e, entry_business_value e).

Definition invoice_source (x : ScoredInvoice) : string * string * Q * Q :=
  (invoice_id (invoice x), vendor_id x, invoice_amount (invoice x), bv x).

(** Lines 724-761 when no text-analysis client is configured: the terms
    come from the fallback parser and the analysis is the default one,
    which is what the fallback analysis gives below a score of 85. *)
Definition score_without_ai (db : Database) (now : Z) (inv : Invoice) : ScoredInvoice :=
  let vendor_id := inv_vendor_id inv in
  let raw_terms := get_field (raw_payment_terms inv) "Net 30"%string in
  let payment_terms := AIIntegrator._fallback_payment_terms_parse raw_terms in
  let vrs_components := calculate_vrs db vendor_id in
  let business_value :=
    calculate_enhanced_business_value db now inv vendor_id payment_terms
      vrs_components in
  {| invoice := inv;
     vendor_id := vendor_id;
     vendor_name :=
       get (get_field (basic_info (get (vendor_master db) vendor_id no_profile)) ∅)
           "display_name" "Unknown"%string;
     payment_terms := payment_terms;
     vrs_components := vrs_components;
     business_value := business_value;
     ai_analysis := mkAIAnalysis (Some "standard_vendor"%string)
                                 (Some "medium"%string) |}.

(** Two invoices of 100,000 each, scored five days after issue; the
    first carries the larger discount. *)
Definition invoice_a : Invoice :=
  {| invoice_id := "INV-A";
     inv_vendor_id := "V001";
     invoice_amount := 100000;
     issue_date := 739000;
     due_date := "2024-05-01";
     raw_payment_terms := Some "4/10 net 30"%string |}.

Definition invoice_b : Invoice :=
  {| invoice_id := "INV-B";
     inv_vendor_id := "V002";
     invoice_amount := 100000;
     issue_date := 739000;
     due_date := "2024-05-01";
     raw_payment_terms := Some "2.5/10 net 30"%string |}.

Definition two_invoices : list ScoredInvoice :=
  map (score_without_ai empty_database (midnight 739005)) [invoice_b; invoice_a].

(** A pipeline that fails on the mode ["ipo"] and otherwise returns the
    number of runs made before; the world is that number. *)
Definition flaky_pipeline (mode : string) : @ModeComparer.M nat nat :=
  fun runs =>
    if String.eqb mode "ipo"
    then (ModeComparer.Raise "no cash constraints"%string, S runs)
    else (ModeComparer.Return runs, S runs).

Definition count_modes (d : gmap string (ModeComparer.ModeResult nat))
    : @ModeComparer.M nat nat :=
  ModeComparer.ret (size d).

(** ** The words of a pattern

    What a pattern denotes, to say what the matcher may capture. *)

Inductive star (L : list ascii -> Prop) : list ascii -> Prop :=
| star_nil : star L []
| star_app (w1 w2 : list ascii) : L w1 -> star L w2 -> star L (w1 ++ w2).

Fixpoint lang (r : Re.regex) : list ascii -> Prop :=
  match r with
  | Re.Lit c => fun w => w = [c]
  | Re.Cls p => fun w => exists c, w = [c] /\ p c = true
  | Re.Cat r1 r2 => fun w => exists w1 w2, w = w1 ++ w2 /\ lang r1 w1 /\ lang r2 w2
  | Re.Alt r1 r2 => fun w => lang r1 w \/ lang r2 w
  | Re.Star r1 => star (lang r1)
  | Re.Opt r1 => fun w => w = [] \/ lang r1 w
  | Re.Grp _ r1 => lang r1
  end.

(** The numbered groups of a pattern with their bodies. *)
Fixpoint group_bodies (r : Re.regex) : list (nat * Re.regex) :=
  match r with
  | Re.Lit _ | Re.Cls _ => []
  | Re.Cat r1 r2 | Re.Alt r1 r2 => group_bodies r1 ++ group_bodies r2
  | Re.Star r1 | Re.Opt r1 => group_bodies r1
  | Re.Grp n r1 => (n, r1) :: group_bodies r1
  end.

(** The groups that take part in every match of a pattern. *)
Fixpoint always_sets (r : Re.regex) (n : nat) : bool :=
  match r with
  | Re.Lit _ | Re.Cls _ | Re.Star _ | Re.Opt _ => false
  | Re.Cat r1 r2 => always_sets r1 n || always_sets r2 n
  | Re.Alt r1 r2 => always_sets r1 n && always_sets r2 n
  | Re.Grp m r1 => Nat.eqb n m || always_sets r1 n
  end.

(** Every captured group holds a word of one of the bodies [G] allows. *)
Definition captures_in (G : list (nat * Re.regex)) (g : Re.groups) : Prop :=
  forall n w, g n = Some w -> exists body, In (n, body) G /\ lang body w.

(** What holds when a run that started at [s] with groups [g] reaches its
    continuation at [s'] with groups [g']. *)
Definition reaches {A} (G : list (nat * Re.regex)) (r : Re.regex)
    (s : list ascii) (g : Re.groups)
    (k : list ascii -> Re.groups -> option A) (res : A) : Prop :=
  exists w s' g',
    s = w ++ s' /\ lang r w /\ captures_in G g'
    /\ (forall n, is_Some (g n) \/ always_sets r n = true -> is_Some (g' n))
    /\ k s' g' = Some res.

(** Strings of decimal digits, and numerals with an optional fraction. *)
Definition all_digits (w : list ascii) : bool := forallb Re.digit w.

Definition is_numeral (w : list ascii) : Prop :=
  exists i f, i <> [] /\ all_digits i = true /\ all_digits f = true
              /\ (w = i \/ (f <> [] /\ w = i ++ "."%char :: f)).

(** The loop inside the matcher's case for a repetition, by itself. *)
Definition star_iter {A} (r1 : Re.regex) (k : list ascii -> Re.groups -> option A)
    : nat -> list ascii -> Re.groups -> option A :=
  fix iter (n : nat) (s : list ascii) (g : Re.groups) : option A :=
    match n with
    | O => k s g
    | S n' =>
        match Re.run r1 s g (fun s' g' =>
                 if Nat.ltb (length s') (length s)
                 then iter n' s' g' else None) with
        | Some res => Some res
        | None => k s g
        end
    end.

(** A text that does not begin with a character of the class [p]. *)
Definition stops (p : ascii -> bool) (s : list ascii) : bool :=
  match s with
  | [] => true
  | c :: _ => negb (p c)
  end.

(** The characters of the text before its [net] clause. *)
Definition plain (c : ascii) : bool :=
  (Re.digit c || Ascii.eqb c "."%char || Ascii.eqb c "/"%char
   || Ascii.eqb c " "%char)%bool.

(** The text [<rate>/<days> net <days>]. *)
Definition standard_terms (rate days net : list ascii) : string :=
  string_of_list_ascii
    (rate ++ "/"%char :: days ++ list_ascii_of_string " net " ++ net).

(** The text [Net <digits>], the last digit given apart. *)
Definition net_only_terms (digits : list ascii) (last_digit : ascii) : string :=
  string_of_list_ascii (list_ascii_of_string "Net " ++ digits ++ [last_digit]).

(** The other inputs that [calculate_vrs] reads, with their defaults. *)
Definition years_in_business_of (db : Database) (vendor_id : string) : Q :=
  get (get_field (external_data (get (vendor_master db) vendor_id no_profile)) ∅)
      "years_in_business" 5.

Definition reliability_of (db : Database) (vendor_id : string) : Q :=
  get (get_field (operational_metrics
                    (get (performance_metrics db) vendor_id no_performance)) ∅)
      "on_time_delivery_rate" 85.

Definition friction_emails_of (db : Database) (vendor_id : string) : Q :=
  get (get_field (email_metrics
                    (get (communication_logs db) vendor_id no_communication)) ∅)
      "friction_emails" 5.

(** A database with one vendor and the counts of its payment history. *)
Definition one_vendor (vendor_id : string) (spend : Q) (history : PaymentHistory)
    : Database :=
  {| vendor_master :=
       {[ vendor_id :=
            mkVendorProfile None
              (Some {[ "annual_contract_value"%string := spend ]}) None None None ]};
     payment_history := {[ vendor_id := history ]};
     communication_logs := ∅;
     performance_metrics := ∅;
     market_intelligence := ∅;
     financial_parameters := mkFinancialParameters None None None None |}.

(** ** Reports on a payment sequence *)

Module Reports.

(** [sum(xs)]: from 0, left to right. *)
Definition pysum (xs : list Q) : Q := fold_left Qplus xs 0.

(** [max(a, b)]: Python returns the first maximal argument. *)
Definition pymax (a b : Q) : Q := if Qltb a b then b else a.

(** [sorted(xs, key=key)]: ascending and stable. *)
Section SortedAscending.
Context {A : Type} (key : A -> Q).

Fixpoint insert_asc (x : A) (l : list A) : list A :=
  match l with
  | [] => [x]
  | y :: l' =>
      if Qltb (key y) (key x) then y :: insert_asc x l' else x :: y :: l'
  end.

Definition sorted_ascending (l : list A) : list A :=
  fold_right insert_asc [] l.
End SortedAscending.

(** The [dashboard_metrics] of the executive summary. *)
Record DashboardMetrics : Type := mkDashboardMetrics {
  total_payables : Q;
  potential_savings : Q;
  savings_rate : Q;
  active_vendors : nat;
  scheduled_payments : nat;
  deferred_payments : nat;
  average_vrs_score : Q
}.

(** Lines 993-1010 and the two counts of lines 1011-1017; the texts that
    the summary copies from the mode configuration are left out. *)
Record ExecutiveSummary : Type := mkExecutiveSummary {
  dashboard_metrics : DashboardMetrics;
  payments_optimized : nat;
  strategic_vendors_preserved : nat
}.

Definition _generate_executive_summary (payment_sequence : list PaymentSequenceEntry)
    : ExecutiveSummary :=
  let scheduled_payments := List.filter is_scheduled payment_sequence in
  let total_payables := pysum (map amount payment_sequence) in
  let total_savings := pysum (map discount_captured scheduled_payments) in
  let active_vendors :=
    size (list_to_set (map entry_vendor_id payment_sequence) : gset string) in
  {| dashboard_metrics :=
       {| total_payables := total_payables;
          potential_savings := total_savings;
          savings_rate :=
            if Qltb 0 total_payables
            then total_savings / total_payables * 100 else 0;
          active_vendors := active_vendors;
          scheduled_payments := length scheduled_payments;
          deferred_payments := length payment_sequence - length scheduled_payments;
          average_vrs_score :=
            match scheduled_payments with
            | [] => 0
            | _ => pysum (map vrs_score scheduled_payments)
                   / inject_Z (Z.of_nat (length scheduled_payments))
            end |};
     payments_optimized := length payment_sequence;
     strategic_vendors_preserved :=
       length (List.filter (fun p => Qltb 85 (vrs_score p)) scheduled_payments) |}.

(** The [financial_metrics] of lines 1026-1047. *)
Record FinancialMetrics : Type := mkFinancialMetrics {
  total_savings : Q;
  analytics_savings_rate : Q;
  annual_projection : Q;
  implementation_cost : Q;
  roi_percentage : Q;
  payback_period_months : Q
}.

Definition _generate_performance_analytics (payment_sequence : list PaymentSequenceEntry)
    : FinancialMetrics :=
  let total_savings := pysum (map discount_captured payment_sequence) in
  let total_amount := pysum (map amount payment_sequence) in
  let implementation_cost := 45000 in
  let annual_savings := total_savings * 4 in
  let roi :=
    if Qltb 0 implementation_cost
    then (annual_savings - implementation_cost) / implementation_cost * 100
    else 0 in
  let payback_months :=
    if Qltb 0 total_savings
    then implementation_cost / (total_savings * 4 / 12) else 0 in
  {| total_savings := total_savings;
     analytics_savings_rate :=
       if Qltb 0 total_amount then total_savings / total_amount * 100 else 0;
     annual_projection := annual_savings;
     implementation_cost := implementation_cost;
     roi_percentage := roi;
     payback_period_months := payback_months |}.

(** Lines 1062-1075; the three sources are dictionaries, empty when the
    file could not be read. *)
Definition _calculate_data_quality_score (db : Database) : Q :=
  let score_of (entries : nat) : Q :=
    if Nat.eqb entries 0 then 50 else 90 + inject_Z (Z.of_nat entries) * 2 in
  let scores :=
    [ score_of (size (vendor_master db));
      score_of (size (payment_history db));
      score_of (size (performance_metrics db)) ] in
  match scores with
  | [] => 70
  | _ => pymin 100 (pysum scores / inject_Z (Z.of_nat (length scores)))
  end.

(** The variables that the loop of lines 973-983 updates. *)
Record TraditionalState : Type := mkTraditionalState {
  acc_savings : Q;
  acc_business_value : Q;
  acc_vendors_paid : nat;
  acc_remaining_cash : Q
}.

Record TraditionalResults : Type := mkTraditionalResults {
  method : string;
  traditional_savings : Q;
  traditional_business_value : Q;
  vendors_paid : nat;
  traditional_average_vrs : Q
}.

Definition traditional_body (st : TraditionalState) (scored_invoice : ScoredInvoice)
    : TraditionalState :=
  let invoice_amount := invoice_amount (invoice scored_invoice) in
  if Qleb invoice_amount (acc_remaining_cash st)
  then
    let discount_rate := discount_rate (payment_terms scored_invoice) in
    let savings := invoice_amount * (discount_rate / 100) in
    {| acc_savings := acc_savings st + savings;
       acc_business_value :=
         acc_business_value st
         + net_financial_benefit (business_value scored_invoice);
       acc_vendors_paid := acc_vendors_paid st + 1;
       acc_remaining_cash := acc_remaining_cash st - invoice_amount |}
  else st.

(** Lines 959-991; [available_cash] is the key of the cash constraints. *)
Definition _calculate_traditional_results (available_cash : option Q)
    (sequence : list ScoredInvoice) (method_name : string) : TraditionalResults :=
  let available_cash := get_field available_cash 2500000 in
  let minimum_reserve := available_cash * (20 # 100) in
  let usable_cash := available_cash - minimum_reserve in
  let final :=
    fold_left traditional_body sequence
      {| acc_savings := 0;
         acc_business_value := 0;
         acc_vendors_paid := 0;
         acc_remaining_cash := usable_cash |} in
  {| method := method_name ++ " Method";
     traditional_savings := acc_savings final;
     traditional_business_value := acc_business_value final;
     vendors_paid := acc_vendors_paid final;
     traditional_average_vrs := 0 |}.

Record ComparisonAnalysis : Type := mkComparisonAnalysis {
  payopti_savings : Q;
  payopti_business_value : Q;
  payopti_vendors_paid : nat;
  payopti_average_vrs : Q;
  avalanche : TraditionalResults;
  snowball : TraditionalResults;
  savings_vs_avalanche : Q;
  savings_vs_snowball : Q;
  business_value_advantage : Q
}.

(** Lines 923-957. *)
Definition _generate_comparison_analysis (available_cash : option Q)
    (payment_sequence : list PaymentSequenceEntry)
    (scored_invoices : list ScoredInvoice) : ComparisonAnalysis :=
  let payopti_savings := pysum (map discount_captured payment_sequence) in
  let payopti_business_value := pysum (map entry_business_value payment_sequence) in
  let avalanche_sequence :=
    sorted_reverse (fun x => discount_rate (payment_terms x)) scored_invoices in
  let avalanche_results :=
    _calculate_traditional_results available_cash avalanche_sequence "Avalanche" in
  let snowball_sequence :=
    sorted_ascending (fun x => invoice_amount (invoice x)) scored_invoices in
  let snowball_results :=
    _calculate_traditional_results available_cash snowball_sequence "Snowball" in
  {| payopti_savings := payopti_savings;
     payopti_business_value := payopti_business_value;
     payopti_vendors_paid := length (List.filter is_scheduled payment_sequence);
     payopti_average_vrs :=
       match payment_sequence with
       | [] => 0
       | _ => pysum (map vrs_score payment_sequence)
              / inject_Z (Z.of_nat (length payment_sequence))
       end;
     avalanche := avalanche_results;
     snowball := snowball_results;
     savings_vs_avalanche := payopti_savings - traditional_savings avalanche_results;
     savings_vs_snowball := payopti_savings - traditional_savings snowball_results;
     business_value_advantage :=
       payopti_business_value
       - pymax (traditional_business_value avalanche_results)
               (traditional_business_value snowball_results) |}.

(** Lines 364-396, on the two keys of the analysis that are modelled;
    the argument is the [vrs_components] key of the vendor context. *)
Definition _generate_fallback_analysis (vrs_components : option VRSComponents)
    : AIAnalysis :=
  let vrs_score :=
    final_vrs (get_field vrs_components (mkVRSComponents 50 50 50 50 50 50 50 50)) in
  if Qleb 85 vrs_score
  then mkAIAnalysis (Some "strategic_partner"%string) (Some "immediate"%string)
  else mkAIAnalysis (Some "standard_vendor"%string) (Some "medium"%string).

(** Lines 900-921.  The strategy kept for a vendor is built from one
    scored invoice, which stands for it here. *)
Definition _generate_negotiation_strategies (scored_invoices : list ScoredInvoice)
    : gmap string ScoredInvoice :=
  fold_left
    (fun strategies scored_invoice =>
       let vrs_score := final_vrs (vrs_components scored_invoice) in
       if Qltb 70 vrs_score
       then <[vendor_id scored_invoice := scored_invoice]> strategies
       else strategies)
    scored_invoices ∅.

(** Lines 724-761 when no text-analysis client is configured. *)
Definition score_invoice (db : Database) (now : Z) (inv : Invoice) : ScoredInvoice :=
  let vendor_id := inv_vendor_id inv in
  let raw_terms := get_field (raw_payment_terms inv) "Net 30"%string in
  let payment_terms := AIIntegrator._fallback_payment_terms_parse raw_terms in
  let vrs_components := calculate_vrs db vendor_id in
  let business_value :=
    calculate_enhanced_business_value db now inv vendor_id payment_terms
      vrs_components in
  {| invoice := inv;
     vendor_id := vendor_id;
     vendor_name :=
       get (get_field (basic_info (get (vendor_master db) vendor_id no_profile)) ∅)
           "display_name" "Unknown"%string;
     payment_terms := payment_terms;
     vrs_components := vrs_components;
     business_value := business_value;
     ai_analysis := _generate_fallback_analysis (Some vrs_components) |}.

End Reports.

Import Reports.

(** The sum of the invoice amounts of a batch. *)
Definition batch_total (l : list ScoredInvoice) : Q :=
  pysum (map (fun x => invoice_amount (invoice x)) l).

(** A third, larger invoice without written terms, and the three scored
    five days after issue. *)
Definition invoice_c : Invoice :=
  {| invoice_id := "INV-C";
     inv_vendor_id := "V003";
     invoice_amount := 120000;
     issue_date := 739000;
     due_date := "2024-05-01";
     raw_payment_terms := None |}.

Definition three_invoices : list ScoredInvoice :=
  map (score_invoice empty_database (midnight 739005))
      [invoice_c; invoice_b; invoice_a].

(** A scored invoice earns its vendor [v] a negotiation strategy. *)
Definition qualifies (v : string) (x : ScoredInvoice) : Prop :=
  vendor_id x = v /\ 70 < final_vrs (vrs_components x).

(** ** Loading the data files *)

Module DataLoading.

(** What reading a file gives: [open] raises [FileNotFoundError],
    [json.load] raises [JSONDecodeError], the content is returned, or
    another exception is raised ([PermissionError] or
    [IsADirectoryError] by [open], [UnicodeDecodeError] by [json.load]
    on bytes that are not UTF-8). *)
Inductive FileState (J : Type) : Type :=
| Missing
| Malformed
| Unreadable
| Parsed (content : J).
Arguments Missing {J}.
Arguments Malformed {J}.
Arguments Unreadable {J}.
Arguments Parsed {J} content.

Definition required_files : list string :=
  [ "invoices_input.json"; "vendor_master.json"; "payment_history.json";
    "communication_logs.json"; "performance_metrics.json";
    "market_intelligence.json"; "organization_config.json";
    "financial_parameters.json" ]%string.

Fixpoint starts_with (pat s : list ascii) : bool :=
  match pat, s with
  | [], _ => true
  | _ :: _, [] => false
  | p :: pat', c :: s' => Ascii.eqb p c && starts_with pat' s'
  end.

(** [s.replace(pat, '')] for a pattern that is not empty; [skip] counts
    the characters of an occurrence still to drop. *)
Fixpoint remove_all (pat : list ascii) (skip : nat) (s : list ascii) : list ascii :=
  match s with
  | [] => []
  | c :: s' =>
      match skip with
      | S k => remove_all pat k s'
      | O =>
          if starts_with pat s
          then remove_all pat (length pat - 1) s'
          else c :: remove_all pat 0 s'
      end
  end.

(** [filename.replace('.json', '')] *)
Definition stem (filename : string) : string :=
  string_of_list_ascii
    (remove_all (list_ascii_of_string ".json") 0 (list_ascii_of_string filename)).

(** The dictionary being filled and the local variable [key], which is
    unbound until a file has been opened. *)
Record LoadState (J : Type) : Type := mkLoadState {
  database : gmap string J;
  key : option string
}.
Arguments mkLoadState {J}.
Arguments database {J}.
Arguments key {J}.

(** How the function ends: it returns, or an exception leaves it, the
    [UnboundLocalError] of the handler or one that no handler catches. *)
Inductive LoadOutcome (A : Type) : Type :=
| Loaded (a : A)
| UnboundLocalError
| Uncaught.
Arguments Loaded {A} a.
Arguments UnboundLocalError {A}.
Arguments Uncaught {A}.

Section Loading.
Context {J : Type}.
(** The empty dictionary [{}]. *)
Variable empty_dict : J.
(** What reading each file of the data directory gives. *)
Variable files : string -> FileState J.

(** One turn of the loop of lines 455-467. *)
Definition load_file (st : LoadState J) (filename : string)
    : LoadOutcome (LoadState J) :=
  match files filename with
  | Parsed content =>
      let key := stem filename in
      Loaded {| database := <[key := content]> (database st); key := Some key |}
  | Malformed =>
      let key := stem filename in
      Loaded {| database := <[key := empty_dict]> (database st); key := Some key |}
  | Missing =>
      match key st with
      | Some key =>
          Loaded {| database := <[key := empty_dict]> (database st);
                    key := Some key |}
      | None => UnboundLocalError
      end
  | Unreadable => Uncaught
  end.

Fixpoint load_files (filenames : list string) (st : LoadState J)
    : LoadOutcome (LoadState J) :=
  match filenames with
  | [] => Loaded st
  | filename :: rest =>
      match load_file st filename with
      | Loaded st' => load_files rest st'
      | UnboundLocalError => UnboundLocalError
      | Uncaught => Uncaught
      end
  end.

(** Lines 442-471: the database and the configuration read from it. *)
Definition _load_all_data : LoadOutcome (gmap string J * J) :=
  match load_files required_files {| database := ∅; key := None |} with
  | Loaded st =>
      Loaded (database st, get (database st) "organization_config" empty_dict)
  | UnboundLocalError => UnboundLocalError
  | Uncaught => Uncaught
  end.

(** What a file that could be opened leaves under its key. *)
Definition stored (state : FileState J) : J :=
  match state with
  | Parsed content => content
  | _ => empty_dict
  end.
End Loading.

End DataLoading.

(** A data directory whose communication log is missing and whose market
    intelligence is not valid JSON; a content stands for itself. *)
Definition sample_directory (filename : string) : DataLoading.FileState string :=
  if String.eqb filename "communication_logs.json" then DataLoading.Missing
  else if String.eqb filename "market_intelligence.json" then DataLoading.Malformed
  else DataLoading.Parsed filename.

Definition complete_directory (filename : string) : DataLoading.FileState string :=
  if String.eqb filename "market_intelligence.json" then DataLoading.Malformed
  else DataLoading.Parsed filename.

(** ** Comparing the results of the modes *)

Module ModeComparison.
Import ModeComparer.

(** The keys of a successful mode's results that the comparison reads. *)
Record ModeRun : Type := mkModeRun {
  mode_name : string;
  potential_savings : Q;
  savings_rate : Q;
  scheduled_payments : nat;
  average_vrs_score : Q;
  minimum_reserve : Q;
  available_cash : Q
}.

Record ComparisonRow : Type := mkComparisonRow {
  row_mode_name : string;
  total_savings : Q;
  row_savings_rate : Q;
  vendors_scheduled : nat;
  average_vrs : Q;
  cash_reserve_ratio : Q
}.

(** [best_performers]: the mode and the figure for each of the two
    metrics.  The recommendation texts are left out. *)
Record BestPerformers : Type := mkBestPerformers {
  highest_savings_mode : string;
  highest_savings : Q;
  highest_vrs_mode : string;
  highest_vrs : Q
}.

Inductive ModeAnalysis : Type :=
| NoSuccessfulMode
| Compared (mode_comparison : list (string * ComparisonRow))
           (best_performers : option BestPerformers).

(** [x / y] on numbers, which raises when [y] is 0. *)
Definition divide (x y : Q) : Outcome Q :=
  if Qeq_bool y 0 then Raise "division by zero" else Return (x / y).

(** Lines 1122-1133, over the successful modes in the order of the
    dictionary. *)
Fixpoint comparison_rows (successful : list (string * ModeRun))
    : Outcome (list (string * ComparisonRow)) :=
  match successful with
  | [] => Return []
  | (mode, results) :: rest =>
      match divide (minimum_reserve results) (available_cash results) with
      | Raise e => Raise e
      | Return ratio =>
          match comparison_rows rest with
          | Raise e => Raise e
          | Return rows =>
              Return ((mode,
                       {| row_mode_name := mode_name results;
                          total_savings := potential_savings results;
                          row_savings_rate := savings_rate results;
                          vendors_scheduled := scheduled_payments results;
                          average_vrs := average_vrs_score results;
                          cash_reserve_ratio := ratio |}) :: rows)
          end
      end
  end.

(** [max(xs, key=key)] on a list that starts with [first]: the first
    element whose key no other exceeds. *)
Definition max_by {A} (key : A -> Q) (first : A) (rest : list A) : A :=
  fold_left (fun best x => if Qltb (key best) (key x) then x else best) rest first.

(** [next(k for k, v in rows if key(v) == target)] *)
Definition next_key (key : ComparisonRow -> Q) (target : Q)
    (rows : list (string * ComparisonRow)) : Outcome string :=
  match List.find (fun kv => Qeq_bool (key (snd kv)) target) rows with
  | Some (k, _) => Return k
  | None => Raise "StopIteration"
  end.

Definition successful_modes (mode_results : list (string * ModeResult ModeRun))
    : list (string * ModeRun) :=
  flat_map (fun kv => match snd kv with
                      | Success results => [(fst kv, results)]
                      | Failed _ => []
                      end) mode_results.

(** Lines 1111-1155; [mode_results] lists the items of the dictionary in
    its order. *)
Definition _generate_mode_comparison
    (mode_results : list (string * ModeResult ModeRun)) : Outcome ModeAnalysis :=
  match successful_modes mode_results with
  | [] => Return NoSuccessfulMode
  | successful =>
      match comparison_rows successful with
      | Raise e => Raise e
      | Return [] => Return (Compared [] None)
      | Return (first :: rest) =>
          let comparison := first :: rest in
          let best_savings := max_by total_savings (snd first) (map snd rest) in
          let best_vrs := max_by average_vrs (snd first) (map snd rest) in
          match next_key total_savings (total_savings best_savings) comparison with
          | Raise e => Raise e
          | Return savings_mode =>
              match next_key average_vrs (average_vrs best_vrs) comparison with
              | Raise e => Raise e
              | Return vrs_mode =>
                  Return (Compared comparison
                            (Some {| highest_savings_mode := savings_mode;
                                     highest_savings := total_savings best_savings;
                                     highest_vrs_mode := vrs_mode;
                                     highest_vrs := average_vrs best_vrs |}))
              end
          end
      end
  end.

End ModeComparison.

(** Three modes: one failed, one saving 9,700 and one saving 6,500. *)
Definition sample_mode_results
    : list (string * ModeComparer.ModeResult ModeComparison.ModeRun) :=
  [ ("ipo"%string, ModeComparer.Failed "no cash constraints");
    ("balanced"%string,
     ModeComparer.Success
       (ModeComparison.mkModeRun "Balanced" 9700 (24 # 10) 3 72 160000 800000));
    ("crisis"%string,
     ModeComparer.Success
       (ModeComparison.mkModeRun "Crisis" 6500 (16 # 10) 2 81 480000 800000)) ].

(** The captured texts are at most [n] characters long. *)
Definition short_groups (n : nat) (g : Re.groups) : Prop :=
  forall i w, g i = Some w -> (length w <= n)%nat.

(** ** Binary64 numbers

    The place of a number in the order of [SFcompare], its sign, and the
    numbers that are whole. *)

(** The place of a number on the extended line: class, then exponent,
    then mantissa. *)
Definition rank (x : spec_float) : Z * Z * Z :=
  match x with
  | S754_infinity true => (-2, 0, 0)%Z
  | S754_finite true m e => (-1, - e, Zneg m)%Z
  | S754_zero _ => (0, 0, 0)%Z
  | S754_nan => (0, 0, 0)%Z
  | S754_finite false m e => (1, e, Zpos m)%Z
  | S754_infinity false => (2, 0, 0)%Z
  end.

Definition rank_lt (a b : Z * Z * Z) : Prop :=
  let '(a1, a2, a3) := a in
  let '(b1, b2, b3) := b in
  (a1 < b1 \/ (a1 = b1 /\ (a2 < b2 \/ (a2 = b2 /\ a3 < b3))))%Z.

Definition SFis_nan (x : spec_float) : bool :=
  match x with S754_nan => true | _ => false end.

Definition SFnonneg (x : spec_float) : bool :=
  match x with
  | S754_zero _ | S754_infinity false | S754_finite false _ _ => true
  | _ => false
  end.

(** The number of binary digits of a positive whole number. *)
Definition digits (n : Z) : Z := (Z.log2 n + 1)%Z.

(** The binary64 number of a whole number from 0 to 2^53 - 1: the
    mantissa has 53 digits. *)
Definition canon (n : Z) : spec_float :=
  match n with
  | Zpos p => S754_finite false (Z.to_pos (n * 2 ^ (53 - digits n))) (digits n - 53)
  | _ => S754_zero false
  end.

(** The whole part of a binary64 number that is not negative. *)
Definition units (x : float) : Z :=
  match Prim2SF x with
  | S754_finite false m e => Z.shiftl (Zpos m) e
  | _ => 0%Z
  end.

(** A whole number from 0 to 2^53 - 1, as an amount in whole currency
    units is. *)
Definition whole (x : float) : Prop :=
  (0 <= units x < 2 ^ 53)%Z /\ Prim2SF x = canon (units x).

(** ** The allocation loop in binary64

    The scoring model above computes with exact rationals.  The loop of
    the allocator is given here a second time with the numbers the
    interpreter has: binary64 floating point, where a subtraction is
    rounded to the nearest number (ties to even).  A decimal literal
    stands for the nearest binary64 number, as in Python; a JSON integer
    below 2^53 is the binary64 number of the same value, and on such
    operands the comparison, subtraction, product and quotient of Python
    are those of binary64.  Dates are ordinal days; the range of
    [datetime] (years 1 to 9999) is not modelled. *)

Module Binary64.

Record PaymentTerms : Type := mkPaymentTerms {
  payment_type : string;
  discount_rate : float;
  discount_days : Z;
  net_days : Z;
  late_fee_rate : float;
  confidence : float
}.

Record VRSComponents : Type := mkVRSComponents {
  hard_factors_score : float;
  soft_factors_score : float;
  final_vrs : float;
  total_value_score : float;
  repayment_score : float;
  longevity_score : float;
  reliability_score : float;
  communication_score : float
}.

Record BusinessValue : Type := mkBusinessValue {
  net_financial_benefit : float;
  business_impact_multiplier : float;
  relationship_multiplier : float;
  risk_multiplier : float;
  vrs_multiplier : float;
  urgency_multiplier : float;
  market_multiplier : float;
  final_business_value : float
}.

Record Invoice : Type := mkInvoice {
  invoice_id : string;
  inv_vendor_id : string;
  invoice_amount : float;
  issue_date : Z;
  due_date : string;
  raw_payment_terms : option string
}.

Record ScoredInvoice : Type := mkScoredInvoice {
  invoice : Invoice;
  vendor_id : string;
  vendor_name : string;
  payment_terms : PaymentTerms;
  vrs_components : VRSComponents;
  business_value : BusinessValue;
  ai_analysis : AIAnalysis
}.

Record PaymentSequenceEntry : Type := mkEntry {
  position : nat;
  entry_vendor_id : string;
  entry_vendor_name : string;
  entry_invoice_id : string;
  amount : float;
  entry_business_value : float;
  vrs_score : float;
  entry_discount_rate : float;
  discount_captured : float;
  payment_timing : Timing;
  strategic_impact : option string;
  payment_priority : option string;
  status : Status
}.

Definition is_scheduled (e : PaymentSequenceEntry) : bool :=
  match status e with scheduled => true | deferred => false end.

(** [sorted(xs, key=key, reverse=True)] on keys that are numbers: an
    element moves behind the ones whose key is greater ([<] of binary64,
    which holds for no pair with a NaN). *)
Section SortedReverse.
Context {A : Type} (key : A -> float).

Fixpoint insert_desc (x : A) (l : list A) : list A :=
  match l with
  | [] => [x]
  | y :: l' =>
      if (key x <? key y)%float then y :: insert_desc x l' else x :: y :: l'
  end.

Definition sorted_reverse (l : list A) : list A :=
  fold_right insert_desc [] l.
End SortedReverse.

(** Lines 713-716. *)
Definition usable_cash_of (available_cash reserve_ratio : float) : float :=
  let minimum_reserve := (available_cash * reserve_ratio)%float in
  (available_cash - minimum_reserve)%float.

Definition bv (x : ScoredInvoice) : float := final_business_value (business_value x).

(** Lines 784-799. *)
Definition scheduled_entry (i : nat) (scored_invoice : ScoredInvoice)
    : PaymentSequenceEntry :=
  let invoice := invoice scored_invoice in
  let invoice_amount := invoice_amount invoice in
  let discount_captured :=
    (invoice_amount * (discount_rate (payment_terms scored_invoice) / 100))%float in
  let optimal_date :=
    (issue_date invoice + (discount_days (payment_terms scored_invoice) - 1))%Z in
  {| position := i + 1;
     entry_vendor_id := vendor_id scored_invoice;
     entry_vendor_name := vendor_name scored_invoice;
     entry_invoice_id := invoice_id invoice;
     amount := invoice_amount;
     entry_business_value := bv scored_invoice;
     vrs_score := final_vrs (vrs_components scored_invoice);
     entry_discount_rate := discount_rate (payment_terms scored_invoice);
     discount_captured := discount_captured;
     payment_timing := OnDay optimal_date;
     strategic_impact :=
       Some (get_field (vendor_classification (ai_analysis scored_invoice))
                       "standard"%string);
     payment_priority :=
       Some (get_field (analysis_payment_priority (ai_analysis scored_invoice))
                       "medium"%string);
     status := scheduled |}.

(** Lines 805-818. *)
Definition deferred_entry (i : nat) (scored_invoice : ScoredInvoice)
    : PaymentSequenceEntry :=
  let invoice := invoice scored_invoice in
  {| position := i + 1;
     entry_vendor_id := vendor_id scored_invoice;
     entry_vendor_name := vendor_name scored_invoice;
     entry_invoice_id := invoice_id invoice;
     amount := invoice_amount invoice;
     entry_business_value := bv scored_invoice;
     vrs_score := final_vrs (vrs_components scored_invoice);
     entry_discount_rate := discount_rate (payment_terms scored_invoice);
     discount_captured := 0%float;
     payment_timing := AsWritten (due_date invoice);
     strategic_impact := None;
     payment_priority := None;
     status := deferred |}.

(** The variables that the loop of lines 772-820 updates. *)
Record LoopState : Type := mkLoopState {
  payment_sequence : list PaymentSequenceEntry;
  remaining_cash : float
}.

Definition loop_body (st : LoopState) (item : nat * ScoredInvoice) : LoopState :=
  let '(i, scored_invoice) := item in
  let invoice_amount := invoice_amount (invoice scored_invoice) in
  if (invoice_amount <=? remaining_cash st)%float
  then {| payment_sequence :=
            payment_sequence st ++ [scheduled_entry i scored_invoice];
          remaining_cash := (remaining_cash st - invoice_amount)%float |}
  else {| payment_sequence :=
            payment_sequence st ++ [deferred_entry i scored_invoice];
          remaining_cash := remaining_cash st |}.

(** Lines 763-820. *)
Definition allocate (usable_cash : float) (scored_invoices : list ScoredInvoice)
    : list PaymentSequenceEntry :=
  let sorted_invoices := sorted_reverse bv scored_invoices in
  payment_sequence
    (fold_left loop_body (enumerate sorted_invoices)
       {| payment_sequence := []; remaining_cash := usable_cash |}).

(** Lines 709-716 followed by the allocator. *)
Definition generate_payment_sequence (available_cash cash_reserve_ratio : option float)
    (scored_invoices : list ScoredInvoice) : list PaymentSequenceEntry :=
  let available_cash := get_field available_cash 2500000%float in
  let reserve_ratio := get_field cash_reserve_ratio 0.2%float in
  allocate (usable_cash_of available_cash reserve_ratio) scored_invoices.

(** *** The allocator as the specification words it *)

Definition stable_descending {A} (key : A -> float) (input output : list A) : Prop :=
  Permutation input output
  /\ StronglySorted (fun x y => (key y <=? key x)%float = true) output
  /\ forall v : float,
       List.filter (fun x => (key x =? v)%float) output
       = List.filter (fun x => (key x =? v)%float) input.

Inductive greedy_walk
    : float -> list ScoredInvoice -> list PaymentSequenceEntry -> Prop :=
| walk_done (remaining : float) :
    greedy_walk remaining [] []
| walk_scheduled (remaining : float) x rest e out :
    (invoice_amount (invoice x) <=? remaining)%float = true ->
    status e = scheduled ->
    amount e = invoice_amount (invoice x) ->
    discount_captured e
      = (invoice_amount (invoice x) * (discount_rate (payment_terms x) / 100))%float ->
    payment_timing e
      = OnDay (issue_date (invoice x) + (discount_days (payment_terms x) - 1)) ->
    greedy_walk (remaining - invoice_amount (invoice x))%float rest out ->
    greedy_walk remaining (x :: rest) (e :: out)
| walk_deferred (remaining : float) x rest e out :
    (invoice_amount (invoice x) <=? remaining)%float = false ->
    status e = deferred ->
    amount e = invoice_amount (invoice x) ->
    discount_captured e = 0%float ->
    payment_timing e = AsWritten (due_date (invoice x)) ->
    greedy_walk remaining rest out ->
    greedy_walk remaining (x :: rest) (e :: out).

(** The entries that the loop appends when it reaches index [i] with
    [remaining] cash and the invoices [l] still to visit. *)
Fixpoint appended (i : nat) (remaining : float) (l : list ScoredInvoice)
    : list PaymentSequenceEntry :=
  match l with
  | [] => []
  | x :: rest =>
      if (invoice_amount (invoice x) <=? remaining)%float
      then scheduled_entry i x
             :: appended (S i) (remaining - invoice_amount (invoice x))%float rest
      else deferred_entry i x :: appended (S i) remaining rest
  end.

(** The rational that a finite binary64 number stands for. *)
Definition value (x : float) : Q :=
  match Prim2SF x with
  | S754_finite s m e => inject_Z (cond_Zopp s (Zpos m)) * 2 ^ e
  | _ => 0
  end.

(** The sum of [amount] over the scheduled entries of a sequence, as a
    rational. *)
Definition scheduled_total (entries : list PaymentSequenceEntry) : Q :=
  fold_right (fun e acc => if is_scheduled e then value (amount e) + acc else acc)
             0 entries.

(** The cash that is left of a budget after the scheduled entries of a
    sequence, each amount subtracted in binary64 as the loop does. *)
Definition balance (budget : float) (entries : list PaymentSequenceEntry) : float :=
  fold_left (fun remaining e =>
               if is_scheduled e then (remaining - amount e)%float else remaining)
            entries budget.

(** [sorted(xs, key=key)]: ascending and stable. *)
Section SortedAscending.
Context {A : Type} (key : A -> float).

Fixpoint insert_asc (x : A) (l : list A) : list A :=
  match l with
  | [] => [x]
  | y :: l' =>
      if (key y <? key x)%float then y :: insert_asc x l' else x :: y :: l'
  end.

Definition sorted_ascending (l : list A) : list A :=
  fold_right insert_asc [] l.
End SortedAscending.

(** The variables that the loop of lines 973-983 updates. *)
Record TraditionalState : Type := mkTraditionalState {
  acc_savings : float;
  acc_business_value : float;
  acc_vendors_paid : nat;
  acc_remaining_cash : float
}.

Record TraditionalResults : Type := mkTraditionalResults {
  method : string;
  traditional_savings : float;
  traditional_business_value : float;
  vendors_paid : nat;
  traditional_average_vrs : float
}.

Definition traditional_body (st : TraditionalState) (scored_invoice : ScoredInvoice)
    : TraditionalState :=
  let invoice_amount := invoice_amount (invoice scored_invoice) in
  if (invoice_amount <=? acc_remaining_cash st)%float
  then
    let discount_rate := discount_rate (payment_terms scored_invoice) in
    let savings := (invoice_amount * (discount_rate / 100))%float in
    {| acc_savings := (acc_savings st + savings)%float;
       acc_business_value :=
         (acc_business_value st
          + net_financial_benefit (business_value scored_invoice))%float;
       acc_vendors_paid := acc_vendors_paid st + 1;
       acc_remaining_cash := (acc_remaining_cash st - invoice_amount)%float |}
  else st.

(** Lines 959-991. *)
Definition _calculate_traditional_results (available_cash : option float)
    (sequence : list ScoredInvoice) (method_name : string) : TraditionalResults :=
  let available_cash := get_field available_cash 2500000%float in
  let minimum_reserve := (available_cash * 0.2)%float in
  let usable_cash := (available_cash - minimum_reserve)%float in
  let final :=
    fold_left traditional_body sequence
      {| acc_savings := 0;
         acc_business_value := 0;
         acc_vendors_paid := 0;
         acc_remaining_cash := usable_cash |} in
  {| method := method_name ++ " Method";
     traditional_savings := acc_savings final;
     traditional_business_value := acc_business_value final;
     vendors_paid := acc_vendors_paid final;
     traditional_average_vrs := 0 |}.

(** Lines 932-934 and 938-939: the orders of the two baselines. *)
Definition avalanche_sequence (scored_invoices : list ScoredInvoice)
    : list ScoredInvoice :=
  sorted_reverse (fun x => discount_rate (payment_terms x)) scored_invoices.

Definition snowball_sequence (scored_invoices : list ScoredInvoice)
    : list ScoredInvoice :=
  sorted_ascending (fun x => invoice_amount (invoice x)) scored_invoices.

(** The amount of an invoice in whole units, and the total of a batch. *)
Definition units_of (x : ScoredInvoice) : Z := units (invoice_amount (invoice x)).

Definition total_units (l : list ScoredInvoice) : Z :=
  fold_right (fun x acc => (units_of x + acc)%Z) 0%Z l.

(** How many of the amounts [l], in whole units, the admission loop pays
    out of [remaining]. *)
Fixpoint paid_units (remaining : Z) (l : list Z) : nat :=
  match l with
  | [] => 0
  | a :: rest =>
      if (a <=? remaining)%Z
      then S (paid_units (remaining - a) rest)
      else paid_units remaining rest
  end.

(** A scored invoice of which only the amount, the discount and the
    final business value matter. *)
Definition scored (id : string) (invoice_amount rate value : float) : ScoredInvoice :=
  {| invoice := {| invoice_id := id; inv_vendor_id := "V001";
                   invoice_amount := invoice_amount; issue_date := 739000;
                   due_date := "2024-05-01"; raw_payment_terms := None |};
     vendor_id := "V001";
     vendor_name := "Unknown";
     payment_terms := {| payment_type := "early_discount"; discount_rate := rate;
                         discount_days := 10; net_days := 30;
                         late_fee_rate := 0; confidence := 0.7 |};
     vrs_components := mkVRSComponents 50 50 50 50 50 50 50 50;
     business_value := mkBusinessValue value 1 1 1 1 1 1 value;
     ai_analysis := mkAIAnalysis None None |}.

(** Three invoices that add up to two millions and a few parts in 10^10,
    and two that add up to 800. *)
Definition rounded_invoices : list ScoredInvoice :=
  [ scored "INV-1" 917606.88 2 300; scored "INV-2" 652650.78 2 200;
    scored "INV-3" 429742.34 2 100 ]%float.

Definition small_invoices : list ScoredInvoice :=
  [ scored "INV-2" 99.9 2 100; scored "INV-1" 700.1 2 200 ]%float.

(** Three invoices that add up to 800, in whole units and with cents. *)
Definition whole_invoices : list ScoredInvoice :=
  [ scored "INV-1" 300 2 300; scored "INV-2" 275 2 200;
    scored "INV-3" 225 2 100 ]%float.

Definition cents_invoices : list ScoredInvoice :=
  [ scored "INV-1" 300 2 300; scored "INV-2" 274.8 2 200;
    scored "INV-3" 225.2 2 100 ]%float.

End Binary64.

(** * Properties *)

(** ** Comparisons and clamps *)

Lemma Qleb_le (x y : Q) : Qleb x y = true <-> x <= y.
Proof. unfold Qleb. apply Qle_bool_iff. Qed.

Lemma Qleb_gt (x y : Q) : Qleb x y = false <-> y < x.
Proof.
  rewrite <- not_true_iff_false, Qleb_le. split.
  - apply Qnot_le_lt.
  - apply Qlt_not_le.
Qed.

Lemma Qltb_lt (x y : Q) : Qltb x y = true <-> x < y.
Proof. unfold Qltb. rewrite negb_true_iff. apply (Qleb_gt y x). Qed.

Lemma Qltb_ge (x y : Q) : Qltb x y = false <-> y <= x.
Proof. unfold Qltb. rewrite negb_false_iff. apply (Qleb_le y x). Qed.

Lemma max0_nonneg (x : Q) : 0 <= max0 x.
Proof.
  unfold max0. destruct (Qltb 0 x) eqn:E.
  - apply Qltb_lt in E. lra.
  - lra.
Qed.

Lemma max0_nonpos (x : Q) : x <= 0 -> max0 x = 0.
Proof.
  intros H. unfold max0.
  destruct (Qltb 0 x) eqn:E; [apply Qltb_lt in E; lra | reflexivity].
Qed.

(** ** The deterministic parser *)

(** C4: on ["3/15 net 45"] the fallback parser reads a 3% discount within
    15 days, net 45 days, an early discount, with confidence 0.7. *)
Theorem fallback_parse_3_15_net_45 :
  AIIntegrator._fallback_payment_terms_parse "3/15 net 45"
  = {| payment_type := "early_discount";
       discount_rate := 3;
       discount_days := 15;
       net_days := 45;
       late_fee_rate := 0;
       confidence := 7 # 10 |}.
Proof. vm_compute. reflexivity. Qed.

(** C3: on ["Net 30"], a net-day clause with no discount clause, both
    copies of the fallback parser report a 3% early discount over 0 days:
    the discount pattern splits the digits of 30 between its two groups. *)
Theorem fallback_parse_net_30_reports_discount :
  AIIntegrator._fallback_payment_terms_parse "Net 30"
  = {| payment_type := "early_discount";
       discount_rate := 3;
       discount_days := 0;
       net_days := 30;
       late_fee_rate := 0;
       confidence := 7 # 10 |}
  /\ _simple_terms_parser "Net 30"
     = AIIntegrator._fallback_payment_terms_parse "Net 30".
Proof. split; vm_compute; reflexivity. Qed.

(** ** Relationship score *)

Lemma repayment_score_eq (db : Database) (vendor_id : string) :
  repayment_score (calculate_vrs db vendor_id)
  = if Qltb 0 (total_of db vendor_id)
    then (on_time_of db vendor_id / total_of db vendor_id) * 100
    else 50.
Proof. reflexivity. Qed.

(** C9: a payment history without a [transaction_summary] gives a
    repayment score of 0 (the total defaults to 1, the on-time count to
    0), whereas an explicit [total_invoices] of 0 gives 50. *)
Theorem repayment_score_without_summary (db : Database) (vendor_id : string) :
  (transaction_summary (get (payment_history db) vendor_id no_history) = None ->
   total_of db vendor_id = 1
   /\ on_time_of db vendor_id = 0
   /\ repayment_score (calculate_vrs db vendor_id) = 0)
  /\ (forall summary,
        transaction_summary (get (payment_history db) vendor_id no_history)
          = Some summary ->
        summary !! "total_invoices"%string = Some 0 ->
        repayment_score (calculate_vrs db vendor_id) = 50).
Proof.
  split.
  - intros H. rewrite repayment_score_eq. unfold total_of, on_time_of.
    rewrite H. repeat split; reflexivity.
  - intros summary H H0. rewrite repayment_score_eq. unfold total_of.
    rewrite H. unfold get_field, get. simpl. rewrite H0. reflexivity.
Qed.

Lemma repayment_score_without_summary_witness :
  repayment_score (calculate_vrs (history_only "V001" no_history) "V001") = 0
  /\ repayment_score
       (calculate_vrs (history_only "V001" (summary_of [("total_invoices"%string, 0)]))
                      "V001") = 50.
Proof.
  split.
  - apply (repayment_score_without_summary (history_only "V001" no_history) "V001").
    reflexivity.
  - apply (proj2 (repayment_score_without_summary
                    (history_only "V001" (summary_of [("total_invoices"%string, 0)]))
                    "V001")
             (list_to_map [("total_invoices"%string, 0)])); reflexivity.
Defined.

(** C7, as the code has it: the repayment score is 100 times the on-time
    share when the total is positive and 50 when the total is 0; it lies
    in [0,100] when the on-time count lies between 0 and the total. *)
Theorem repayment_score_range (db : Database) (vendor_id : string) :
  (0 < total_of db vendor_id ->
   repayment_score (calculate_vrs db vendor_id)
   == 100 * (on_time_of db vendor_id / total_of db vendor_id))
  /\ (total_of db vendor_id == 0 ->
      repayment_score (calculate_vrs db vendor_id) = 50)
  /\ (0 <= on_time_of db vendor_id <= total_of db vendor_id ->
      0 <= repayment_score (calculate_vrs db vendor_id) <= 100).
Proof.
  rewrite repayment_score_eq.
  set (t := total_of db vendor_id). set (n := on_time_of db vendor_id).
  destruct (Qltb 0 t) eqn:E.
  - apply Qltb_lt in E. split; [| split].
    + intros _. ring.
    + intros H. lra.
    + intros [Hn Ht].
      assert (Hq : 0 <= n / t <= 1).
      { split.
        - apply Qle_shift_div_l; [exact E | lra].
        - apply Qle_shift_div_r; [exact E | lra]. }
      lra.
  - apply Qltb_ge in E. split; [| split].
    + intros H. lra.
    + reflexivity.
    + intros _. lra.
Qed.

Lemma repayment_score_range_witness :
  0 <= repayment_score
         (calculate_vrs
            (history_only "V001"
               (summary_of [("total_invoices"%string, 72);
                            ("invoices_paid_on_time"%string, 71)]))
            "V001") <= 100.
Proof.
  apply (repayment_score_range
           (history_only "V001"
              (summary_of [("total_invoices"%string, 72);
                           ("invoices_paid_on_time"%string, 71)]))
           "V001").
  vm_compute. split; discriminate.
Defined.

(** C7 as stated fails: a summary that counts 5 on-time invoices and has
    no [total_invoices] key scores 500. *)
Lemma repayment_score_above_100 :
  ~ (0 <= repayment_score
            (calculate_vrs
               (history_only "V001"
                  (summary_of [("invoices_paid_on_time"%string, 5)]))
               "V001") <= 100).
Proof. vm_compute. intros [_ H]. apply H. reflexivity. Qed.

(** ** Business value *)

Section BusinessValueModel.
Variables (db : Database) (now : Z) (inv : Invoice) (vendor : string)
          (terms : PaymentTerms) (vrs : VRSComponents).

Local Abbreviation value :=
  (calculate_enhanced_business_value db now inv vendor terms vrs).

Lemma net_financial_benefit_eq :
  net_financial_benefit value
  = max0 (invoice_amount inv * (discount_rate terms / 100)
          - invoice_amount inv * (wacc_of db / 365)
            * inject_Z (Z.max 0 (net_days terms - discount_days terms))).
Proof. reflexivity. Qed.

Lemma urgency_multiplier_eq :
  urgency_multiplier value = urgency_of (days_to_deadline inv terms now).
Proof. reflexivity. Qed.

Lemma final_business_value_eq :
  final_business_value value
  = net_financial_benefit value * business_impact_multiplier value
    * relationship_multiplier value * risk_multiplier value
    * vrs_multiplier value * urgency_multiplier value
    * market_multiplier value.
Proof. reflexivity. Qed.

Lemma opportunity_cost_nonneg :
  0 <= invoice_amount inv -> 0 <= wacc_of db ->
  0 <= invoice_amount inv * (wacc_of db / 365)
       * inject_Z (Z.max 0 (net_days terms - discount_days terms)).
Proof.
  intros Ha Hw.
  apply Qmult_le_0_compat; [apply Qmult_le_0_compat |].
  - exact Ha.
  - apply Qle_shift_div_l; lra.
  - change 0 with (inject_Z 0). rewrite <- Zle_Qle. lia.
Qed.

(** C5: the net financial benefit is never negative, and an invoice
    whose terms carry a 0% discount (amount and cost of capital not
    negative) has a net financial benefit of 0 and a final business
    value of 0. *)
Theorem zero_discount_zero_value :
  0 <= net_financial_benefit value
  /\ (discount_rate terms == 0 -> 0 <= invoice_amount inv -> 0 <= wacc_of db ->
      net_financial_benefit value = 0 /\ final_business_value value == 0).
Proof.
  split.
  - rewrite net_financial_benefit_eq. apply max0_nonneg.
  - intros Hr Ha Hw.
    assert (Hn : net_financial_benefit value = 0).
    { rewrite net_financial_benefit_eq. apply max0_nonpos.
      pose proof (opportunity_cost_nonneg Ha Hw) as Hc.
      assert (Hd : invoice_amount inv * (discount_rate terms / 100) == 0)
        by (rewrite Hr; field).
      lra. }
    split; [exact Hn |].
    rewrite final_business_value_eq, Hn. ring.
Qed.

(** C6: when the whole days left to the discount deadline are 0 or
    fewer, the urgency multiplier is 0 and so is the final business
    value, whatever the other factors are. *)
Theorem expired_discount_zero_value :
  (days_to_deadline inv terms now <= 0)%Z ->
  urgency_multiplier value = 0 /\ final_business_value value == 0.
Proof.
  intros Hd.
  assert (Hu : urgency_multiplier value = 0).
  { rewrite urgency_multiplier_eq. unfold urgency_of.
    destruct (Z.leb_spec (days_to_deadline inv terms now) 0); [reflexivity | lia]. }
  split; [exact Hu |].
  rewrite final_business_value_eq, Hu. ring.
Qed.
End BusinessValueModel.

Lemma zero_discount_zero_value_witness :
  let value :=
    calculate_enhanced_business_value empty_database (midnight 739000)
      scenario_invoice "V001" plain_terms (calculate_vrs empty_database "V001") in
  net_financial_benefit value = 0 /\ final_business_value value == 0.
Proof.
  apply (zero_discount_zero_value empty_database (midnight 739000)
           scenario_invoice "V001" plain_terms
           (calculate_vrs empty_database "V001")).
  - reflexivity.
  - vm_compute. discriminate.
  - vm_compute. discriminate.
Defined.

Lemma expired_discount_zero_value_witness :
  let value :=
    calculate_enhanced_business_value empty_database (midnight 739010 - 1)
      scenario_invoice "V001" scenario_terms (calculate_vrs empty_database "V001") in
  days_to_deadline scenario_invoice scenario_terms (midnight 739010 - 1) = 0%Z
  /\ 0 < net_financial_benefit value
  /\ urgency_multiplier value = 0
  /\ final_business_value value == 0.
Proof.
  split; [vm_compute; reflexivity |].
  split; [vm_compute; reflexivity |].
  apply (expired_discount_zero_value empty_database (midnight 739010 - 1)
           scenario_invoice "V001" scenario_terms
           (calculate_vrs empty_database "V001")).
  vm_compute. discriminate.
Defined.

(** ** Sorting *)

Section SortedReverseFacts.
Context {A : Type} (key : A -> Q).

Lemma insert_desc_perm (x : A) (l : list A) :
  Permutation (x :: l) (insert_desc key x l).
Proof.
  induction l as [| y l IH]; simpl.
  - reflexivity.
  - destruct (Qltb (key x) (key y)).
    + rewrite perm_swap. apply perm_skip. exact IH.
    + reflexivity.
Qed.

Lemma sorted_reverse_perm (l : list A) :
  Permutation l (sorted_reverse key l).
Proof.
  induction l as [| x l IH]; simpl.
  - reflexivity.
  - rewrite <- insert_desc_perm. apply perm_skip. exact IH.
Qed.

Lemma insert_desc_sorted (x : A) (l : list A) :
  StronglySorted (fun a b => key b <= key a) l ->
  StronglySorted (fun a b => key b <= key a) (insert_desc key x l).
Proof.
  induction 1 as [| y l Hs IH Hy]; simpl.
  - repeat constructor.
  - destruct (Qltb (key x) (key y)) eqn:E.
    + apply Qltb_lt in E. constructor; [exact IH |].
      apply (Permutation_Forall (insert_desc_perm x l)).
      constructor; [lra | exact Hy].
    + apply Qltb_ge in E. constructor; [constructor; assumption |].
      constructor; [exact E |].
      apply (List.Forall_impl (P := fun b => key b <= key y)); [| exact Hy].
      intros b Hb. lra.
Qed.

Lemma sorted_reverse_sorted (l : list A) :
  StronglySorted (fun a b => key b <= key a) (sorted_reverse key l).
Proof.
  induction l as [| x l IH]; simpl.
  - constructor.
  - apply insert_desc_sorted. exact IH.
Qed.

Lemma insert_desc_filter (v : Q) (x : A) (l : list A) :
  List.filter (fun a => Qeq_bool (key a) v) (insert_desc key x l)
  = List.filter (fun a => Qeq_bool (key a) v) (x :: l).
Proof.
  induction l as [| y l IH]; [reflexivity |].
  cbn [insert_desc].
  destruct (Qltb (key x) (key y)) eqn:E; [| reflexivity].
  apply Qltb_lt in E.
  cbn [List.filter] in *. rewrite IH.
  destruct (Qeq_bool (key x) v) eqn:Ex; [| reflexivity].
  destruct (Qeq_bool (key y) v) eqn:Ey; [| reflexivity].
  apply Qeq_bool_iff in Ex, Ey. lra.
Qed.

Lemma sorted_reverse_filter (v : Q) (l : list A) :
  List.filter (fun a => Qeq_bool (key a) v) (sorted_reverse key l)
  = List.filter (fun a => Qeq_bool (key a) v) l.
Proof.
  induction l as [| x l IH]; [reflexivity |].
  cbn [sorted_reverse fold_right]. rewrite insert_desc_filter.
  cbn [List.filter]. fold (sorted_reverse key l). rewrite IH. reflexivity.
Qed.

Lemma sorted_reverse_stable_descending (l : list A) :
  stable_descending key l (sorted_reverse key l).
Proof.
  split; [apply sorted_reverse_perm |].
  split; [apply sorted_reverse_sorted | intros v; apply sorted_reverse_filter].
Qed.
End SortedReverseFacts.

(** ** Allocation *)

Lemma loop_body_appends (l : list ScoredInvoice) :
  forall (i : nat) (st : LoopState),
    payment_sequence (fold_left loop_body (combine (seq i (length l)) l) st)
    = payment_sequence st ++ appended i (remaining_cash st) l.
Proof.
  induction l as [| x rest IH]; intros i st.
  - simpl. rewrite app_nil_r. reflexivity.
  - cbn [length seq combine fold_left appended]. rewrite IH.
    unfold loop_body.
    destruct (Qleb (invoice_amount (invoice x)) (remaining_cash st));
      cbn [payment_sequence remaining_cash]; rewrite <- app_assoc; reflexivity.
Qed.

Lemma allocate_appended (usable_cash : Q) (scored_invoices : list ScoredInvoice) :
  allocate usable_cash scored_invoices
  = appended 0 usable_cash (sorted_reverse bv scored_invoices).
Proof. unfold allocate, enumerate. rewrite loop_body_appends. reflexivity. Qed.

Lemma appended_length (l : list ScoredInvoice) :
  forall (i : nat) (remaining : Q), length (appended i remaining l) = length l.
Proof.
  induction l as [| x rest IH]; intros i remaining; cbn [appended]; [reflexivity |].
  destruct (Qleb _ _); cbn [length]; rewrite IH; reflexivity.
Qed.

Lemma appended_positions (l : list ScoredInvoice) :
  forall (i : nat) (remaining : Q),
    map position (appended i remaining l) = seq (S i) (length l).
Proof.
  induction l as [| x rest IH]; intros i remaining; cbn [appended]; [reflexivity |].
  destruct (Qleb _ _); cbn [map length seq]; rewrite IH;
    cbn [position scheduled_entry deferred_entry];
    replace (i + 1)%nat with (S i) by lia; reflexivity.
Qed.

Lemma appended_sources (l : list ScoredInvoice) :
  forall (i : nat) (remaining : Q),
    map entry_source (appended i remaining l) = map invoice_source l.
Proof.
  induction l as [| x rest IH]; intros i remaining; cbn [appended]; [reflexivity |].
  destruct (Qleb _ _); cbn [map]; rewrite IH; reflexivity.
Qed.

(** C10: the payment sequence has one entry for each input invoice, in
    the stable descending order of final business value, and the entry
    at rank i (counting from 1) has position i. *)
Theorem allocate_one_entry_per_invoice
    (usable_cash : Q) (scored_invoices : list ScoredInvoice) :
  let out := allocate usable_cash scored_invoices in
  length out = length scored_invoices
  /\ map position out = seq 1 (length scored_invoices)
  /\ map entry_source out = map invoice_source (sorted_reverse bv scored_invoices)
  /\ stable_descending bv scored_invoices (sorted_reverse bv scored_invoices)
  /\ Permutation (map invoice_source scored_invoices) (map entry_source out).
Proof.
  cbn zeta. rewrite allocate_appended.
  pose proof (sorted_reverse_perm bv scored_invoices) as Hp.
  rewrite appended_length, appended_positions, appended_sources.
  rewrite <- (Permutation_length Hp).
  repeat split; try reflexivity.
  - exact Hp.
  - apply sorted_reverse_sorted.
  - intros v. apply sorted_reverse_filter.
  - apply Permutation_map. exact Hp.
Qed.

Lemma scheduled_total_cons (e : PaymentSequenceEntry) (es : list PaymentSequenceEntry) :
  scheduled_total (e :: es)
  = if is_scheduled e then amount e + scheduled_total es else scheduled_total es.
Proof. reflexivity. Qed.

(** The scenario of the specification: two invoices of 100,000 and
    150,000 of usable cash; the one with the higher value is scheduled
    and the other is deferred. *)
Example two_invoices_one_scheduled :
  bv (score_without_ai empty_database (midnight 739005) invoice_b)
    < bv (score_without_ai empty_database (midnight 739005) invoice_a)
  /\ map (fun e => (position e, entry_invoice_id e, status e, payment_timing e))
         (allocate 150000 two_invoices)
     = [ (1%nat, "INV-A"%string, scheduled, OnDay 739009);
         (2%nat, "INV-B"%string, deferred, AsWritten "2024-05-01") ].
Proof. split; vm_compute; reflexivity. Qed.

(** ** Comparing modes *)

Section ModeComparerFacts.
Import ModeComparer.
Context {World Results Analysis : Type}.
Variable pipeline : string -> @M World Results.
Variable comparison : gmap string (ModeResult Results) -> @M World Analysis.

Lemma process_mode_recorded (d : gmap string (ModeResult Results))
    (mode : string) (w : World) :
  process_mode pipeline d mode w
  = (Return (<[mode := recorded (fst (pipeline mode w))]> d), snd (pipeline mode w)).
Proof.
  unfold process_mode, try_except, bind, ret.
  destruct (pipeline mode w) as [[results | e] w']; reflexivity.
Qed.

Lemma for_each_mode_calls (modes : list string) :
  forall (d : gmap string (ModeResult Results)) (w : World),
    for_each_mode pipeline modes d w
    = (Return (fold_left record (fst (calls pipeline modes w)) d),
       snd (calls pipeline modes w)).
Proof.
  induction modes as [| mode modes IH]; intros d w.
  - reflexivity.
  - cbn [for_each_mode calls]. unfold bind at 1.
    rewrite process_mode_recorded, IH.
    destruct (pipeline mode w) as [o w']. cbn [fst snd].
    destruct (calls pipeline modes w') as [rest w'']. reflexivity.
Qed.

Lemma calls_modes (modes : list string) :
  forall w : World, map fst (fst (calls pipeline modes w)) = modes.
Proof.
  induction modes as [| mode modes IH]; intros w; cbn [calls]; [reflexivity |].
  destruct (pipeline mode w) as [o w']. specialize (IH w').
  destruct (calls pipeline modes w') as [rest w'']. cbn in *. rewrite IH. reflexivity.
Qed.

Lemma record_other (trace : list (string * Outcome Results)) (mode : string) :
  forall d : gmap string (ModeResult Results),
    ~ In mode (map fst trace) ->
    fold_left record trace d !! mode = d !! mode.
Proof.
  induction trace as [| [m o] trace IH]; intros d Hn; [reflexivity |].
  cbn [fold_left]. rewrite IH.
  - unfold record. cbn [fst snd]. apply lookup_insert_ne. intros ->. apply Hn. left. reflexivity.
  - intros H. apply Hn. right. exact H.
Qed.

Lemma record_last (trace : list (string * Outcome Results)) :
  forall (d : gmap string (ModeResult Results)) (i : nat) (mode : string)
         (o : Outcome Results),
    trace !! i = Some (mode, o) ->
    ~ In mode (map fst (skipn (S i) trace)) ->
    fold_left record trace d !! mode = Some (recorded o).
Proof.
  induction trace as [| [m o'] trace IH]; intros d i mode o Hi Hn.
  - discriminate.
  - destruct i as [| i].
    + injection Hi as -> ->. cbn [fold_left].
      rewrite record_other by exact Hn.
      unfold record. cbn [fst snd]. apply lookup_insert_eq.
    + cbn [fold_left]. apply (IH _ i); assumption.
Qed.

Lemma record_keeps (trace : list (string * Outcome Results)) (mode : string) :
  forall d : gmap string (ModeResult Results),
    is_Some (d !! mode) \/ In mode (map fst trace) ->
    is_Some (fold_left record trace d !! mode).
Proof.
  induction trace as [| [m o] trace IH]; intros d H.
  - destruct H as [H | []]. exact H.
  - cbn [fold_left]. apply IH.
    destruct (decide (m = mode)) as [-> | Hne].
    + left. unfold record. cbn [fst snd]. rewrite lookup_insert_eq. eauto.
    + destruct H as [H | [H | H]].
      * left. unfold record. cbn [fst snd].
        rewrite lookup_insert_ne by exact Hne. exact H.
      * contradiction.
      * right. exact H.
Qed.

(** C8: whatever the pipeline does on each mode, the loop of
    [compare_modes] ends without an exception after running the pipeline
    once for every mode of the list, in order; a run that raised is
    recorded as failed with its error and a run that returned as a
    success (the last run of a mode name is the one kept), and the
    result of [compare_modes] carries that record whenever the final
    comparison returns. *)
Theorem compare_modes_continues_past_failure (modes : list string) (w : World) :
  let trace := fst (calls pipeline modes w) in
  exists mode_results : gmap string (ModeResult Results),
    fst (for_each_mode pipeline modes ∅ w) = Return mode_results
    /\ map fst trace = modes
    /\ (forall i mode e,
          trace !! i = Some (mode, Raise e) ->
          ~ In mode (skipn (S i) modes) ->
          mode_results !! mode = Some (Failed e))
    /\ (forall i mode results,
          trace !! i = Some (mode, Return results) ->
          ~ In mode (skipn (S i) modes) ->
          mode_results !! mode = Some (Success results))
    /\ (forall mode, In mode modes -> is_Some (mode_results !! mode))
    /\ (forall analysis w',
          comparison mode_results (snd (calls pipeline modes w))
            = (Return analysis, w') ->
          exists summary,
            fst (compare_modes pipeline comparison modes w) = Return summary
            /\ ModeComparer.mode_results summary = mode_results
            /\ modes_requested summary = length modes).
Proof.
  intros trace.
  exists (fold_left record trace ∅).
  pose proof (calls_modes modes w) as Hm. fold trace in Hm.
  assert (Hskip : forall i, map fst (skipn i trace) = skipn i modes).
  { intros i. rewrite <- Hm. symmetry. apply skipn_map. }
  split; [rewrite for_each_mode_calls; reflexivity |].
  split; [exact Hm |].
  split; [| split; [| split]].
  - intros i mode e Hi Hn.
    apply (record_last trace ∅ i mode (Raise e) Hi). rewrite Hskip. exact Hn.
  - intros i mode results Hi Hn.
    apply (record_last trace ∅ i mode (Return results) Hi). rewrite Hskip. exact Hn.
  - intros mode Hin. apply record_keeps. right. rewrite Hm. exact Hin.
  - intros analysis w' Hc.
    unfold compare_modes, bind. rewrite for_each_mode_calls. fold trace.
    rewrite Hc. eexists. split; [reflexivity |]. split; reflexivity.
Qed.
End ModeComparerFacts.

Lemma compare_modes_continues_past_failure_witness :
  exists mode_results : gmap string (ModeComparer.ModeResult nat),
    fst (ModeComparer.for_each_mode flaky_pipeline
           ["balanced"; "ipo"; "conservative"]%string ∅ 0%nat)
      = ModeComparer.Return mode_results
    /\ mode_results !! "ipo"%string
       = Some (ModeComparer.Failed "no cash constraints")
    /\ mode_results !! "conservative"%string = Some (ModeComparer.Success 2%nat).
Proof.
  destruct (compare_modes_continues_past_failure flaky_pipeline count_modes
              ["balanced"; "ipo"; "conservative"]%string 0%nat)
    as (mode_results & Hret & _ & Hfailed & Hsuccess & _).
  exists mode_results. split; [exact Hret |]. split.
  - apply (Hfailed 1%nat); [reflexivity |].
    cbn. intros [H | []]. discriminate H.
  - apply (Hsuccess 2%nat); [reflexivity |].
    cbn. intros [].
Defined.

(** * Further properties *)

(** ** The matcher and the words of a pattern *)

Lemma consumed_app (w s' : list ascii) : Re.consumed (w ++ s') s' = w.
Proof.
  unfold Re.consumed. rewrite length_app.
  replace (length w + length s' - length s')%nat with (length w) by lia.
  rewrite firstn_app, Nat.sub_diag, firstn_all. cbn. apply app_nil_r.
Qed.

Section MatcherSound.
Context {A : Type}.
Variable G : list (nat * Re.regex).

Lemma run_reaches (r : Re.regex) :
  incl (group_bodies r) G ->
  forall s g (k : list ascii -> Re.groups -> option A) res,
    captures_in G g -> Re.run r s g k = Some res -> reaches G r s g k res.
Proof.
  induction r as [c | p | r1 IH1 r2 IH2 | r1 IH1 r2 IH2 | r1 IH1 | r1 IH1 | m r1 IH1];
    intros HG s g k res Hg Hrun; cbn [Re.run] in Hrun; cbn [group_bodies] in HG.
  - destruct s as [| x s']; [discriminate |].
    destruct (Ascii.eqb_spec x c) as [-> | _]; [| discriminate].
    exists [c], s', g. repeat split; try assumption; try reflexivity.
    intros n [H | H]; [exact H | discriminate].
  - destruct s as [| x s']; [discriminate |].
    destruct (p x) eqn:Hp; [| discriminate].
    exists [x], s', g. repeat split; try assumption.
    + exists x. split; [reflexivity | exact Hp].
    + intros n [H | H]; [exact H | discriminate].
  - apply incl_app_inv in HG as [HG1 HG2].
    destruct (IH1 HG1 _ _ _ _ Hg Hrun) as (w1 & s1 & g1 & -> & Hw1 & Hg1 & Hs1 & Hk1).
    destruct (IH2 HG2 _ _ _ _ Hg1 Hk1) as (w2 & s2 & g2 & -> & Hw2 & Hg2 & Hs2 & Hk2).
    exists (w1 ++ w2), s2, g2. rewrite <- app_assoc.
    repeat split; try assumption; try reflexivity.
    + exists w1, w2. repeat split; assumption.
    + intros n Hn. apply Hs2. cbn [always_sets] in Hn.
      destruct Hn as [Hn | Hn].
      * left. apply Hs1. left. exact Hn.
      * apply orb_true_iff in Hn as [Hn | Hn]; [left; apply Hs1 | ]; auto.
  - apply incl_app_inv in HG as [HG1 HG2].
    destruct (Re.run r1 s g k) as [res1 |] eqn:E1.
    + injection Hrun as <-.
      destruct (IH1 HG1 _ _ _ _ Hg E1) as (w & s' & g' & -> & Hw & Hg' & Hs & Hk).
      exists w, s', g'. repeat split; try assumption; try reflexivity.
      * left. exact Hw.
      * intros n Hn. apply Hs. cbn [always_sets] in Hn.
        destruct Hn as [Hn | Hn]; [auto |].
        apply andb_true_iff in Hn as [Hn _]. auto.
    + destruct (IH2 HG2 _ _ _ _ Hg Hrun) as (w & s' & g' & -> & Hw & Hg' & Hs & Hk).
      exists w, s', g'. repeat split; try assumption; try reflexivity.
      * right. exact Hw.
      * intros n Hn. apply Hs. cbn [always_sets] in Hn.
        destruct Hn as [Hn | Hn]; [auto |].
        apply andb_true_iff in Hn as [_ Hn]. auto.
  - revert Hrun Hg. generalize (length s) as n. intros n. revert s g.
    induction n as [| n IHn]; intros s g Hrun Hg.
    + exists [], s, g. repeat split; try assumption; try reflexivity.
      * constructor.
      * intros m [H | H]; [exact H | discriminate].
    + match type of Hrun with
      | match ?run1 with _ => _ end = _ => destruct run1 as [res1 |] eqn:E1
      end.
      * injection Hrun as <-.
        destruct (IH1 HG _ _ _ _ Hg E1) as (w1 & s1 & g1 & -> & Hw1 & Hg1 & Hs1 & Hk1).
        destruct (Nat.ltb (length s1) (length (w1 ++ s1))); [| discriminate].
        destruct (IHn _ _ Hk1 Hg1) as (w2 & s2 & g2 & -> & Hw2 & Hg2 & Hs2 & Hk2).
        exists (w1 ++ w2), s2, g2. rewrite <- app_assoc.
        repeat split; try assumption; try reflexivity.
        -- cbn [lang] in *. constructor; assumption.
        -- intros m [Hm | Hm]; [| discriminate].
           apply Hs2. left. apply Hs1. left. exact Hm.
      * exists [], s, g. repeat split; try assumption; try reflexivity.
        -- constructor.
        -- intros m [H | H]; [exact H | discriminate].
  - destruct (Re.run r1 s g k) as [res1 |] eqn:E1.
    + injection Hrun as <-.
      destruct (IH1 HG _ _ _ _ Hg E1) as (w & s' & g' & -> & Hw & Hg' & Hs & Hk).
      exists w, s', g'. repeat split; try assumption; try reflexivity.
      * right. exact Hw.
      * intros n [Hn | Hn]; [| discriminate]. apply Hs. left. exact Hn.
    + exists [], s, g. repeat split; try assumption; try reflexivity.
      * left. reflexivity.
      * intros n [H | H]; [exact H | discriminate].
  - assert (HG1 : incl (group_bodies r1) G)
      by (intros x Hx; apply HG; right; exact Hx).
    destruct (IH1 HG1 _ _ _ _ Hg Hrun) as (w & s' & g' & -> & Hw & Hg' & Hs & Hk).
    rewrite consumed_app in Hk.
    exists w, s', (Re.set_group m w g'). repeat split; try assumption; try reflexivity.
    + intros n v Hv. unfold Re.set_group in Hv.
      destruct (Nat.eqb_spec n m) as [-> | _].
      * injection Hv as <-. exists r1. split; [apply HG; left; reflexivity | exact Hw].
      * apply Hg'. exact Hv.
    + intros n Hn. unfold Re.set_group.
      destruct (Nat.eqb_spec n m) as [-> | Hne]; [eauto |].
      apply Hs. cbn [always_sets] in Hn. destruct Hn as [Hn | Hn]; [auto |].
      apply orb_true_iff in Hn as [Hn | Hn]; [| auto].
      apply Nat.eqb_eq in Hn. contradiction.
Qed.
End MatcherSound.

Lemma no_groups_captures (G : list (nat * Re.regex)) : captures_in G Re.no_groups.
Proof. intros n w H. discriminate. Qed.

Lemma search_captures (r : Re.regex) (s : list ascii) (g : Re.groups) :
  Re.search r s = Some g ->
  captures_in (group_bodies r) g
  /\ (forall n, always_sets r n = true -> is_Some (g n)).
Proof.
  induction s as [| x s IH]; cbn [Re.search]; intros H;
    destruct (Re.run r _ Re.no_groups (fun _ g0 => Some g0)) as [g1 |] eqn:E;
    try discriminate; try (apply IH; exact H).
  all: injection H as ->.
  all: destruct (run_reaches (group_bodies r) r (incl_refl _) _ _ _ _
                   (no_groups_captures _) E)
         as (w & s' & g' & _ & _ & Hg' & Hs & Hk).
  all: injection Hk as ->; split; [exact Hg' | intros n Hn; apply Hs; auto].
Qed.

(** ** Numerals *)

Lemma star_digits (w : list ascii) :
  star (lang (Re.Cls Re.digit)) w -> all_digits w = true.
Proof.
  induction 1 as [| w1 w2 (c & -> & Hc) _ IH]; [reflexivity |].
  cbn. unfold all_digits in IH. rewrite Hc, IH. reflexivity.
Qed.

Lemma plus_digits (w : list ascii) :
  lang (Re.Plus (Re.Cls Re.digit)) w -> w <> [] /\ all_digits w = true.
Proof.
  intros (w1 & w2 & -> & (c & -> & Hc) & Hs). split; [discriminate |].
  apply star_digits in Hs. cbn. unfold all_digits in Hs. rewrite Hc, Hs. reflexivity.
Qed.

Lemma rate_body_numeral (w : list ascii) :
  lang (Re.Cat (Re.Plus (Re.Cls Re.digit))
               (Re.Opt (Re.Cat (Re.Lit ".") (Re.Plus (Re.Cls Re.digit))))) w ->
  is_numeral w.
Proof.
  intros (i & rest & -> & Hi & Hrest). apply plus_digits in Hi as [Hi1 Hi2].
  destruct Hrest as [-> | (d & f & -> & -> & Hf)].
  - exists i, []. rewrite app_nil_r. repeat split; auto.
  - apply plus_digits in Hf as [Hf1 Hf2].
    exists i, f. repeat split; auto.
Qed.

Lemma digit_val_nonneg (c : ascii) : Re.digit c = true -> (0 <= digit_val c <= 9)%Z.
Proof.
  unfold Re.digit, Re.code, digit_val. intros H.
  apply andb_true_iff in H as [H1 H2].
  apply N.leb_le in H1, H2. lia.
Qed.

Lemma int_of_digits_nonneg (w : list ascii) :
  all_digits w = true -> (0 <= int_of_digits w)%Z.
Proof.
  unfold int_of_digits.
  assert (H : forall acc, (0 <= acc)%Z -> all_digits w = true ->
              (0 <= fold_left (fun a c => 10 * a + digit_val c) w acc)%Z).
  { induction w as [| c w IH]; intros acc Hacc Hw; [exact Hacc |].
    cbn in Hw. apply andb_true_iff in Hw as [Hc Hw].
    cbn [fold_left]. apply IH; [| exact Hw].
    pose proof (digit_val_nonneg c Hc). lia. }
  intros Hw. apply H; [lia | exact Hw].
Qed.

Lemma digit_not_dot (c : ascii) : Re.digit c = true -> Ascii.eqb c "."%char = false.
Proof.
  intros H. destruct (Ascii.eqb_spec c "."%char) as [-> | _]; [| reflexivity].
  discriminate H.
Qed.

Lemma split_dot_digits (i rest : list ascii) :
  all_digits i = true ->
  split_dot (i ++ rest) = (i ++ fst (split_dot rest), snd (split_dot rest)).
Proof.
  induction i as [| c i IH]; intros Hi.
  - cbn. destruct (split_dot rest). reflexivity.
  - cbn in Hi. apply andb_true_iff in Hi as [Hc Hi].
    cbn [app split_dot]. rewrite (digit_not_dot c Hc), (IH Hi). reflexivity.
Qed.

Lemma float_of_decimal_numeral (w : list ascii) :
  is_numeral w -> 0 <= float_of_decimal w.
Proof.
  intros (i & f & _ & Hi & Hf & [-> | [_ ->]]); unfold float_of_decimal.
  - rewrite <- (app_nil_r i) at 1. rewrite (split_dot_digits i [] Hi). cbn [split_dot fst snd].
    rewrite !app_nil_r. unfold Qle. cbn. pose proof (int_of_digits_nonneg i Hi). lia.
  - rewrite (split_dot_digits i _ Hi). cbn [split_dot fst snd].
    rewrite Ascii.eqb_refl. cbn [fst snd]. rewrite app_nil_r.
    assert (H : all_digits (i ++ f) = true)
      by (unfold all_digits in *; rewrite forallb_app, Hi, Hf; reflexivity).
    unfold Qle. cbn. pose proof (int_of_digits_nonneg _ H). lia.
Qed.

(** ** What the two patterns capture *)

Lemma discount_match_groups (s : list ascii) (g : Re.groups) :
  Re.search AIIntegrator.discount_pattern s = Some g ->
  exists w1 w2,
    g 1%nat = Some w1 /\ g 2%nat = Some w2
    /\ is_numeral w1 /\ w2 <> [] /\ all_digits w2 = true.
Proof.
  intros H. apply search_captures in H as [Hc Hs].
  destruct (Hs 1%nat eq_refl) as [w1 H1]. destruct (Hs 2%nat eq_refl) as [w2 H2].
  exists w1, w2. split; [exact H1 |]. split; [exact H2 |].
  destruct (Hc _ _ H1) as (b1 & Hin1 & Hl1). destruct (Hc _ _ H2) as (b2 & Hin2 & Hl2).
  cbn in Hin1, Hin2.
  destruct Hin1 as [E | [E | []]]; [| discriminate E].
  destruct Hin2 as [E' | [E' | []]]; [discriminate E' |].
  injection E as <-. injection E' as <-.
  split; [apply rate_body_numeral; exact Hl1 | apply plus_digits; exact Hl2].
Qed.

Lemma search_alt_cases (r1 r2 : Re.regex) (s : list ascii) (g : Re.groups) :
  Re.search (Re.Alt r1 r2) s = Some g ->
  exists s',
    Re.run r1 s' Re.no_groups (fun _ g0 => Some g0) = Some g
    \/ Re.run r2 s' Re.no_groups (fun _ g0 => Some g0) = Some g.
Proof.
  induction s as [| x s IH]; cbn [Re.search Re.run]; intros H.
  - exists []. destruct (Re.run r1 _ _ _); [left | ].
    + exact H.
    + destruct (Re.run r2 _ _ _); [right; exact H | discriminate].
  - destruct (Re.run r1 (x :: s) _ _) eqn:E1; [exists (x :: s); left; congruence |].
    destruct (Re.run r2 (x :: s) _ _) eqn:E2; [exists (x :: s); right; congruence |].
    apply IH. exact H.
Qed.

Lemma net_match_digits (s : list ascii) (g : Re.groups) :
  Re.search AIIntegrator.net_pattern s = Some g ->
  AIIntegrator.or_group (g 1%nat) (g 2%nat) <> []
  /\ all_digits (AIIntegrator.or_group (g 1%nat) (g 2%nat)) = true.
Proof.
  intros H. apply search_alt_cases in H as [s' H].
  set (G := group_bodies AIIntegrator.net_pattern).
  assert (Hbody : forall n w, captures_in G g -> g n = Some w ->
                              w <> [] /\ all_digits w = true).
  { intros n w Hc Hn. destruct (Hc _ _ Hn) as (b & Hin & Hl). cbn in Hin.
    destruct Hin as [E | [E | []]]; injection E as _ <-; apply plus_digits; exact Hl. }
  destruct H as [H | H];
    match type of H with
    | Re.run ?r _ _ _ = _ =>
        assert (Hincl : incl (group_bodies r) G)
          by (cbn; intros x [<- | []]; cbn; auto);
        destruct (run_reaches G r Hincl _ _ _ _ (no_groups_captures G) H)
          as (w & s'' & g' & _ & _ & Hc & Hs & Hk)
    end;
    injection Hk as ->; unfold AIIntegrator.or_group, get_field.
  - destruct (Hs 1%nat (or_intror eq_refl)) as [w1 H1]. rewrite H1.
    destruct (Hbody _ _ Hc H1) as [Hne Hd].
    destruct w1 as [| c w1]; [contradiction |]. split; [discriminate | exact Hd].
  - destruct (Hs 2%nat (or_intror eq_refl)) as [w2 H2].
    destruct (Hbody _ _ Hc H2) as [Hne2 Hd2].
    destruct (g 1%nat) as [[| c w1] |] eqn:H1.
    + destruct (Hbody _ _ Hc H1) as [Hne _]. contradiction.
    + destruct (Hbody _ _ Hc H1) as [_ Hd]. split; [discriminate | exact Hd].
    + rewrite H2. cbn. split; assumption.
Qed.

Lemma fallback_parse_signs (raw_terms : string) :
  let terms := AIIntegrator._fallback_payment_terms_parse raw_terms in
  0 <= discount_rate terms
  /\ (0 <= discount_days terms)%Z
  /\ (0 <= net_days terms)%Z
  /\ late_fee_rate terms = 0
  /\ confidence terms = 7 # 10
  /\ (0 < discount_rate terms /\ payment_type terms = "early_discount"%string
      \/ discount_rate terms == 0 /\ payment_type terms = "net_term"%string).
Proof.
  cbn zeta. unfold AIIntegrator._fallback_payment_terms_parse.
  cbn [discount_rate discount_days net_days late_fee_rate confidence payment_type].
  assert (Hr : 0 <= AIIntegrator.parse_discount_rate (lower raw_terms)).
  { unfold AIIntegrator.parse_discount_rate.
    destruct (Re.search AIIntegrator.discount_pattern _) as [g |] eqn:E; [| lra].
    apply float_of_decimal_numeral.
    apply discount_match_groups in E as (w1 & w2 & H1 & _ & Hn & _).
    unfold AIIntegrator.group, get_field. rewrite H1. exact Hn. }
  split; [exact Hr |]. split; [| split; [| split; [reflexivity | split; [reflexivity |]]]].
  - unfold AIIntegrator.parse_discount_days.
    destruct (Re.search AIIntegrator.discount_pattern _) as [g |] eqn:E; [| lia].
    apply int_of_digits_nonneg.
    apply discount_match_groups in E as (w1 & w2 & _ & H2 & _ & _ & Hd).
    unfold AIIntegrator.group, get_field. rewrite H2. exact Hd.
  - unfold AIIntegrator.parse_net_days.
    destruct (Re.search AIIntegrator.net_pattern _) as [g |] eqn:E; [| lia].
    apply int_of_digits_nonneg. apply (net_match_digits _ _ E).
  - destruct (Qltb 0 (AIIntegrator.parse_discount_rate (lower raw_terms))) eqn:E.
    + left. apply Qltb_lt in E. split; [exact E | reflexivity].
    + right. apply Qltb_ge in E. split; [lra | reflexivity].
Qed.

Lemma search_matches_infix (r : Re.regex) (s : list ascii) (g : Re.groups) :
  Re.search r s = Some g ->
  exists pre w post, s = pre ++ w ++ post /\ lang r w.
Proof.
  induction s as [| x s IH]; cbn [Re.search]; intros H;
    destruct (Re.run r _ Re.no_groups (fun _ g0 => Some g0)) as [g1 |] eqn:E;
    try discriminate.
  1, 2: destruct (run_reaches (group_bodies r) r (incl_refl _) _ _ _ _
                    (no_groups_captures _) E)
          as (w & s' & g' & Hs & Hw & _).
  - exists [], w, s'. split; [exact Hs | exact Hw].
  - exists [], w, s'. split; [exact Hs | exact Hw].
  - destruct (IH H) as (pre & w & post & -> & Hw).
    exists (x :: pre), w, post. split; [reflexivity | exact Hw].
Qed.

Lemma plus_digit_has_digit (w : list ascii) :
  lang (Re.Plus (Re.Cls Re.digit)) w -> existsb Re.digit w = true.
Proof.
  intros (w1 & w2 & -> & (c & -> & Hc) & _). cbn. rewrite Hc. reflexivity.
Qed.

Lemma discount_word_has_digit (w : list ascii) :
  lang AIIntegrator.discount_pattern w -> existsb Re.digit w = true.
Proof.
  intros (w1 & w2 & -> & (i & f & -> & Hi & _) & _).
  rewrite !existsb_app, (plus_digit_has_digit i Hi). reflexivity.
Qed.

Lemma net_word_has_digit (w : list ascii) :
  lang AIIntegrator.net_pattern w -> existsb Re.digit w = true.
Proof.
  intros [(w1 & w2 & -> & _ & (w3 & w4 & -> & _ & H)) | (w1 & w2 & -> & H & _)];
    rewrite !existsb_app, (plus_digit_has_digit _ H), ?orb_true_r; reflexivity.
Qed.

Lemma no_digit_no_match (r : Re.regex) (s : list ascii) :
  (forall w, lang r w -> existsb Re.digit w = true) ->
  existsb Re.digit s = false -> Re.search r s = None.
Proof.
  intros Hr Hs. destruct (Re.search r s) as [g |] eqn:E; [| reflexivity].
  apply search_matches_infix in E as (pre & w & post & -> & Hw).
  rewrite !existsb_app, (Hr w Hw), orb_true_r in Hs. discriminate Hs.
Qed.

Lemma lower_char_digit (c : ascii) : Re.digit (lower_char c) = Re.digit c.
Proof. destruct c as [[] [] [] [] [] [] [] []]; reflexivity. Qed.

Lemma lower_digits (raw : string) :
  existsb Re.digit (lower raw) = existsb Re.digit (list_ascii_of_string raw).
Proof.
  unfold lower. induction (list_ascii_of_string raw) as [| c l IH]; [reflexivity |].
  cbn [map existsb]. rewrite lower_char_digit, IH. reflexivity.
Qed.

(** X3: a text without any digit, such as "due on receipt", gets the
    defaults: no discount, 0 discount days, net 30 days, "net_term". *)
Theorem fallback_parse_without_digits (raw_terms : string) :
  existsb Re.digit (list_ascii_of_string raw_terms) = false ->
  AIIntegrator._fallback_payment_terms_parse raw_terms
  = {| payment_type := "net_term";
       discount_rate := 0;
       discount_days := 0;
       net_days := 30;
       late_fee_rate := 0;
       confidence := 7 # 10 |}.
Proof.
  intros H. rewrite <- lower_digits in H.
  unfold AIIntegrator._fallback_payment_terms_parse,
    AIIntegrator.parse_discount_rate, AIIntegrator.parse_discount_days,
    AIIntegrator.parse_net_days.
  rewrite (no_digit_no_match _ _ discount_word_has_digit H).
  rewrite (no_digit_no_match _ _ net_word_has_digit H).
  reflexivity.
Qed.

Lemma fallback_parse_without_digits_witness :
  AIIntegrator._fallback_payment_terms_parse "Due on receipt"
  = {| payment_type := "net_term";
       discount_rate := 0;
       discount_days := 0;
       net_days := 30;
       late_fee_rate := 0;
       confidence := 7 # 10 |}.
Proof. apply (fallback_parse_without_digits "Due on receipt"). reflexivity. Defined.

(** ** Greedy repetition of a character class *)

Section GreedyClass.
Context {A : Type}.
Variable p : ascii -> bool.

Lemma run_star_iter (r1 : Re.regex) (s : list ascii) (g : Re.groups)
    (k : list ascii -> Re.groups -> option A) :
  Re.run (Re.Star r1) s g k = star_iter r1 k (length s) s g.
Proof. reflexivity. Qed.

Lemma star_iter_stops (k : list ascii -> Re.groups -> option A)
    (n : nat) (s : list ascii) (g : Re.groups) :
  stops p s = true -> star_iter (Re.Cls p) k n s g = k s g.
Proof.
  intros Hs. destruct n as [| n]; [reflexivity |].
  destruct s as [| c s]; [reflexivity |].
  cbn in Hs. apply negb_true_iff in Hs. cbn. rewrite Hs. reflexivity.
Qed.

Lemma star_iter_step (k : list ascii -> Re.groups -> option A)
    (n : nat) (c : ascii) (s : list ascii) (g : Re.groups) :
  p c = true ->
  star_iter (Re.Cls p) k (S n) (c :: s) g
  = match star_iter (Re.Cls p) k n s g with
    | Some res => Some res
    | None => k (c :: s) g
    end.
Proof.
  intros Hc. cbn [star_iter Re.run]. rewrite Hc.
  replace (Nat.ltb (length s) (length (c :: s))) with true; [reflexivity |].
  symmetry. apply Nat.ltb_lt. cbn. lia.
Qed.

Lemma star_iter_greedy (k : list ascii -> Re.groups -> option A)
    (w rest : list ascii) (g : Re.groups) (res : A) :
  forallb p w = true -> stops p rest = true -> k rest g = Some res ->
  forall n, (length w <= n)%nat ->
    star_iter (Re.Cls p) k n (w ++ rest) g = Some res.
Proof.
  intros Hw Hrest Hk. induction w as [| c w IH]; intros n Hn.
  - rewrite star_iter_stops by exact Hrest. exact Hk.
  - cbn in Hw. apply andb_true_iff in Hw as [Hc Hw].
    destruct n as [| n]; [cbn in Hn; lia |].
    cbn [app]. rewrite star_iter_step by exact Hc.
    rewrite IH; [reflexivity | exact Hw | cbn in Hn; lia].
Qed.

Lemma star_iter_none (k : list ascii -> Re.groups -> option A)
    (w rest : list ascii) (g : Re.groups) :
  forallb p w = true -> stops p rest = true ->
  (forall w1 w2, w = w1 ++ w2 -> k (w2 ++ rest) g = None) ->
  forall n, star_iter (Re.Cls p) k n (w ++ rest) g = None.
Proof.
  intros Hw Hrest. induction w as [| c w IH]; intros Hk n.
  - rewrite star_iter_stops by exact Hrest. apply (Hk [] []). reflexivity.
  - cbn in Hw. apply andb_true_iff in Hw as [Hc Hw].
    destruct n as [| n]; [apply (Hk [] (c :: w)); reflexivity |].
    cbn [app]. rewrite star_iter_step by exact Hc.
    rewrite IH; [apply (Hk [] (c :: w)); reflexivity | exact Hw |].
    intros w1 w2 ->. apply (Hk (c :: w1) w2). reflexivity.
Qed.

(** [p+] on a block of [p]-characters followed by a text that stops. *)
Lemma run_plus_greedy (k : list ascii -> Re.groups -> option A)
    (w rest : list ascii) (g : Re.groups) (res : A) :
  w <> [] -> forallb p w = true -> stops p rest = true ->
  k rest g = Some res ->
  Re.run (Re.Plus (Re.Cls p)) (w ++ rest) g k = Some res.
Proof.
  intros Hne Hw Hrest Hk. destruct w as [| c w]; [contradiction |].
  cbn in Hw. apply andb_true_iff in Hw as [Hc Hw].
  unfold Re.Plus. cbn [Re.run app]. rewrite Hc.
  change ((fix iter (n : nat) (s : list ascii) (g0 : Re.groups) {struct n} :=
             match n with
             | O => k s g0
             | S n' =>
                 match Re.run (Re.Cls p) s g0 (fun s' g' =>
                          if Nat.ltb (length s') (length s)
                          then iter n' s' g' else None) with
                 | Some res0 => Some res0
                 | None => k s g0
                 end
             end) (length (w ++ rest)) (w ++ rest) g)
    with (star_iter (Re.Cls p) k (length (w ++ rest)) (w ++ rest) g).
  apply star_iter_greedy; try assumption. rewrite length_app. lia.
Qed.

Lemma run_plus_none (k : list ascii -> Re.groups -> option A)
    (w rest : list ascii) (g : Re.groups) :
  forallb p w = true -> stops p rest = true ->
  (forall w1 w2, w = w1 ++ w2 -> w1 <> [] -> k (w2 ++ rest) g = None) ->
  Re.run (Re.Plus (Re.Cls p)) (w ++ rest) g k = None.
Proof.
  intros Hw Hrest Hk. destruct w as [| c w].
  - unfold Re.Plus. cbn [Re.run app]. destruct rest as [| c rest]; [reflexivity |].
    cbn in Hrest. apply negb_true_iff in Hrest. rewrite Hrest. reflexivity.
  - cbn in Hw. apply andb_true_iff in Hw as [Hc Hw].
    unfold Re.Plus. cbn [Re.run app]. rewrite Hc.
    change (star_iter (Re.Cls p) k (length (w ++ rest)) (w ++ rest) g = None).
    apply star_iter_none; try assumption.
    intros w1 w2 ->. apply (Hk (c :: w1) w2); [reflexivity | discriminate].
Qed.

Lemma run_star_stops (k : list ascii -> Re.groups -> option A)
    (s : list ascii) (g : Re.groups) :
  stops p s = true -> Re.run (Re.Star (Re.Cls p)) s g k = k s g.
Proof. intros H. rewrite run_star_iter. apply star_iter_stops. exact H. Qed.
End GreedyClass.

(** ** The standard text [<rate>/<days> net <days>] *)

Lemma search_here (r : Re.regex) (s : list ascii) (g : Re.groups) :
  Re.run r s Re.no_groups (fun _ g0 => Some g0) = Some g ->
  Re.search r s = Some g.
Proof. intros H. destruct s; cbn [Re.search]; rewrite H; reflexivity. Qed.

Lemma search_skip (r : Re.regex) (pre s : list ascii) :
  (forall pre1 pre2, pre = pre1 ++ pre2 -> pre2 <> [] ->
     Re.run r (pre2 ++ s) Re.no_groups (fun _ g0 => Some g0) = None) ->
  Re.search r (pre ++ s) = Re.search r s.
Proof.
  induction pre as [| c pre IH]; intros H; [reflexivity |].
  assert (E : Re.run r (c :: pre ++ s) Re.no_groups (fun _ g0 => Some g0) = None)
    by (apply (H [] (c :: pre) eq_refl); discriminate).
  cbn [app Re.search]. rewrite E.
  apply IH. intros pre1 pre2 -> Hne. apply (H (c :: pre1) pre2 eq_refl Hne).
Qed.

Lemma digit_facts (c : ascii) :
  Re.digit c = true ->
  Re.space c = false
  /\ Re.one_of "/within" c = false
  /\ lower_char c = c
  /\ Ascii.eqb c "n"%char = false
  /\ Ascii.eqb c "d"%char = false.
Proof. destruct c as [[] [] [] [] [] [] [] []]; intros H; try discriminate H; repeat split. Qed.

Lemma plain_facts (c : ascii) :
  plain c = true ->
  lower_char c = c /\ Ascii.eqb c "n"%char = false /\ Ascii.eqb c "d"%char = false.
Proof. destruct c as [[] [] [] [] [] [] [] []]; intros H; try discriminate H; repeat split. Qed.

Lemma digits_plain (w : list ascii) : all_digits w = true -> forallb plain w = true.
Proof.
  induction w as [| c w IH]; [reflexivity |]. cbn. intros H.
  apply andb_true_iff in H as [Hc Hw]. unfold plain at 1. rewrite Hc, (IH Hw). reflexivity.
Qed.

Lemma numeral_plain (w : list ascii) : is_numeral w -> forallb plain w = true.
Proof.
  intros (i & f & _ & Hi & Hf & [-> | [_ ->]]).
  - apply digits_plain. exact Hi.
  - rewrite forallb_app. cbn. rewrite (digits_plain i Hi), (digits_plain f Hf). reflexivity.
Qed.

Lemma lower_plain (w : list ascii) : forallb plain w = true -> map lower_char w = w.
Proof.
  induction w as [| c w IH]; [reflexivity |]. cbn. intros H.
  apply andb_true_iff in H as [Hc Hw].
  destruct (plain_facts c Hc) as [-> _]. rewrite (IH Hw). reflexivity.
Qed.

Lemma net_word_shape (w : list ascii) :
  lang AIIntegrator.net_pattern w ->
  (exists t, w = "n"%char :: t) \/ existsb (Ascii.eqb "d"%char) w = true.
Proof.
  intros [(w1 & w2 & -> & Hnet & _) | (w1 & w2 & -> & _ & H)].
  - left. destruct Hnet as (a & b & -> & -> & _). eexists. reflexivity.
  - right. destruct H as (w3 & w4 & -> & _ & (w5 & w6 & -> & Hday & _)).
    destruct Hday as (a & b & -> & -> & _).
    rewrite !existsb_app. cbn. rewrite !orb_true_r. reflexivity.
Qed.

Lemma net_run_none (s : list ascii) :
  match s with "n"%char :: _ => False | _ => True end ->
  existsb (Ascii.eqb "d"%char) s = false ->
  Re.run AIIntegrator.net_pattern s Re.no_groups (fun _ g0 => Some g0) = None.
Proof.
  intros Hn Hd.
  destruct (Re.run AIIntegrator.net_pattern s Re.no_groups _) as [g |] eqn:E;
    [| reflexivity].
  destruct (run_reaches (group_bodies AIIntegrator.net_pattern) _ (incl_refl _)
              _ _ _ _ (no_groups_captures _) E)
    as (w & s' & g' & -> & Hw & _).
  apply net_word_shape in Hw as [[t ->] | Hw].
  - contradiction.
  - rewrite existsb_app, Hw in Hd. discriminate Hd.
Qed.

Section RunSteps.
Context {A : Type}.
Implicit Types (k : list ascii -> Re.groups -> option A) (g : Re.groups).

Lemma run_cat (a b : Re.regex) s g k :
  Re.run (Re.Cat a b) s g k = Re.run a s g (fun s' g' => Re.run b s' g' k).
Proof. reflexivity. Qed.

Lemma run_grp (n : nat) (a : Re.regex) s g k :
  Re.run (Re.Grp n a) s g k
  = Re.run a s g (fun s' g' => k s' (Re.set_group n (Re.consumed s s') g')).
Proof. reflexivity. Qed.

Lemma run_lit_match (c : ascii) s g k :
  Re.run (Re.Lit c) (c :: s) g k = k s g.
Proof. cbn [Re.run]. rewrite Ascii.eqb_refl. reflexivity. Qed.

Lemma run_cls_match (p : ascii -> bool) (c : ascii) s g k :
  p c = true -> Re.run (Re.Cls p) (c :: s) g k = k s g.
Proof. intros H. cbn [Re.run]. rewrite H. reflexivity. Qed.

Lemma run_lit_mismatch (c x : ascii) s g k :
  Ascii.eqb x c = false -> Re.run (Re.Lit c) (x :: s) g k = None.
Proof. intros H. cbn [Re.run]. rewrite H. reflexivity. Qed.

Lemma run_opt_fail (r : Re.regex) s g k :
  Re.run r s g k = None -> Re.run (Re.Opt r) s g k = k s g.
Proof. intros H. cbn [Re.run]. rewrite H. reflexivity. Qed.

Lemma run_opt_lit_skip (c x : ascii) s g k :
  Ascii.eqb x c = false -> Re.run (Re.Opt (Re.Lit c)) (x :: s) g k = k (x :: s) g.
Proof. intros H. cbn [Re.run]. rewrite H. reflexivity. Qed.

Lemma run_alt_left (a b : Re.regex) s g k (res : A) :
  Re.run a s g k = Some res -> Re.run (Re.Alt a b) s g k = Some res.
Proof. intros H. cbn [Re.run]. rewrite H. reflexivity. Qed.

Lemma run_rate_body (rate t : list ascii) g k (res : A) :
  is_numeral rate ->
  k ("/"%char :: t) g = Some res ->
  Re.run (Re.Cat (Re.Plus (Re.Cls Re.digit))
                 (Re.Opt (Re.Cat (Re.Lit ".") (Re.Plus (Re.Cls Re.digit)))))
         (rate ++ "/"%char :: t) g k = Some res.
Proof.
  intros (i & f & Hne & Hi & Hf & [-> | [Hfne ->]]) Hk; rewrite run_cat.
  - apply run_plus_greedy; [exact Hne | exact Hi | reflexivity |].
    cbn [Re.run]. cbn. exact Hk.
  - rewrite <- app_assoc. apply run_plus_greedy; [exact Hne | exact Hi | reflexivity |].
    cbn [app].
    assert (E : Re.run (Re.Cat (Re.Lit ".") (Re.Plus (Re.Cls Re.digit)))
                       ("."%char :: f ++ "/"%char :: t) g k = Some res).
    { rewrite run_cat, run_lit_match.
      apply run_plus_greedy; [exact Hfne | exact Hf | reflexivity | exact Hk]. }
    cbn [Re.run] in E |- *. rewrite E. reflexivity.
Qed.
End RunSteps.

Lemma consumed_all (w : list ascii) : Re.consumed w [] = w.
Proof. unfold Re.consumed. cbn [length]. rewrite Nat.sub_0_r. apply firstn_all. Qed.

Lemma discount_run_standard (rate d tail : list ascii) :
  is_numeral rate -> d <> [] -> all_digits d = true -> stops Re.digit tail = true ->
  Re.run AIIntegrator.discount_pattern (rate ++ "/"%char :: d ++ tail)
         Re.no_groups (fun _ g0 => Some g0)
  = Some (Re.set_group 2 d (Re.set_group 1 rate Re.no_groups)).
Proof.
  intros Hrate Hne Hd Htail. unfold AIIntegrator.discount_pattern.
  rewrite run_cat, run_grp. apply run_rate_body; [exact Hrate |].
  rewrite consumed_app.
  destruct d as [| c d']; [contradiction |].
  assert (Hc : Re.digit c = true) by (cbn in Hd; apply andb_true_iff in Hd; tauto).
  destruct (digit_facts c Hc) as (Hsp & Hcls & _).
  rewrite run_cat, run_opt_lit_skip by reflexivity.
  rewrite run_cat, run_star_stops by reflexivity.
  rewrite run_cat, run_star_iter.
  apply (star_iter_greedy _ _ ["/"%char] ((c :: d') ++ tail)).
  - reflexivity.
  - cbn [app stops]. rewrite Hcls. reflexivity.
  - rewrite run_cat, run_star_stops by (cbn [app stops]; rewrite Hsp; reflexivity).
    rewrite run_grp. apply run_plus_greedy; [discriminate | exact Hd | exact Htail |].
    rewrite consumed_app. reflexivity.
  - cbn. lia.
Qed.

Lemma net_run_standard (n : list ascii) :
  n <> [] -> all_digits n = true ->
  Re.run AIIntegrator.net_pattern (list_ascii_of_string "net " ++ n)
         Re.no_groups (fun _ g0 => Some g0)
  = Some (Re.set_group 1 n Re.no_groups).
Proof.
  intros Hne Hd. unfold AIIntegrator.net_pattern. apply run_alt_left.
  change (Re.Word (list_ascii_of_string "net"))
    with (Re.Cat (Re.Lit "n") (Re.Cat (Re.Lit "e") (Re.Lit "t"))).
  cbn [list_ascii_of_string app].
  repeat (first [rewrite run_cat | rewrite run_lit_match]; cbv beta).
  destruct n as [| c n']; [contradiction |].
  assert (Hc : Re.digit c = true) by (cbn in Hd; apply andb_true_iff in Hd; tauto).
  destruct (digit_facts c Hc) as (Hsp & _).
  rewrite run_star_iter.
  apply (star_iter_greedy _ _ [" "%char] (c :: n')).
  - reflexivity.
  - cbn [stops]. rewrite Hsp. reflexivity.
  - rewrite run_grp.
    pose proof (run_plus_greedy Re.digit
                  (fun s' g' => Some (Re.set_group 1 (Re.consumed (c :: n') s') g'))
                  (c :: n') [] Re.no_groups (Re.set_group 1 (c :: n') Re.no_groups))
      as E.
    rewrite app_nil_r in E. apply E; [discriminate | exact Hd | reflexivity |].
    rewrite consumed_all. reflexivity.
  - cbn. lia.
Qed.

Lemma plain_no_d (w : list ascii) :
  forallb plain w = true -> existsb (Ascii.eqb "d"%char) w = false.
Proof.
  induction w as [| c w IH]; [reflexivity |]. cbn [forallb existsb]. intros H.
  apply andb_true_iff in H as [Hc Hw].
  destruct (plain_facts c Hc) as (_ & _ & Hd).
  rewrite Ascii.eqb_sym, Hd, (IH Hw). reflexivity.
Qed.

Lemma standard_terms_lower (rate d n : list ascii) :
  is_numeral rate -> all_digits d = true -> all_digits n = true ->
  lower (standard_terms rate d n)
  = rate ++ "/"%char :: d ++ list_ascii_of_string " net " ++ n.
Proof.
  intros Hr Hd Hn. unfold lower, standard_terms.
  rewrite list_ascii_of_string_of_list_ascii.
  rewrite map_app. cbn [map]. rewrite !map_app.
  rewrite (lower_plain rate (numeral_plain rate Hr)).
  rewrite (lower_plain d (digits_plain d Hd)), (lower_plain n (digits_plain n Hn)).
  reflexivity.
Qed.

Lemma standard_terms_net_search (rate d n : list ascii) :
  is_numeral rate -> all_digits d = true -> n <> [] -> all_digits n = true ->
  Re.search AIIntegrator.net_pattern
    (rate ++ "/"%char :: d ++ list_ascii_of_string " net " ++ n)
  = Some (Re.set_group 1 n Re.no_groups).
Proof.
  intros Hr Hd Hne Hn.
  set (pre := rate ++ "/"%char :: d ++ [" "%char]).
  assert (Hpre : forallb plain pre = true).
  { unfold pre. rewrite forallb_app. cbn [forallb]. rewrite forallb_app.
    rewrite (numeral_plain rate Hr), (digits_plain d Hd). reflexivity. }
  replace (rate ++ "/"%char :: d ++ list_ascii_of_string " net " ++ n)
    with (pre ++ (list_ascii_of_string "net " ++ n))
    by (unfold pre; rewrite <- !app_assoc; cbn; rewrite <- app_assoc; reflexivity).
  rewrite search_skip.
  - apply search_here, net_run_standard; assumption.
  - intros pre1 pre2 E Hne2. rewrite E, forallb_app in Hpre.
    apply andb_true_iff in Hpre as [_ Hp2].
    apply net_run_none.
    + destruct pre2 as [| c pre2]; [contradiction |].
      cbn [forallb] in Hp2. apply andb_true_iff in Hp2 as [Hc _].
      destruct (plain_facts c Hc) as (_ & Hnn & _).
      cbn [app]. destruct (Ascii.eqb_spec c "n"%char) as [-> | Hc']; [discriminate |].
      destruct c as [[] [] [] [] [] [] [] []]; try exact I. contradiction.
    + rewrite !existsb_app, (plain_no_d pre2 Hp2), (plain_no_d n (digits_plain n Hn)).
      reflexivity.
Qed.

(** X4: a text of the form [<rate>/<days> net <days>], where the rate is
    a numeral with an optional fraction and the day counts are digits,
    is read back exactly: the rate, the discount days and the net days
    are the numbers written, and the type is "early_discount" unless the
    rate is 0. *)
Theorem fallback_parse_standard_terms (rate d n : list ascii) :
  is_numeral rate -> d <> [] -> all_digits d = true ->
  n <> [] -> all_digits n = true ->
  AIIntegrator._fallback_payment_terms_parse (standard_terms rate d n)
  = {| payment_type :=
         if Qltb 0 (float_of_decimal rate)
         then "early_discount"%string else "net_term"%string;
       discount_rate := float_of_decimal rate;
       discount_days := int_of_digits d;
       net_days := int_of_digits n;
       late_fee_rate := 0;
       confidence := 7 # 10 |}.
Proof.
  intros Hr Hdne Hd Hnne Hn.
  unfold AIIntegrator._fallback_payment_terms_parse,
    AIIntegrator.parse_discount_rate, AIIntegrator.parse_discount_days,
    AIIntegrator.parse_net_days.
  rewrite (standard_terms_lower rate d n Hr Hd Hn).
  rewrite (search_here _ _ _
             (discount_run_standard rate d (list_ascii_of_string " net " ++ n)
                Hr Hdne Hd eq_refl)).
  rewrite (standard_terms_net_search rate d n Hr Hd Hnne Hn).
  unfold AIIntegrator.group, AIIntegrator.or_group, get_field, Re.set_group.
  cbn [Nat.eqb default].
  destruct n as [| c n']; [contradiction |]. reflexivity.
Qed.

Lemma fallback_parse_standard_terms_witness :
  AIIntegrator._fallback_payment_terms_parse "12.75/15 net 120"
  = {| payment_type := "early_discount";
       discount_rate := 1275 # 100;
       discount_days := 15;
       net_days := 120;
       late_fee_rate := 0;
       confidence := 7 # 10 |}.
Proof.
  apply (fallback_parse_standard_terms
           (list_ascii_of_string "12.75") (list_ascii_of_string "15")
           (list_ascii_of_string "120")); try reflexivity; try discriminate.
  exists (list_ascii_of_string "12"), (list_ascii_of_string "75").
  repeat split; try discriminate. right. split; [discriminate | reflexivity].
Defined.

(** ** A net clause alone *)

Lemma star_iter_gives_back_one {A} (p : ascii -> bool)
    (k : list ascii -> Re.groups -> option A)
    (w : list ascii) (c : ascii) (g : Re.groups) (res : A) :
  forallb p w = true -> p c = true ->
  k [] g = None -> k [c] g = Some res ->
  forall n, (length w < n)%nat ->
    star_iter (Re.Cls p) k n (w ++ [c]) g = Some res.
Proof.
  intros Hw Hc Hnil Hone. induction w as [| x w IH]; intros n Hn.
  - destruct n as [| n]; [lia |]. cbn [app].
    rewrite star_iter_step by exact Hc.
    rewrite star_iter_stops by reflexivity. rewrite Hnil. exact Hone.
  - cbn in Hw. apply andb_true_iff in Hw as [Hx Hw].
    destruct n as [| n]; [lia |]. cbn [app].
    rewrite star_iter_step by exact Hx.
    rewrite IH; [reflexivity | exact Hw | cbn in Hn; lia].
Qed.

Lemma digit_not_percent (c : ascii) : Re.digit c = true -> Ascii.eqb c "%"%char = false.
Proof.
  intros H. destruct (Ascii.eqb_spec c "%"%char) as [-> | _]; [| reflexivity].
  discriminate H.
Qed.

Lemma discount_run_nondigit {A} (x : ascii) (t : list ascii) (g : Re.groups)
    (k : list ascii -> Re.groups -> option A) :
  Re.digit x = false -> Re.run AIIntegrator.discount_pattern (x :: t) g k = None.
Proof.
  intros H. unfold AIIntegrator.discount_pattern, Re.Plus.
  rewrite !run_cat, run_grp, !run_cat. cbn [Re.run]. rewrite H. reflexivity.
Qed.

Lemma discount_run_digits_only (ds : list ascii) (c : ascii) :
  ds <> [] -> all_digits ds = true -> Re.digit c = true ->
  Re.run AIIntegrator.discount_pattern (ds ++ [c]) Re.no_groups (fun _ g0 => Some g0)
  = Some (Re.set_group 2 [c] (Re.set_group 1 ds Re.no_groups)).
Proof.
  intros Hne Hds Hc.
  destruct (digit_facts c Hc) as (Hsp & Hcls & _).
  unfold AIIntegrator.discount_pattern.
  rewrite run_cat, run_grp, run_cat.
  destruct ds as [| x ds']; [contradiction |].
  cbn in Hds. apply andb_true_iff in Hds as [Hx Hds].
  unfold Re.Plus at 1. rewrite run_cat. cbn [app].
  rewrite run_cls_match by exact Hx. rewrite run_star_iter.
  apply star_iter_gives_back_one; [exact Hds | exact Hc | | | rewrite length_app; cbn; lia].
  - reflexivity.
  - cbv beta.
    rewrite run_opt_fail
      by (rewrite run_cat; apply run_lit_mismatch, digit_not_dot; exact Hc).
    change (x :: ds' ++ [c]) with ((x :: ds') ++ [c]). rewrite consumed_app.
    rewrite run_cat, run_opt_lit_skip by (apply digit_not_percent; exact Hc).
    rewrite run_cat, run_star_stops by (cbn [stops]; rewrite Hsp; reflexivity).
    rewrite run_cat, run_star_stops by (cbn [stops]; rewrite Hcls; reflexivity).
    rewrite run_cat, run_star_stops by (cbn [stops]; rewrite Hsp; reflexivity).
    rewrite run_grp.
    pose proof (run_plus_greedy Re.digit
                  (fun s' g' => Some (Re.set_group 2 (Re.consumed [c] s') g'))
                  [c] [] (Re.set_group 1 (x :: ds') Re.no_groups)
                  (Re.set_group 2 [c] (Re.set_group 1 (x :: ds') Re.no_groups)))
      as E.
    cbn [app] in E. apply E; [discriminate | cbn; rewrite Hc; reflexivity | reflexivity |].
    reflexivity.
Qed.

(** X5: a net clause with two or more digits and nothing else, written
    [Net <digits><last digit>], is read as a discount: the rate is the
    number without its last digit, the discount days are the last digit,
    and the net days are the whole number. *)
Theorem fallback_parse_net_only (ds : list ascii) (c : ascii) :
  ds <> [] -> all_digits ds = true -> Re.digit c = true ->
  AIIntegrator._fallback_payment_terms_parse (net_only_terms ds c)
  = {| payment_type :=
         if Qltb 0 (float_of_decimal ds)
         then "early_discount"%string else "net_term"%string;
       discount_rate := float_of_decimal ds;
       discount_days := int_of_digits [c];
       net_days := int_of_digits (ds ++ [c]);
       late_fee_rate := 0;
       confidence := 7 # 10 |}.
Proof.
  intros Hne Hds Hc.
  assert (Hall : all_digits (ds ++ [c]) = true)
    by (unfold all_digits in *; rewrite forallb_app, Hds; cbn; rewrite Hc; reflexivity).
  assert (Hlow : lower (net_only_terms ds c)
                 = list_ascii_of_string "net " ++ ds ++ [c]).
  { unfold lower, net_only_terms. rewrite list_ascii_of_string_of_list_ascii.
    rewrite map_app, (lower_plain _ (digits_plain _ Hall)). reflexivity. }
  unfold AIIntegrator._fallback_payment_terms_parse,
    AIIntegrator.parse_discount_rate, AIIntegrator.parse_discount_days,
    AIIntegrator.parse_net_days.
  rewrite Hlow.
  assert (Hd : Re.search AIIntegrator.discount_pattern
                 (list_ascii_of_string "net " ++ ds ++ [c])
               = Some (Re.set_group 2 [c] (Re.set_group 1 ds Re.no_groups))).
  { cbn [list_ascii_of_string app Re.search].
    rewrite !discount_run_nondigit by reflexivity.
    apply search_here, discount_run_digits_only; assumption. }
  rewrite Hd.
  rewrite (search_here _ _ _ (net_run_standard (ds ++ [c])
             ltac:(destruct ds; discriminate) Hall)).
  unfold AIIntegrator.group, AIIntegrator.or_group, get_field, Re.set_group.
  cbn [Nat.eqb default].
  destruct ds as [| x ds']; [contradiction |]. reflexivity.
Qed.

Lemma fallback_parse_net_only_witness :
  AIIntegrator._fallback_payment_terms_parse "Net 120"
  = {| payment_type := "early_discount";
       discount_rate := 12;
       discount_days := 0;
       net_days := 120;
       late_fee_rate := 0;
       confidence := 7 # 10 |}.
Proof.
  apply (fallback_parse_net_only (list_ascii_of_string "12") "0"%char);
    [discriminate | reflexivity | reflexivity].
Defined.

(** ** The conversions of the parser *)

Section ShortGroups.
Context {A : Type}.
Variable bound : nat.

Lemma run_short (r : Re.regex) :
  forall s g (k : list ascii -> Re.groups -> option A) res,
    (length s <= bound)%nat -> short_groups bound g ->
    Re.run r s g k = Some res ->
    exists s' g',
      (length s' <= length s)%nat /\ short_groups bound g' /\ k s' g' = Some res.
Proof.
  induction r as [c | p | r1 IH1 r2 IH2 | r1 IH1 r2 IH2 | r1 IH1 | r1 IH1 | m r1 IH1];
    intros s g k res Hs Hg Hrun; cbn [Re.run] in Hrun.
  - destruct s as [| x s']; [discriminate |].
    destruct (Ascii.eqb x c); [| discriminate].
    exists s', g. cbn [length]. repeat split; [lia | exact Hg | exact Hrun].
  - destruct s as [| x s']; [discriminate |].
    destruct (p x); [| discriminate].
    exists s', g. cbn [length]. repeat split; [lia | exact Hg | exact Hrun].
  - destruct (IH1 _ _ _ _ Hs Hg Hrun) as (s1 & g1 & Hl1 & Hg1 & Hk1).
    assert (Hs1 : (length s1 <= bound)%nat) by lia.
    destruct (IH2 _ _ _ _ Hs1 Hg1 Hk1) as (s2 & g2 & Hl2 & Hg2 & Hk2).
    exists s2, g2. repeat split; [lia | exact Hg2 | exact Hk2].
  - destruct (Re.run r1 s g k) as [res1 |] eqn:E1.
    + injection Hrun as <-. apply (IH1 _ _ _ _ Hs Hg E1).
    + apply (IH2 _ _ _ _ Hs Hg Hrun).
  - revert Hrun Hs Hg. generalize (length s) at 1 as n. intros n. revert s g.
    induction n as [| n IHn]; intros s g Hrun Hs Hg.
    + exists s, g. repeat split; [lia | exact Hg | exact Hrun].
    + match type of Hrun with
      | match ?run1 with _ => _ end = _ => destruct run1 as [res1 |] eqn:E1
      end.
      * injection Hrun as <-.
        destruct (IH1 _ _ _ _ Hs Hg E1) as (s1 & g1 & Hl1 & Hg1 & Hk1).
        destruct (Nat.ltb (length s1) (length s)); [| discriminate].
        assert (Hs1 : (length s1 <= bound)%nat) by lia.
        destruct (IHn _ _ Hk1 Hs1 Hg1) as (s2 & g2 & Hl2 & Hg2 & Hk2).
        exists s2, g2. repeat split; [lia | exact Hg2 | exact Hk2].
      * exists s, g. repeat split; [lia | exact Hg | exact Hrun].
  - destruct (Re.run r1 s g k) as [res1 |] eqn:E1.
    + injection Hrun as <-. apply (IH1 _ _ _ _ Hs Hg E1).
    + exists s, g. repeat split; [lia | exact Hg | exact Hrun].
  - destruct (IH1 _ _ _ _ Hs Hg Hrun) as (s1 & g1 & Hl1 & Hg1 & Hk1).
    exists s1, (Re.set_group m (Re.consumed s s1) g1).
    repeat split; [exact Hl1 | | exact Hk1].
    intros i w Hw. unfold Re.set_group in Hw.
    destruct (Nat.eqb i m); [| apply (Hg1 _ _ Hw)].
    injection Hw as <-. unfold Re.consumed. rewrite length_firstn. lia.
Qed.
End ShortGroups.

Lemma search_short (r : Re.regex) (bound : nat) (s : list ascii) (g : Re.groups) :
  (length s <= bound)%nat -> Re.search r s = Some g -> short_groups bound g.
Proof.
  induction s as [| x s IH]; cbn [Re.search]; intros Hs H;
    destruct (Re.run r _ Re.no_groups (fun _ g0 => Some g0)) as [g1 |] eqn:E;
    try discriminate.
  1, 2: injection H as <-;
    assert (H0 : short_groups bound Re.no_groups) by (intros i w Hw; discriminate Hw);
    destruct (run_short bound r _ _ _ _ Hs H0 E)
      as (s' & g' & _ & Hg' & Hk); injection Hk as <-; exact Hg'.
  apply IH; [cbn [length] in Hs; lia | exact H].
Qed.

Lemma length_lower (raw_terms : string) : length (lower raw_terms) = String.length raw_terms.
Proof.
  unfold lower. rewrite length_map.
  induction raw_terms as [| c raw IH]; [reflexivity |]. cbn. rewrite IH. reflexivity.
Qed.

Lemma int_of_str_short (w : list ascii) :
  (length w <= AIIntegrator.int_max_str_digits)%nat ->
  AIIntegrator.int_of_str w = AIIntegrator.Converted (int_of_digits w).
Proof.
  intros H. unfold AIIntegrator.int_of_str.
  apply Nat.leb_le in H. rewrite H. reflexivity.
Qed.

Lemma int_of_str_long (w : list ascii) :
  (AIIntegrator.int_max_str_digits < length w)%nat ->
  AIIntegrator.int_of_str w = AIIntegrator.ValueError.
Proof.
  intros H. unfold AIIntegrator.int_of_str.
  apply Nat.leb_gt in H. rewrite H. reflexivity.
Qed.

Lemma or_group_short (bound : nat) (g : Re.groups) :
  short_groups bound g ->
  (length (AIIntegrator.or_group (g 1%nat) (g 2%nat)) <= bound)%nat.
Proof.
  intros Hg. unfold AIIntegrator.or_group, get_field.
  destruct (g 1%nat) as [[| c w] |] eqn:E1.
  2: apply (Hg _ _ E1).
  all: destruct (g 2%nat) as [w2 |] eqn:E2; [apply (Hg _ _ E2) | cbn; lia].
Qed.

Lemma parse_or_error_short (raw_terms : string) :
  (String.length raw_terms <= AIIntegrator.int_max_str_digits)%nat ->
  AIIntegrator._fallback_payment_terms_parse_or_error raw_terms
  = AIIntegrator.Converted (AIIntegrator._fallback_payment_terms_parse raw_terms).
Proof.
  intros H. rewrite <- length_lower in H.
  unfold AIIntegrator._fallback_payment_terms_parse_or_error,
    AIIntegrator._fallback_payment_terms_parse,
    AIIntegrator.parse_discount_rate, AIIntegrator.parse_discount_days,
    AIIntegrator.parse_net_days.
  cbv zeta.
  destruct (Re.search AIIntegrator.discount_pattern (lower raw_terms)) as [g |] eqn:Ed;
    destruct (Re.search AIIntegrator.net_pattern (lower raw_terms)) as [h |] eqn:En.
  all: try (pose proof (search_short _ _ _ _ H Ed) as Hg;
            rewrite (int_of_str_short (AIIntegrator.group g 2))
              by (unfold AIIntegrator.group, get_field;
                  destruct (g 2%nat) as [w |] eqn:E2;
                  [apply (Hg _ _ E2) | cbn; lia])).
  all: try (pose proof (search_short _ _ _ _ H En) as Hh;
            rewrite (int_of_str_short (AIIntegrator.or_group (h 1%nat) (h 2%nat)))
              by (apply (or_group_short _ _ Hh))).
  all: reflexivity.
Qed.

Lemma net_only_searches (ds : list ascii) (c : ascii) :
  ds <> [] -> all_digits ds = true -> Re.digit c = true ->
  Re.search AIIntegrator.discount_pattern (lower (net_only_terms ds c))
  = Some (Re.set_group 2 [c] (Re.set_group 1 ds Re.no_groups))
  /\ Re.search AIIntegrator.net_pattern (lower (net_only_terms ds c))
     = Some (Re.set_group 1 (ds ++ [c]) Re.no_groups).
Proof.
  intros Hne Hds Hc.
  assert (Hall : all_digits (ds ++ [c]) = true)
    by (unfold all_digits in *; rewrite forallb_app, Hds; cbn; rewrite Hc; reflexivity).
  assert (Hlow : lower (net_only_terms ds c)
                 = list_ascii_of_string "net " ++ ds ++ [c]).
  { unfold lower, net_only_terms. rewrite list_ascii_of_string_of_list_ascii.
    rewrite map_app, (lower_plain _ (digits_plain _ Hall)). reflexivity. }
  rewrite Hlow. split.
  - cbn [list_ascii_of_string app Re.search].
    rewrite !discount_run_nondigit by reflexivity.
    apply search_here, discount_run_digits_only; assumption.
  - apply search_here, net_run_standard; [destruct ds; discriminate | exact Hall].
Qed.

(** X1: the parser can raise only through the digit limit of [int].  The
    text that either pattern hands to [float] and [int] is a numeral
    (digits with an optional fraction for the rate, digits that are not
    empty for the day counts); for a text of at most 4300 characters
    every conversion succeeds and the parser returns; a net clause of
    more than 4300 digits makes it raise [ValueError]. *)
Theorem parser_raises_only_beyond_digit_limit :
  (forall raw_terms g,
     Re.search AIIntegrator.discount_pattern (lower raw_terms) = Some g ->
     is_numeral (AIIntegrator.group g 1)
     /\ AIIntegrator.group g 2 <> []
     /\ all_digits (AIIntegrator.group g 2) = true)
  /\ (forall raw_terms g,
        Re.search AIIntegrator.net_pattern (lower raw_terms) = Some g ->
        AIIntegrator.or_group (g 1%nat) (g 2%nat) <> []
        /\ all_digits (AIIntegrator.or_group (g 1%nat) (g 2%nat)) = true)
  /\ (forall raw_terms,
        (String.length raw_terms <= AIIntegrator.int_max_str_digits)%nat ->
        AIIntegrator._fallback_payment_terms_parse_or_error raw_terms
        = AIIntegrator.Converted
            (AIIntegrator._fallback_payment_terms_parse raw_terms))
  /\ (forall ds c,
        ds <> [] -> all_digits ds = true -> Re.digit c = true ->
        (AIIntegrator.int_max_str_digits < length (ds ++ [c]))%nat ->
        AIIntegrator._fallback_payment_terms_parse_or_error (net_only_terms ds c)
        = AIIntegrator.ValueError).
Proof.
  split; [| split; [| split]].
  - intros raw_terms g H.
    apply discount_match_groups in H as (w1 & w2 & H1 & H2 & Hn & Hne & Hd).
    unfold AIIntegrator.group, get_field. rewrite H1, H2. cbn. auto.
  - intros raw_terms g. apply net_match_digits.
  - apply parse_or_error_short.
  - intros ds c Hne Hds Hc Hlong.
    destruct (net_only_searches ds c Hne Hds Hc) as [Ed En].
    unfold AIIntegrator._fallback_payment_terms_parse_or_error. cbv zeta.
    rewrite Ed, En.
    replace (AIIntegrator.group (Re.set_group 2 [c] (Re.set_group 1 ds Re.no_groups)) 2)
      with [c] by reflexivity.
    rewrite (int_of_str_short [c]) by (cbn; unfold AIIntegrator.int_max_str_digits; lia).
    cbn [AIIntegrator.and_then].
    replace (AIIntegrator.or_group (Re.set_group 1 (ds ++ [c]) Re.no_groups 1%nat)
                                   (Re.set_group 1 (ds ++ [c]) Re.no_groups 2%nat))
      with (ds ++ [c]) by (destruct ds; [contradiction | reflexivity]).
    rewrite (int_of_str_long _ Hlong). reflexivity.
Qed.

Lemma parser_raises_only_beyond_digit_limit_witness :
  AIIntegrator._fallback_payment_terms_parse_or_error "2.5/10 Net 30"
  = AIIntegrator.Converted (AIIntegrator._fallback_payment_terms_parse "2.5/10 Net 30")
  /\ AIIntegrator._fallback_payment_terms_parse_or_error
       (net_only_terms (repeat "7"%char 4300) "0"%char)
     = AIIntegrator.ValueError.
Proof.
  destruct parser_raises_only_beyond_digit_limit as (_ & _ & Hshort & Hlong). split.
  - apply Hshort. vm_compute. repeat constructor.
  - apply Hlong.
    + discriminate.
    + vm_compute. reflexivity.
    + reflexivity.
    + rewrite length_app, repeat_length. vm_compute. repeat constructor.
Defined.

(** X2: for a text of at most 300 characters (no numeral in it is then
    long enough for [int] to refuse it, or for [float] to round it to
    zero or to infinity) the fallback parser returns a discount rate,
    discount days and net days that are not negative, no late fee, a
    confidence of 0.7, and the type "early_discount" exactly when the
    rate is positive ("net_term" otherwise). *)
Theorem fallback_parse_is_well_formed (raw_terms : string) :
  (String.length raw_terms <= 300)%nat ->
  exists terms,
    AIIntegrator._fallback_payment_terms_parse_or_error raw_terms
    = AIIntegrator.Converted terms
    /\ 0 <= discount_rate terms
    /\ (0 <= discount_days terms)%Z
    /\ (0 <= net_days terms)%Z
    /\ late_fee_rate terms = 0
    /\ confidence terms = 7 # 10
    /\ (0 < discount_rate terms /\ payment_type terms = "early_discount"%string
        \/ discount_rate terms == 0 /\ payment_type terms = "net_term"%string).
Proof.
  intros H. exists (AIIntegrator._fallback_payment_terms_parse raw_terms). split.
  - apply parse_or_error_short. unfold AIIntegrator.int_max_str_digits. lia.
  - apply fallback_parse_signs.
Qed.

Lemma fallback_parse_is_well_formed_witness :
  exists terms,
    AIIntegrator._fallback_payment_terms_parse_or_error "2% within 10 days, net 45"
    = AIIntegrator.Converted terms
    /\ 0 < discount_rate terms
    /\ payment_type terms = "early_discount"%string.
Proof.
  destruct (fallback_parse_is_well_formed "2% within 10 days, net 45")
    as (terms & E & _ & _ & _ & _ & _ & Hcases).
  - vm_compute. repeat constructor.
  - exists terms. split; [exact E |].
    destruct Hcases as [[Hpos Ht] | [Hzero Ht]]; [split; assumption |].
    vm_compute in E. injection E as <-. vm_compute in Hzero. discriminate Hzero.
Defined.

(** ** Spend percentile and relationship score *)

Lemma ratio_in_unit (a b : nat) :
  (a <= b)%nat -> (0 < b)%nat ->
  0 <= inject_Z (Z.of_nat a) / inject_Z (Z.of_nat b) <= 1.
Proof.
  intros Hab Hb.
  assert (H0 : 0 <= inject_Z (Z.of_nat a))
    by (change 0 with (inject_Z 0); rewrite <- Zle_Qle; lia).
  assert (H1 : inject_Z (Z.of_nat a) <= inject_Z (Z.of_nat b))
    by (rewrite <- Zle_Qle; lia).
  assert (H2 : 0 < inject_Z (Z.of_nat b))
    by (change 0 with (inject_Z 0); rewrite <- Zlt_Qlt; lia).
  split.
  - apply Qle_shift_div_l; [exact H2 | lra].
  - apply Qle_shift_div_r; [exact H2 | lra].
Qed.

Lemma spend_percentile_range (db : Database) (vendor_id : string) (annual_spend : Q) :
  0 <= _calculate_spend_percentile db vendor_id annual_spend <= 100.
Proof.
  unfold _calculate_spend_percentile.
  destruct (map _ (map_to_list (vendor_master db))) as [| x l] eqn:E; [lra |].
  set (all := x :: l).
  pose proof (ratio_in_unit
                (length (List.filter (fun spend => Qleb spend annual_spend) all))
                (length all) (List.filter_length_le _ all)
                ltac:(cbn; lia)) as H.
  lra.
Qed.

(** X6: the spend percentile is 50 when no vendor is known, lies between
    0 and 100 otherwise, and is 100 for a spend that no known vendor
    exceeds. *)
Theorem spend_percentile_bounds (db : Database) (vendor_id : string) (annual_spend : Q) :
  0 <= _calculate_spend_percentile db vendor_id annual_spend <= 100
  /\ (vendor_master db = ∅ ->
      _calculate_spend_percentile db vendor_id annual_spend = 50)
  /\ (vendor_master db <> ∅ ->
      (forall v profile, vendor_master db !! v = Some profile ->
                         annual_contract_value profile <= annual_spend) ->
      _calculate_spend_percentile db vendor_id annual_spend == 100).
Proof.
  split; [apply spend_percentile_range |]. split.
  - intros H. unfold _calculate_spend_percentile. rewrite H, map_to_list_empty.
    reflexivity.
  - intros Hne Hall. unfold _calculate_spend_percentile.
    destruct (map_to_list (vendor_master db)) as [| kv l] eqn:E.
    + apply map_to_list_empty_iff in E. contradiction.
    + assert (Hf : List.filter (fun spend => Qleb spend annual_spend)
                     (map (fun kv => annual_contract_value (snd kv)) (kv :: l))
                   = map (fun kv => annual_contract_value (snd kv)) (kv :: l)).
      { apply forallb_filter_id. apply forallb_forall. intros q Hq.
        apply in_map_iff in Hq as ([v profile] & <- & Hin).
        apply Qleb_le. apply (Hall v profile).
        apply elem_of_map_to_list. rewrite E. apply list_elem_of_In. exact Hin. }
      rewrite Hf. cbn [map length].
      set (n := inject_Z (Z.of_nat (S (length (map _ l))))).
      assert (Hn : ~ n == 0).
      { unfold n. intros H. apply (Qeq_bool_iff) in H. discriminate H. }
      field. exact Hn.
Qed.

Lemma spend_percentile_bounds_witness :
  _calculate_spend_percentile (one_vendor "V001" 1000 no_history) "V001" 1000 == 100
  /\ _calculate_spend_percentile empty_database "V001" 1000 = 50.
Proof.
  split.
  - apply (spend_percentile_bounds (one_vendor "V001" 1000 no_history) "V001" 1000).
    + intros H. apply (f_equal (fun m => m !! "V001"%string)) in H.
      vm_compute in H. discriminate H.
    + intros v profile H. unfold one_vendor in H. cbn [vendor_master] in H.
      apply lookup_singleton_Some in H as [_ <-]. vm_compute. discriminate.
  - apply (spend_percentile_bounds empty_database "V001" 1000). reflexivity.
Defined.

Lemma pymin_le (c x : Q) : pymin c x <= c /\ pymin c x <= x.
Proof.
  unfold pymin. destruct (Qltb x c) eqn:E.
  - apply Qltb_lt in E. lra.
  - apply Qltb_ge in E. lra.
Qed.

Lemma pymin_clamped (c x : Q) : c <= x -> pymin c x = c.
Proof.
  intros H. unfold pymin.
  destruct (Qltb x c) eqn:E; [apply Qltb_lt in E; lra | reflexivity].
Qed.

Lemma pymin_below (c x : Q) : x < c -> pymin c x = x.
Proof. intros H. unfold pymin. apply Qltb_lt in H. rewrite H. reflexivity. Qed.

Lemma max0_above (x : Q) : 0 < x -> max0 x = x.
Proof. intros H. unfold max0. apply Qltb_lt in H. rewrite H. reflexivity. Qed.

Lemma vrs_components_eq (db : Database) (vendor_id : string) :
  let vrs := calculate_vrs db vendor_id in
  longevity_score vrs = pymin 100 ((years_in_business_of db vendor_id / 15) * 100)
  /\ reliability_score vrs = reliability_of db vendor_id
  /\ communication_score vrs = max0 (100 - friction_emails_of db vendor_id * 2)
  /\ total_value_score vrs
     = _calculate_spend_percentile db vendor_id
         (annual_contract_value (get (vendor_master db) vendor_id no_profile))
  /\ hard_factors_score vrs
     = total_value_score vrs * (7 # 10) + repayment_score vrs * (3 # 10)
  /\ soft_factors_score vrs
     = (longevity_score vrs + reliability_score vrs + communication_score vrs) / 3
  /\ final_vrs vrs
     = hard_factors_score vrs * (6 # 10) + soft_factors_score vrs * (4 # 10).
Proof. repeat split; reflexivity. Qed.

(** X7: the longevity score is capped at 100, which it reaches from 15
    years in business on, and the communication score is floored at 0,
    which it reaches from 50 friction emails on. *)
Theorem vrs_clamps (db : Database) (vendor_id : string) :
  let vrs := calculate_vrs db vendor_id in
  longevity_score vrs <= 100
  /\ 0 <= communication_score vrs
  /\ (15 <= years_in_business_of db vendor_id -> longevity_score vrs = 100)
  /\ (50 <= friction_emails_of db vendor_id -> communication_score vrs = 0).
Proof.
  destruct (vrs_components_eq db vendor_id) as (Hl & _ & Hc & _).
  cbn zeta in *. rewrite Hl, Hc.
  split; [apply pymin_le |]. split; [apply max0_nonneg |]. split.
  - intros H. apply pymin_clamped.
    assert (1 <= years_in_business_of db vendor_id / 15)
      by (apply Qle_shift_div_l; lra).
    lra.
  - intros H. apply max0_nonpos. lra.
Qed.

Lemma vrs_clamps_witness :
  longevity_score
    (calculate_vrs
       {| vendor_master :=
            {[ "V001"%string :=
                 mkVendorProfile None None
                   (Some {[ "years_in_business"%string := 30 ]}) None None ]};
          payment_history := ∅;
          communication_logs :=
            {[ "V001"%string :=
                 mkCommunicationData (Some {[ "friction_emails"%string := 80 ]}) ]};
          performance_metrics := ∅;
          market_intelligence := ∅;
          financial_parameters := mkFinancialParameters None None None None |}
       "V001") = 100.
Proof.
  match goal with
  | |- longevity_score (calculate_vrs ?db ?v) = _ =>
      apply (proj1 (proj2 (proj2 (vrs_clamps db v))))
  end.
  vm_compute. discriminate.
Defined.

Lemma repayment_of_range (db : Database) (vendor_id : string) :
  0 <= on_time_of db vendor_id <= total_of db vendor_id ->
  0 <= repayment_score (calculate_vrs db vendor_id) <= 100.
Proof.
  intros [Hn Ht]. rewrite repayment_score_eq.
  destruct (Qltb 0 (total_of db vendor_id)) eqn:E; [| lra].
  apply Qltb_lt in E.
  assert (0 <= on_time_of db vendor_id / total_of db vendor_id <= 1).
  { split; [apply Qle_shift_div_l | apply Qle_shift_div_r]; lra. }
  lra.
Qed.

(** X8: for a vendor whose on-time count lies between 0 and its total,
    whose years in business and friction emails are not negative and
    whose delivery rate lies between 0 and 100, the hard score, the soft
    score and the final relationship score all lie between 0 and 100. *)
Theorem final_vrs_range (db : Database) (vendor_id : string) :
  0 <= on_time_of db vendor_id <= total_of db vendor_id ->
  0 <= years_in_business_of db vendor_id ->
  0 <= reliability_of db vendor_id <= 100 ->
  0 <= friction_emails_of db vendor_id ->
  let vrs := calculate_vrs db vendor_id in
  0 <= hard_factors_score vrs <= 100
  /\ 0 <= soft_factors_score vrs <= 100
  /\ 0 <= final_vrs vrs <= 100.
Proof.
  intros Hrep Hy Hrel Hf.
  destruct (vrs_components_eq db vendor_id) as (Hl & Hr & Hc & Ht & Hh & Hs & Hv).
  cbn zeta in *.
  pose proof (repayment_of_range db vendor_id Hrep) as Hrep'.
  assert (Htv : 0 <= total_value_score (calculate_vrs db vendor_id) <= 100)
    by (rewrite Ht; apply spend_percentile_range).
  assert (Hlo : 0 <= longevity_score (calculate_vrs db vendor_id) <= 100).
  { rewrite Hl. split; [| apply pymin_le].
    assert (0 <= years_in_business_of db vendor_id / 15)
      by (apply Qle_shift_div_l; lra).
    unfold pymin. destruct (Qltb _ 100); lra. }
  assert (Hco : 0 <= communication_score (calculate_vrs db vendor_id) <= 100).
  { rewrite Hc. split; [apply max0_nonneg |].
    unfold max0. destruct (Qltb 0 _); lra. }
  rewrite <- Hr in Hrel.
  assert (Hhard : 0 <= hard_factors_score (calculate_vrs db vendor_id) <= 100)
    by (rewrite Hh; lra).
  assert (Hsoft : 0 <= soft_factors_score (calculate_vrs db vendor_id) <= 100).
  { rewrite Hs.
    set (t := longevity_score _ + reliability_score _ + communication_score _).
    assert (Ht3 : 0 <= t <= 300) by (unfold t; lra).
    split; [apply Qle_shift_div_l | apply Qle_shift_div_r]; lra. }
  split; [exact Hhard |]. split; [exact Hsoft |]. rewrite Hv. lra.
Qed.

Lemma final_vrs_range_witness :
  0 <= final_vrs
         (calculate_vrs
            (one_vendor "V001" 1000
               (summary_of [("total_invoices"%string, 72);
                            ("invoices_paid_on_time"%string, 71)]))
            "V001") <= 100.
Proof.
  apply (final_vrs_range
           (one_vendor "V001" 1000
              (summary_of [("total_invoices"%string, 72);
                           ("invoices_paid_on_time"%string, 71)]))
           "V001"); vm_compute; try split; discriminate.
Defined.

(** ** More on the business value *)

(** X10: an urgency multiplier of 0 (an expired discount) is what an
    invoice gets from 24 hours before the midnight that starts its
    deadline day: it is 0 exactly when less than one whole day is left
    until that midnight, and between 1 and 1.5 otherwise. *)
Theorem urgency_expires_a_day_early (db : Database) (now : Z) (inv : Invoice)
    (vendor : string) (terms : PaymentTerms) (vrs : VRSComponents) :
  let value := calculate_enhanced_business_value db now inv vendor terms vrs in
  let deadline := midnight (issue_date inv + discount_days terms) in
  (urgency_multiplier value = 0 <-> (deadline - now < microseconds_per_day)%Z)
  /\ ((microseconds_per_day <= deadline - now)%Z ->
      1 <= urgency_multiplier value <= 15 # 10).
Proof.
  cbn zeta. rewrite urgency_multiplier_eq.
  assert (Hd : days_to_deadline inv terms now
               = ((midnight (issue_date inv + discount_days terms) - now)
                  / microseconds_per_day)%Z).
  { unfold days_to_deadline, days_of, midnight, timedelta_days. f_equal. lia. }
  rewrite Hd.
  set (x := (midnight (issue_date inv + discount_days terms) - now)%Z).
  assert (Hm : (0 < microseconds_per_day)%Z) by reflexivity.
  assert (Hiff : (x / microseconds_per_day <= 0 <-> x < microseconds_per_day)%Z).
  { pose proof (Z.div_mod x microseconds_per_day ltac:(lia)).
    pose proof (Z.mod_pos_bound x microseconds_per_day Hm). split; intros; nia. }
  unfold urgency_of. split.
  - destruct (Z.leb_spec (x / microseconds_per_day) 0) as [H | H].
    + split; [intros _; apply Hiff; exact H | reflexivity].
    + split; [| intros H'; apply Hiff in H'; lia].
      repeat destruct (Z.leb _ _); discriminate.
  - intros H. destruct (Z.leb_spec (x / microseconds_per_day) 0) as [H' | H'].
    + apply Hiff in H'. lia.
    + repeat destruct (Z.leb _ _); split; unfold Qle; cbn; lia.
Qed.

Lemma urgency_expires_a_day_early_witness :
  urgency_multiplier
    (calculate_enhanced_business_value empty_database
       (midnight 739009 + 1) scenario_invoice "V001" scenario_terms
       (calculate_vrs empty_database "V001")) = 0.
Proof.
  apply (urgency_expires_a_day_early empty_database (midnight 739009 + 1)
           scenario_invoice "V001" scenario_terms
           (calculate_vrs empty_database "V001")).
  vm_compute. reflexivity.
Defined.

Lemma default_risk_values :
  get default_risk_multipliers "very_low" (12 # 10) = 12 # 10
  /\ get default_risk_multipliers "low" 1 = 1
  /\ get default_risk_multipliers "medium" (85 # 100) = 85 # 100
  /\ get default_risk_multipliers "high" (7 # 10) = 7 # 10
  /\ get default_risk_multipliers "very_high" (5 # 10) = 5 # 10.
Proof. repeat split; vm_compute; reflexivity. Qed.

Ltac split_Qleb :=
  repeat match goal with
         | |- context [Qleb ?a ?b] =>
             let E := fresh "E" in
             destruct (Qleb a b) eqn:E;
             [apply Qleb_le in E | apply Qleb_gt in E]
         end.

(** X12: with the built-in risk table the risk multiplier never grows
    with the financial stress score; the bucket bounds 20, 40, 60 and 80
    belong to the lower-risk bucket, and a score above 80 gets 0.5. *)
Theorem risk_multiplier_steps_down (r1 r2 : Q) :
  r1 <= r2 ->
  risk_multiplier_of default_risk_multipliers r2
    <= risk_multiplier_of default_risk_multipliers r1
  /\ risk_multiplier_of default_risk_multipliers 20 = 12 # 10
  /\ risk_multiplier_of default_risk_multipliers 40 = 1
  /\ risk_multiplier_of default_risk_multipliers 60 = 85 # 100
  /\ risk_multiplier_of default_risk_multipliers 80 = 7 # 10
  /\ (80 < r1 -> risk_multiplier_of default_risk_multipliers r1 = 5 # 10).
Proof.
  intros H. destruct default_risk_values as (H1 & H2 & H3 & H4 & H5).
  split; [| repeat split; try (vm_compute; reflexivity)].
  - unfold risk_multiplier_of. rewrite H1, H2, H3, H4, H5.
    split_Qleb; try lra; unfold Qle; cbn; lia.
  - intros H80. unfold risk_multiplier_of. rewrite H5.
    split_Qleb; try lra; reflexivity.
Qed.

Lemma risk_multiplier_steps_down_witness :
  risk_multiplier_of default_risk_multipliers (205 # 10)
    <= risk_multiplier_of default_risk_multipliers 20.
Proof.
  apply (risk_multiplier_steps_down 20 (205 # 10)). vm_compute. discriminate.
Defined.

(** X13: while the discount is still open (at least one whole day left),
    the urgency multiplier never grows with the days left: 1.5 up to 3
    days, 1.2 up to 7, 1.1 up to 14 and 1 beyond. *)
Theorem urgency_steps_down (d1 d2 : Z) :
  (1 <= d1 <= d2)%Z ->
  urgency_of d2 <= urgency_of d1
  /\ ((d1 <= 3)%Z -> urgency_of d1 = 15 # 10)
  /\ ((14 < d1)%Z -> urgency_of d1 = 1).
Proof.
  intros [H1 H2]. unfold urgency_of.
  repeat match goal with
         | |- context [Z.leb ?a ?b] => destruct (Z.leb_spec a b)
         end; try lia; repeat split; intros; try lia; try reflexivity;
    unfold Qle; cbn; lia.
Qed.

Lemma urgency_steps_down_witness : urgency_of 8 <= urgency_of 2.
Proof. apply (urgency_steps_down 2 8). lia. Defined.

(** ** Sums *)

Lemma fold_plus_acc (l : list Q) (a : Q) :
  fold_left Qplus l a == a + fold_left Qplus l 0.
Proof.
  revert a. induction l as [| x l IH]; intros a; cbn [fold_left].
  - ring.
  - rewrite (IH (a + x)), (IH (0 + x)). ring.
Qed.

Lemma pysum_cons (x : Q) (l : list Q) : pysum (x :: l) == x + pysum l.
Proof. unfold pysum. cbn [fold_left]. rewrite fold_plus_acc. ring. Qed.

Lemma pysum_nil : pysum [] = 0.
Proof. reflexivity. Qed.

Lemma pysum_perm (l l' : list Q) : Permutation l l' -> pysum l == pysum l'.
Proof.
  induction 1 as [| x l l' _ IH | x y l | l1 l2 l3 _ IH1 _ IH2].
  - reflexivity.
  - rewrite !pysum_cons, IH. reflexivity.
  - rewrite !pysum_cons. ring.
  - rewrite IH1. exact IH2.
Qed.

Lemma batch_total_perm (l l' : list ScoredInvoice) :
  Permutation l l' -> batch_total l == batch_total l'.
Proof. intros H. apply pysum_perm, Permutation_map, H. Qed.

(** ** More on the allocation *)

Lemma appended_above_budget (l : list ScoredInvoice) :
  Forall (fun x => 0 <= invoice_amount (invoice x)) l ->
  forall (i : nat) (remaining bound : Q),
    remaining <= bound ->
    Forall (fun e => bound < amount e -> status e = deferred)
           (appended i remaining l).
Proof.
  induction 1 as [| x rest Hx Hrest IH]; intros i remaining bound Hb; cbn [appended].
  - constructor.
  - destruct (Qleb (invoice_amount (invoice x)) remaining) eqn:E.
    + apply Qleb_le in E. constructor.
      * cbn [amount scheduled_entry]. intros H. lra.
      * apply IH. lra.
    + constructor; [intros _; reflexivity | apply IH; exact Hb].
Qed.

Lemma appended_after_deferred (pre : list PaymentSequenceEntry) :
  forall (l : list ScoredInvoice) (i : nat) (remaining : Q)
         (e : PaymentSequenceEntry) (post : list PaymentSequenceEntry),
    Forall (fun x => 0 <= invoice_amount (invoice x)) l ->
    appended i remaining l = pre ++ e :: post ->
    status e = deferred ->
    Forall (fun e' => amount e <= amount e' -> status e' = deferred) post.
Proof.
  induction pre as [| p pre IH]; intros l i remaining e post Ha Heq Hdef;
    destruct l as [| x rest]; try discriminate Heq;
    cbn [appended app] in Heq; inversion Ha as [| ? ? Hx Hrest]; subst.
  - destruct (Qleb (invoice_amount (invoice x)) remaining) eqn:E;
      injection Heq as <- <-; [discriminate Hdef |].
    apply Qleb_gt in E. cbn [amount deferred_entry].
    eapply List.Forall_impl; [| apply (appended_above_budget rest Hrest _ _ remaining);
                                apply Qle_refl].
    cbn beta. intros e' H Hle. apply H. lra.
  - destruct (Qleb (invoice_amount (invoice x)) remaining);
      injection Heq as _ Heq; eapply IH; eassumption.
Qed.

(** X15: a deferred invoice is never overtaken by a larger one: when the
    amounts are not negative, every entry that comes after a deferred
    entry and whose amount is at least as large is deferred too. *)
Theorem allocate_defers_larger_later
    (usable_cash : Q) (scored_invoices : list ScoredInvoice)
    (pre post : list PaymentSequenceEntry) (e : PaymentSequenceEntry) :
  Forall (fun x => 0 <= invoice_amount (invoice x)) scored_invoices ->
  allocate usable_cash scored_invoices = pre ++ e :: post ->
  status e = deferred ->
  Forall (fun e' => amount e <= amount e' -> status e' = deferred) post.
Proof.
  intros Ha Heq Hdef. rewrite allocate_appended in Heq.
  eapply appended_after_deferred; [| exact Heq | exact Hdef].
  apply (Permutation_Forall (sorted_reverse_perm bv scored_invoices)). exact Ha.
Qed.

Lemma allocate_defers_larger_later_witness :
  Forall (fun e' =>
            amount (deferred_entry 1
                      (score_invoice empty_database (midnight 739005) invoice_b))
              <= amount e' -> status e' = deferred)
         [deferred_entry 2 (score_invoice empty_database (midnight 739005) invoice_c)].
Proof.
  apply (allocate_defers_larger_later 150000 three_invoices
           [scheduled_entry 0 (score_invoice empty_database (midnight 739005) invoice_a)]).
  - repeat constructor; vm_compute; discriminate.
  - vm_compute. reflexivity.
  - reflexivity.
Defined.

Lemma appended_amount_map (l : list ScoredInvoice) :
  forall (i : nat) (remaining : Q),
    map amount (appended i remaining l)
    = map (fun x => invoice_amount (invoice x)) l.
Proof.
  induction l as [| x rest IH]; intros i remaining; cbn [appended]; [reflexivity |].
  destruct (Qleb _ _); cbn [map]; rewrite IH; reflexivity.
Qed.

(** X16: the executive summary of an allocation accounts for every
    invoice: its scheduled and deferred counts add up to the number of
    invoices, which is also [payments_optimized], and its total payables
    are the sum of the invoice amounts, whatever the budget. *)
Theorem summary_accounts_for_every_invoice
    (usable_cash : Q) (scored_invoices : list ScoredInvoice) :
  let summary := _generate_executive_summary (allocate usable_cash scored_invoices) in
  (scheduled_payments (dashboard_metrics summary)
   + deferred_payments (dashboard_metrics summary))%nat = length scored_invoices
  /\ payments_optimized summary = length scored_invoices
  /\ total_payables (dashboard_metrics summary) == batch_total scored_invoices.
Proof.
  cbn zeta. unfold _generate_executive_summary.
  cbn [dashboard_metrics scheduled_payments deferred_payments payments_optimized
       total_payables].
  pose proof (allocate_appended usable_cash scored_invoices) as Ha.
  pose proof (sorted_reverse_perm bv scored_invoices) as Hp.
  assert (Hlen : length (allocate usable_cash scored_invoices) = length scored_invoices)
    by (rewrite Ha, appended_length; symmetry; apply Permutation_length, Hp).
  pose proof (List.filter_length_le is_scheduled (allocate usable_cash scored_invoices)).
  repeat split; try lia.
  rewrite Ha, appended_amount_map. symmetry. apply batch_total_perm, Hp.
Qed.

Lemma sorted_reverse_fixes_sorted {A} (key : A -> Q) (l : list A) :
  StronglySorted (fun a b => key b <= key a) l -> sorted_reverse key l = l.
Proof.
  induction 1 as [| x l Hs IH Hx]; [reflexivity |].
  cbn [sorted_reverse fold_right]. fold (sorted_reverse key l). rewrite IH.
  destruct l as [| y l']; [reflexivity |]. cbn [insert_desc].
  inversion Hx as [| ? ? Hy _]; subst.
  destruct (Qltb (key x) (key y)) eqn:E; [apply Qltb_lt in E; lra | reflexivity].
Qed.

(** X17: ranking is idempotent: sorting a batch that is already in
    descending order of value leaves it as it is, so allocating a ranked
    batch again gives the same payment sequence. *)
Theorem allocate_ranked_batch (usable_cash : Q) (scored_invoices : list ScoredInvoice) :
  sorted_reverse bv (sorted_reverse bv scored_invoices)
  = sorted_reverse bv scored_invoices
  /\ allocate usable_cash (sorted_reverse bv scored_invoices)
     = allocate usable_cash scored_invoices.
Proof.
  assert (H : sorted_reverse bv (sorted_reverse bv scored_invoices)
              = sorted_reverse bv scored_invoices)
    by apply sorted_reverse_fixes_sorted, sorted_reverse_sorted.
  split; [exact H |]. rewrite !allocate_appended, H. reflexivity.
Qed.

Lemma appended_none_fit (l : list ScoredInvoice) :
  forall (i : nat) (remaining : Q),
    Forall (fun x => remaining < invoice_amount (invoice x)) l ->
    Forall (fun e => status e = deferred /\ discount_captured e = 0)
           (appended i remaining l).
Proof.
  induction l as [| x rest IH]; intros i remaining H; cbn [appended];
    [constructor |].
  inversion H as [| ? ? Hx Hrest]; subst. apply Qleb_gt in Hx. rewrite Hx.
  constructor; [split; reflexivity | apply IH; exact Hrest].
Qed.

(** X18: when every invoice exceeds the usable cash (as with a budget of
    0 and positive amounts), every invoice is deferred to its due date,
    nothing is captured and the summary counts no scheduled payment and
    no savings. *)
Theorem allocate_defers_all_that_exceed
    (usable_cash : Q) (scored_invoices : list ScoredInvoice) :
  Forall (fun x => usable_cash < invoice_amount (invoice x)) scored_invoices ->
  let out := allocate usable_cash scored_invoices in
  Forall (fun e => status e = deferred /\ discount_captured e = 0) out
  /\ scheduled_payments (dashboard_metrics (_generate_executive_summary out)) = 0%nat
  /\ potential_savings (dashboard_metrics (_generate_executive_summary out)) = 0
  /\ savings_rate (dashboard_metrics (_generate_executive_summary out)) == 0.
Proof.
  intros H out.
  assert (Hall : Forall (fun e => status e = deferred /\ discount_captured e = 0) out).
  { unfold out. rewrite allocate_appended. apply appended_none_fit.
    apply (Permutation_Forall (sorted_reverse_perm bv scored_invoices)). exact H. }
  assert (Hf : List.filter is_scheduled out = []).
  { clear -Hall. induction Hall as [| e es [He _] _ IH]; [reflexivity |].
    cbn [List.filter]. unfold is_scheduled at 1. rewrite He. exact IH. }
  split; [exact Hall |].
  unfold _generate_executive_summary.
  cbn [dashboard_metrics scheduled_payments potential_savings savings_rate].
  rewrite Hf. cbn [map length]. rewrite pysum_nil.
  repeat split. destruct (Qltb 0 _); [| reflexivity].
  unfold Qdiv. ring.
Qed.

Lemma allocate_defers_all_that_exceed_witness :
  scheduled_payments
    (dashboard_metrics (_generate_executive_summary (allocate 0 two_invoices)))
  = 0%nat.
Proof.
  apply (allocate_defers_all_that_exceed 0 two_invoices).
  repeat constructor.
Defined.

(** ** Savings across the reports *)

Lemma scheduled_savings_all (es : list PaymentSequenceEntry) :
  Forall (fun e => status e = deferred -> discount_captured e == 0) es ->
  pysum (map discount_captured (List.filter is_scheduled es))
  == pysum (map discount_captured es).
Proof.
  induction 1 as [| e es He _ IH]; [reflexivity |].
  cbn [List.filter map]. unfold is_scheduled at 1.
  destruct (status e) eqn:E; cbn [map]; rewrite !pysum_cons, IH.
  - reflexivity.
  - rewrite (He eq_refl). ring.
Qed.

Lemma appended_deferred_capture_nothing (l : list ScoredInvoice) :
  forall (i : nat) (remaining : Q),
    Forall (fun e => status e = deferred -> discount_captured e == 0)
           (appended i remaining l).
Proof.
  induction l as [| x rest IH]; intros i remaining; cbn [appended]; [constructor |].
  destruct (Qleb _ _); constructor; try apply IH.
  - intros H. discriminate H.
  - intros _. reflexivity.
Qed.

(** X19: the three reports agree on the savings of an allocation: the
    potential savings of the executive summary (summed over scheduled
    entries), the total savings of the performance analytics and the
    PayOpti savings of the comparison (both summed over all entries) are
    the same amount, since a deferred entry captures nothing. *)
Theorem reports_agree_on_savings (available_cash : option Q)
    (usable_cash : Q) (scored_invoices : list ScoredInvoice) :
  let out := allocate usable_cash scored_invoices in
  potential_savings (dashboard_metrics (_generate_executive_summary out))
  == total_savings (_generate_performance_analytics out)
  /\ total_savings (_generate_performance_analytics out)
     = payopti_savings (_generate_comparison_analysis available_cash out scored_invoices)
  /\ payopti_vendors_paid
       (_generate_comparison_analysis available_cash out scored_invoices)
     = scheduled_payments (dashboard_metrics (_generate_executive_summary out)).
Proof.
  cbn zeta. split; [| split; reflexivity].
  unfold _generate_executive_summary, _generate_performance_analytics.
  cbn [dashboard_metrics potential_savings total_savings].
  apply scheduled_savings_all. rewrite allocate_appended.
  apply appended_deferred_capture_nothing.
Qed.

(** ** The baselines *)

Lemma traditional_fold (sequence : list ScoredInvoice) :
  forall (st : TraditionalState) (i : nat),
    let final := fold_left traditional_body sequence st in
    let entries := appended i (acc_remaining_cash st) sequence in
    acc_vendors_paid final
    = (acc_vendors_paid st + length (List.filter is_scheduled entries))%nat
    /\ acc_savings final
       == acc_savings st + pysum (map discount_captured entries)
    /\ acc_remaining_cash final
       == acc_remaining_cash st - scheduled_total entries.
Proof.
  induction sequence as [| x rest IH]; intros st i; cbn zeta.
  - cbn [fold_left appended List.filter length map]. rewrite pysum_nil.
    cbn [scheduled_total fold_right]. repeat split; try ring. lia.
  - cbn [fold_left appended]. unfold traditional_body at 2 4 6.
    destruct (Qleb (invoice_amount (invoice x)) (acc_remaining_cash st)) eqn:E.
    + match goal with
      | |- context [fold_left traditional_body rest ?st'] =>
          destruct (IH st' (S i)) as (H1 & H2 & H3)
      end.
      cbn zeta in *. cbn [acc_vendors_paid acc_savings acc_remaining_cash] in *.
      rewrite H1, H2, H3.
      cbn [List.filter is_scheduled status scheduled_entry length map].
      rewrite pysum_cons, scheduled_total_cons.
      cbn [discount_captured amount is_scheduled status scheduled_entry].
      repeat split; try ring. lia.
    + destruct (IH st (S i)) as (H1 & H2 & H3). cbn zeta in *.
      rewrite H1, H2, H3.
      cbn [List.filter is_scheduled status deferred_entry length map].
      rewrite pysum_cons, scheduled_total_cons.
      cbn [discount_captured is_scheduled status deferred_entry].
      repeat split; try ring.
Qed.

(** X21: a baseline runs the allocator's own admission loop on its
    sequence with a reserve of 20%: it pays exactly the invoices that
    the loop would schedule on that sequence and its savings are the
    discounts that the loop would capture. *)
Theorem baseline_runs_same_loop (available_cash : option Q)
    (sequence : list ScoredInvoice) (method_name : string) :
  let usable_cash := usable_cash_of (get_field available_cash 2500000) (20 # 100) in
  let entries :=
    payment_sequence
      (fold_left loop_body (enumerate sequence)
         {| payment_sequence := []; remaining_cash := usable_cash |}) in
  let results := _calculate_traditional_results available_cash sequence method_name in
  vendors_paid results = length (List.filter is_scheduled entries)
  /\ traditional_savings results == pysum (map discount_captured entries).
Proof.
  cbn zeta. unfold enumerate. rewrite loop_body_appends.
  cbn [payment_sequence remaining_cash app].
  unfold _calculate_traditional_results.
  cbn [vendors_paid traditional_savings].
  match goal with
  | |- context [fold_left traditional_body sequence ?st] =>
      destruct (traditional_fold sequence st 0) as (H1 & H2 & _)
  end.
  cbn zeta in *. cbn [acc_vendors_paid acc_savings acc_remaining_cash] in *.
  rewrite H1, H2. unfold usable_cash_of. split; [reflexivity | ring].
Qed.

Section SortedAscendingFacts.
Context {A : Type} (key : A -> Q).

Lemma insert_asc_perm (x : A) (l : list A) :
  Permutation (x :: l) (insert_asc key x l).
Proof.
  induction l as [| y l IH]; simpl; [reflexivity |].
  destruct (Qltb (key y) (key x)); [| reflexivity].
  rewrite perm_swap. apply perm_skip. exact IH.
Qed.

Lemma sorted_ascending_perm (l : list A) : Permutation l (sorted_ascending key l).
Proof.
  induction l as [| x l IH]; simpl; [reflexivity |].
  rewrite <- insert_asc_perm. apply perm_skip. exact IH.
Qed.

Lemma insert_asc_sorted (x : A) (l : list A) :
  StronglySorted (fun a b => key a <= key b) l ->
  StronglySorted (fun a b => key a <= key b) (insert_asc key x l).
Proof.
  induction 1 as [| y l Hs IH Hy]; simpl; [repeat constructor |].
  destruct (Qltb (key y) (key x)) eqn:E.
  - apply Qltb_lt in E. constructor; [exact IH |].
    apply (Permutation_Forall (insert_asc_perm x l)).
    constructor; [lra | exact Hy].
  - apply Qltb_ge in E. constructor; [constructor; assumption |].
    constructor; [exact E |].
    apply (List.Forall_impl (P := fun b => key y <= key b)); [| exact Hy].
    intros b Hb. lra.
Qed.

Lemma sorted_ascending_sorted (l : list A) :
  StronglySorted (fun a b => key a <= key b) (sorted_ascending key l).
Proof.
  induction l as [| x l IH]; simpl; [constructor |].
  apply insert_asc_sorted. exact IH.
Qed.
End SortedAscendingFacts.

(** ** Data quality and return on investment *)

Lemma source_score_range (entries : nat) :
  50 <= (if Nat.eqb entries 0 then 50 else 90 + inject_Z (Z.of_nat entries) * 2).
Proof.
  destruct (Nat.eqb_spec entries 0) as [_ | Hn]; [lra |].
  assert (0 <= inject_Z (Z.of_nat entries))
    by (change 0 with (inject_Z 0); rewrite <- Zle_Qle; lia).
  lra.
Qed.

(** X23: the data quality score lies between 50 and 100; it is 50 when
    the vendor master, the payment history and the performance metrics
    are all empty, and 100 when each of them has at least 5 entries. *)
Theorem data_quality_score_range (db : Database) :
  50 <= _calculate_data_quality_score db <= 100
  /\ (size (vendor_master db) = 0%nat -> size (payment_history db) = 0%nat ->
      size (performance_metrics db) = 0%nat ->
      _calculate_data_quality_score db == 50)
  /\ ((5 <= size (vendor_master db))%nat -> (5 <= size (payment_history db))%nat ->
      (5 <= size (performance_metrics db))%nat ->
      _calculate_data_quality_score db = 100).
Proof.
  unfold _calculate_data_quality_score. cbn zeta. cbn [length].
  set (a := if Nat.eqb (size (vendor_master db)) 0 then _ else _).
  set (b := if Nat.eqb (size (payment_history db)) 0 then _ else _).
  set (c := if Nat.eqb (size (performance_metrics db)) 0 then _ else _).
  pose proof (source_score_range (size (vendor_master db))) as Ha. fold a in Ha.
  pose proof (source_score_range (size (payment_history db))) as Hb. fold b in Hb.
  pose proof (source_score_range (size (performance_metrics db))) as Hc. fold c in Hc.
  assert (Hs : pysum [a; b; c] / inject_Z (Z.of_nat 3) == (a + b + c) / 3).
  { unfold pysum. cbn [fold_left]. change (inject_Z (Z.of_nat 3)) with 3. field. }
  assert (Hlow : 50 <= (a + b + c) / 3) by (apply Qle_shift_div_l; lra).
  split; [| split].
  - split; [| apply pymin_le]. unfold pymin. destruct (Qltb _ 100); lra.
  - intros H1 H2 H3.
    assert (Ea : a = 50) by (unfold a; rewrite H1; reflexivity).
    assert (Eb : b = 50) by (unfold b; rewrite H2; reflexivity).
    assert (Ec : c = 50) by (unfold c; rewrite H3; reflexivity).
    assert (E : (a + b + c) / 3 == 50) by (rewrite Ea, Eb, Ec; reflexivity).
    rewrite pymin_below; rewrite Hs, E; [reflexivity | reflexivity].
  - intros H1 H2 H3. apply pymin_clamped. rewrite Hs.
    apply Qle_shift_div_l; [lra |].
    assert (Hbig : forall n, (5 <= n)%nat ->
              100 <= (if Nat.eqb n 0 then 50 else 90 + inject_Z (Z.of_nat n) * 2)).
    { intros n Hn. destruct (Nat.eqb_spec n 0); [lia |].
      assert (5 <= inject_Z (Z.of_nat n))
        by (change 5 with (inject_Z 5); rewrite <- Zle_Qle; lia).
      lra. }
    pose proof (Hbig _ H1) as B1. pose proof (Hbig _ H2) as B2.
    pose proof (Hbig _ H3) as B3.
    change (100 <= a) in B1. change (100 <= b) in B2. change (100 <= c) in B3.
    lra.
Qed.

Lemma data_quality_score_range_witness :
  _calculate_data_quality_score empty_database == 50.
Proof. apply (data_quality_score_range empty_database); reflexivity. Defined.

(** X24: the return on investment of the performance analytics is
    positive exactly when the total savings exceed 11,250 (a quarter of
    the implementation cost of 45,000); the payback period is 0 when
    nothing is saved and otherwise 135,000 divided by the savings. *)
Theorem roi_and_payback (payment_sequence : list PaymentSequenceEntry) :
  let metrics := _generate_performance_analytics payment_sequence in
  (0 < roi_percentage metrics <-> 11250 < total_savings metrics)
  /\ (total_savings metrics <= 0 -> payback_period_months metrics = 0)
  /\ (0 < total_savings metrics ->
      payback_period_months metrics * total_savings metrics == 135000).
Proof.
  cbn zeta. unfold _generate_performance_analytics.
  cbn [roi_percentage total_savings payback_period_months].
  set (ts := pysum (map discount_captured payment_sequence)).
  change (Qltb 0 45000) with true. cbv iota.
  split; [| split].
  - assert (E : (ts * 4 - 45000) / 45000 * 100 == (ts - 11250) * (4 # 450)) by field.
    rewrite E. split; intros H.
    + destruct (Qlt_le_dec 11250 ts) as [Hlt | Hle]; [exact Hlt |].
      assert (0 <= (11250 - ts) * (4 # 450)) by (apply Qmult_le_0_compat; lra).
      lra.
    + apply Qmult_lt_0_compat; lra.
  - intros H. destruct (Qltb 0 ts) eqn:E; [apply Qltb_lt in E; lra | reflexivity].
  - intros H. apply Qltb_lt in H as H'. rewrite H'. field. lra.
Qed.

Lemma roi_and_payback_witness :
  payback_period_months (_generate_performance_analytics (allocate 150000 two_invoices))
  * total_savings (_generate_performance_analytics (allocate 150000 two_invoices))
  == 135000.
Proof.
  apply (roi_and_payback (allocate 150000 two_invoices)).
  vm_compute. reflexivity.
Defined.

(** ** The pipeline without a text-analysis client *)

Lemma appended_entries (l : list ScoredInvoice) :
  forall (i : nat) (remaining : Q) (e : PaymentSequenceEntry),
    In e (appended i remaining l) ->
    exists x k, In x l /\ (e = scheduled_entry k x \/ e = deferred_entry k x).
Proof.
  induction l as [| x rest IH]; intros i remaining e H; cbn [appended] in H;
    [contradiction |].
  destruct (Qleb _ _); destruct H as [<- | H].
  1, 3: exists x, i; split; [left; reflexivity | auto].
  all: destruct (IH _ _ _ H) as (y & k & Hy & He); exists y, k;
       split; [right; exact Hy | exact He].
Qed.

(** X25: without a client, a scheduled entry is labelled from the
    vendor's relationship score alone: "strategic_partner" with priority
    "immediate" from a score of 85 on, "standard_vendor" with priority
    "medium" below; a deferred entry carries neither label. *)
Theorem offline_labels_follow_score (db : Database) (now : Z) (usable_cash : Q)
    (invoice_batch : list Invoice) (e : PaymentSequenceEntry) :
  In e (allocate usable_cash (map (score_invoice db now) invoice_batch)) ->
  match status e with
  | scheduled =>
      (85 <= vrs_score e
       /\ strategic_impact e = Some "strategic_partner"%string
       /\ payment_priority e = Some "immediate"%string)
      \/ (vrs_score e < 85
          /\ strategic_impact e = Some "standard_vendor"%string
          /\ payment_priority e = Some "medium"%string)
  | deferred => strategic_impact e = None /\ payment_priority e = None
  end.
Proof.
  intros H. rewrite allocate_appended in H.
  apply appended_entries in H as (x & k & Hx & He).
  apply (Permutation_in _ (Permutation_sym (sorted_reverse_perm bv _))) in Hx.
  apply in_map_iff in Hx as (inv & <- & _).
  destruct He as [-> | ->];
    cbn [status scheduled_entry deferred_entry vrs_score strategic_impact
         payment_priority]; [| split; reflexivity].
  unfold score_invoice. cbn [ai_analysis vrs_components].
  unfold _generate_fallback_analysis.
  cbv beta iota delta [get_field default from_option id].
  destruct (Qleb 85 (final_vrs (calculate_vrs db (inv_vendor_id inv)))) eqn:E.
  - left. apply Qleb_le in E. split; [exact E | split; reflexivity].
  - right. apply Qleb_gt in E. split; [exact E | split; reflexivity].
Qed.

Lemma offline_labels_follow_score_witness :
  strategic_impact
    (scheduled_entry 0 (score_invoice empty_database (midnight 739005) invoice_a))
  = Some "standard_vendor"%string.
Proof.
  pose proof (offline_labels_follow_score empty_database (midnight 739005) 150000
                [invoice_b; invoice_a]
                (scheduled_entry 0
                   (score_invoice empty_database (midnight 739005) invoice_a))) as H.
  cbn [status scheduled_entry] in H.
  destruct H as [(H & _) | (_ & H & _)].
  - vm_compute. left. reflexivity.
  - exfalso. vm_compute in H. apply H. reflexivity.
  - exact H.
Defined.

(** ** Negotiation strategies *)


Lemma strategies_snoc (l : list ScoredInvoice) (y : ScoredInvoice) :
  _generate_negotiation_strategies (l ++ [y])
  = if Qltb 70 (final_vrs (vrs_components y))
    then <[vendor_id y := y]> (_generate_negotiation_strategies l)
    else _generate_negotiation_strategies l.
Proof. unfold _generate_negotiation_strategies. rewrite fold_left_app. reflexivity. Qed.

Lemma strategies_lookup (v : string) (l : list ScoredInvoice) :
  match _generate_negotiation_strategies l !! v with
  | Some x =>
      exists l1 l2, l = l1 ++ x :: l2 /\ qualifies v x
                    /\ Forall (fun y => ~ qualifies v y) l2
  | None => Forall (fun y => ~ qualifies v y) l
  end.
Proof.
  induction l as [| y l IH] using rev_ind.
  - cbn. constructor.
  - rewrite strategies_snoc.
    destruct (Qltb 70 (final_vrs (vrs_components y))) eqn:E.
    + apply Qltb_lt in E. destruct (decide (vendor_id y = v)) as [Hv | Hv].
      * rewrite <- Hv, lookup_insert_eq. exists l, [].
        split; [reflexivity |]. split; [split; [reflexivity | exact E] | constructor].
      * rewrite lookup_insert_ne by exact Hv.
        destruct (_generate_negotiation_strategies l !! v) as [x |].
        -- destruct IH as (l1 & l2 & -> & Hq & Hn). exists l1, (l2 ++ [y]).
           split; [rewrite <- app_assoc; reflexivity |]. split; [exact Hq |].
           apply Forall_app. split; [exact Hn |].
           constructor; [| constructor]. intros [Hy _]. contradiction.
        -- apply Forall_app. split; [exact IH |].
           constructor; [| constructor]. intros [Hy _]. contradiction.
    + apply Qltb_ge in E.
      assert (Hy : ~ qualifies v y) by (intros [_ Hy]; lra).
      destruct (_generate_negotiation_strategies l !! v) as [x |].
      * destruct IH as (l1 & l2 & -> & Hq & Hn). exists l1, (l2 ++ [y]).
        split; [rewrite <- app_assoc; reflexivity |]. split; [exact Hq |].
        apply Forall_app. split; [exact Hn | constructor; [exact Hy | constructor]].
      * apply Forall_app. split; [exact IH | constructor; [exact Hy | constructor]].
Qed.

(** X26: a vendor gets a negotiation strategy exactly when one of its
    scored invoices has a relationship score above 70 (a score of 70
    itself does not count), and the strategy kept is built from the last
    such invoice of the batch. *)
Theorem negotiation_strategies_keys (scored_invoices : list ScoredInvoice)
    (v : string) :
  (is_Some (_generate_negotiation_strategies scored_invoices !! v)
   <-> exists x, In x scored_invoices /\ qualifies v x)
  /\ (forall x,
        _generate_negotiation_strategies scored_invoices !! v = Some x ->
        exists l1 l2,
          scored_invoices = l1 ++ x :: l2 /\ qualifies v x
          /\ Forall (fun y => ~ qualifies v y) l2).
Proof.
  pose proof (strategies_lookup v scored_invoices) as H.
  destruct (_generate_negotiation_strategies scored_invoices !! v) as [x |].
  - destruct H as (l1 & l2 & -> & Hq & Hn). split.
    + split; [| eauto]. intros _. exists x. split; [| exact Hq].
      apply in_or_app. right. left. reflexivity.
    + intros x' E. injection E as <-. exists l1, l2. auto.
  - split; [| discriminate]. split.
    + intros [x Hx]. discriminate Hx.
    + intros (x & Hin & Hq). rewrite List.Forall_forall in H.
      exfalso. exact (H x Hin Hq).
Qed.

Lemma negotiation_strategies_keys_witness :
  ~ is_Some (_generate_negotiation_strategies two_invoices !! "V001"%string).
Proof.
  intros H.
  apply (proj1 (proj1 (negotiation_strategies_keys two_invoices "V001"))) in H.
  destruct H as (x & Hin & _ & Hq).
  destruct Hin as [<- | [<- | []]]; vm_compute in Hq; discriminate Hq.
Defined.

(** ** The processing summary of a comparison *)

Section ProcessingSummary.
Import ModeComparer.
Context {World Results Analysis : Type}.
Variable pipeline : string -> @M World Results.
Variable comparison : gmap string (ModeResult Results) -> @M World Analysis.

Lemma count_success_failed (l : list (ModeResult Results)) :
  (length (List.filter is_success l) + length (List.filter is_failed l))%nat = length l.
Proof.
  induction l as [| [r | e] l IH]; cbn [List.filter is_success is_failed length]; lia.
Qed.

Lemma record_size (trace : list (string * Outcome Results)) :
  forall d : gmap string (ModeResult Results),
    (size (fold_left record trace d) <= size d + length trace)%nat
    /\ (NoDup (map fst trace) ->
        (forall k, In k (map fst trace) -> d !! k = None) ->
        size (fold_left record trace d) = (size d + length trace)%nat).
Proof.
  induction trace as [| [m o] trace IH]; intros d.
  - cbn. split; [lia | intros; lia].
  - cbn [fold_left length map fst]. destruct (IH (record d (m, o))) as [H1 H2].
    unfold record in H1, H2 |- *. cbn [fst snd] in *. split.
    + pose proof (map_size_insert m (recorded o) d) as Hs.
      destruct (d !! m); cbn in Hs; lia.
    + intros Hnd Hfresh. apply NoDup_cons in Hnd as [Hm Hnd].
      rewrite H2.
      * rewrite map_size_insert_None; [lia |]. apply Hfresh. left. reflexivity.
      * exact Hnd.
      * intros k Hk. rewrite lookup_insert_ne.
        -- apply Hfresh. right. exact Hk.
        -- intros ->. apply Hm. apply list_elem_of_In. exact Hk.
Qed.

(** X27: in the result of [compare_modes], the numbers of successful and
    failed modes add up to the number of distinct mode names, which is
    at most the number of modes requested and equal to it when no name
    is listed twice. *)
Theorem processing_summary_counts (modes : list string) (w w' : World)
    (summary : Comparison Results Analysis) :
  compare_modes pipeline comparison modes w = (Return summary, w') ->
  modes_requested summary = length modes
  /\ (modes_successful summary + modes_failed summary)%nat
     = size (ModeComparer.mode_results summary)
  /\ (size (ModeComparer.mode_results summary) <= modes_requested summary)%nat
  /\ (NoDup modes ->
      (modes_successful summary + modes_failed summary)%nat
      = modes_requested summary).
Proof.
  unfold compare_modes, bind at 1. rewrite for_each_mode_calls.
  unfold bind, ret.
  destruct (comparison _ _) as [[analysis | e] w1]; [| discriminate].
  intros E. injection E as <- _.
  cbn [modes_requested modes_successful modes_failed ModeComparer.mode_results].
  set (trace := fst (calls pipeline modes w)).
  pose proof (calls_modes pipeline modes w) as Hm. fold trace in Hm.
  assert (Hcount :
            (count_values is_success (fold_left record trace ∅)
             + count_values is_failed (fold_left record trace ∅))%nat
            = size (fold_left record trace ∅)).
  { unfold count_values. rewrite count_success_failed, length_map.
    apply length_map_to_list. }
  destruct (record_size trace ∅) as [Hle Heq].
  rewrite map_size_empty in Hle, Heq.
  assert (Hlen : length trace = length modes)
    by (rewrite <- Hm, length_map; reflexivity).
  repeat split; try lia.
  intros Hnd. rewrite Hcount, Heq; [lia | |].
  - rewrite Hm. exact Hnd.
  - intros k _. apply lookup_empty.
Qed.
End ProcessingSummary.

Lemma processing_summary_counts_witness :
  exists summary w',
    ModeComparer.compare_modes flaky_pipeline count_modes
      ["balanced"; "ipo"; "balanced"]%string 0%nat
    = (ModeComparer.Return summary, w')
    /\ ModeComparer.modes_requested summary = 3%nat
    /\ (ModeComparer.modes_successful summary
        + ModeComparer.modes_failed summary)%nat
       = size (ModeComparer.mode_results summary).
Proof.
  destruct (ModeComparer.compare_modes flaky_pipeline count_modes
              ["balanced"; "ipo"; "balanced"]%string 0%nat)
    as [[summary | e] w'] eqn:E; [| vm_compute in E; discriminate E].
  exists summary, w'. split; [reflexivity |].
  destruct (processing_summary_counts flaky_pipeline count_modes _ _ _ _ E)
    as (H1 & H2 & _).
  split; [exact H1 | exact H2].
Defined.

(** ** Loading the data files *)

Section LoadingFacts.
Import DataLoading.
Context {J : Type}.
Variable empty_dict : J.
Variable files : string -> FileState J.

Lemma load_files_app (a b : list string) (st : LoadState J) :
  load_files empty_dict files (a ++ b) st
  = match load_files empty_dict files a st with
    | Loaded st' => load_files empty_dict files b st'
    | UnboundLocalError => UnboundLocalError
    | Uncaught => Uncaught
    end.
Proof.
  revert st. induction a as [| f a IH]; intros st; cbn [app load_files]; [reflexivity |].
  destruct (load_file empty_dict files st f); [apply IH | reflexivity | reflexivity].
Qed.

(** A key that is neither the bound [key] nor the stem of a file read
    keeps its value and does not become the bound [key]. *)
Lemma load_files_frame (filenames : list string) :
  forall (st st' : LoadState J) (k : string),
    load_files empty_dict files filenames st = Loaded st' ->
    ~ In k (map stem filenames) -> key st <> Some k ->
    database st' !! k = database st !! k /\ key st' <> Some k.
Proof.
  induction filenames as [| f rest IH]; intros st st' k H Hk Hkey;
    cbn [load_files] in H.
  - injection H as <-. auto.
  - cbn [map] in Hk.
    assert (Hf : stem f <> k) by (intros E; apply Hk; left; exact E).
    assert (Hrest : ~ In k (map stem rest)) by (intros E; apply Hk; right; exact E).
    unfold load_file in H.
    destruct (files f) as [| | | content]; [destruct (key st) as [k0 |] eqn:Ek |..];
      try discriminate H.
    all: destruct (IH _ _ k H Hrest) as [H1 H2];
      cbn [key database] in *; try congruence.
    all: split; [| exact H2]; rewrite H1; apply lookup_insert_ne; congruence.
Qed.

(** A bound [key] that holds [{}] still holds it at the end when no
    later file has it as its stem. *)
Lemma load_files_keeps_empty (filenames : list string) :
  forall (st st' : LoadState J) (k : string),
    load_files empty_dict files filenames st = Loaded st' ->
    ~ In k (map stem filenames) ->
    key st = Some k -> database st !! k = Some empty_dict ->
    database st' !! k = Some empty_dict.
Proof.
  induction filenames as [| f rest IH]; intros st st' k H Hk Hkey Hv;
    cbn [load_files] in H.
  - injection H as <-. exact Hv.
  - cbn [map] in Hk.
    assert (Hf : stem f <> k) by (intros E; apply Hk; left; exact E).
    assert (Hrest : ~ In k (map stem rest)) by (intros E; apply Hk; right; exact E).
    unfold load_file in H. rewrite Hkey in H.
    destruct (files f) as [| | | content]; [| | discriminate H |].
    + apply (IH _ _ k H Hrest); cbn [key database]; [reflexivity |].
      apply lookup_insert_eq.
    + destruct (load_files_frame rest _ _ k H Hrest) as [H1 _];
        cbn [key database] in *; [congruence |].
      rewrite H1, lookup_insert_ne by exact Hf. exact Hv.
    + destruct (load_files_frame rest _ _ k H Hrest) as [H1 _];
        cbn [key database] in *; [congruence |].
      rewrite H1, lookup_insert_ne by exact Hf. exact Hv.
Qed.

Lemma load_files_present (filenames : list string) :
  List.NoDup (map stem filenames) ->
  Forall (fun f => files f <> Missing /\ files f <> Unreadable) filenames ->
  forall st : LoadState J,
    exists st',
      load_files empty_dict files filenames st = Loaded st'
      /\ (forall f, In f filenames ->
            database st' !! stem f = Some (stored empty_dict (files f)))
      /\ (forall k, ~ In k (map stem filenames) ->
            database st' !! k = database st !! k).
Proof.
  induction filenames as [| f rest IH]; intros Hnd Hall st.
  - exists st. split; [reflexivity |]. split; [intros f [] | reflexivity].
  - cbn [map] in Hnd. inversion Hnd as [| ? ? Hf Hnd']; subst.
    inversion Hall as [| ? ? Hpresent Hall']; subst.
    cbn [load_files]. unfold load_file.
    set (st1 := {| database := <[stem f := stored empty_dict (files f)]> (database st);
                   key := Some (stem f) |}).
    assert (E : match files f with
                | Parsed content =>
                    Loaded {| database := <[stem f := content]> (database st);
                              key := Some (stem f) |}
                | Malformed =>
                    Loaded {| database := <[stem f := empty_dict]> (database st);
                              key := Some (stem f) |}
                | Missing =>
                    match key st with
                    | Some k0 =>
                        Loaded {| database := <[k0 := empty_dict]> (database st);
                                  key := Some k0 |}
                    | None => UnboundLocalError
                    end
                | Unreadable => Uncaught
                end = Loaded st1).
    { unfold st1. destruct Hpresent as [Hm Hu].
      destruct (files f); [contradiction | reflexivity | contradiction | reflexivity]. }
    rewrite E. destruct (IH Hnd' Hall' st1) as (st' & Hload & Hin & Hout).
    exists st'. split; [exact Hload |]. split.
    + intros g [<- | Hg]; [| apply Hin; exact Hg].
      rewrite (Hout _ Hf). unfold st1. cbn [database]. apply lookup_insert_eq.
    + intros k Hk. rewrite Hout by (intros Hk'; apply Hk; right; exact Hk').
      unfold st1. cbn [database]. apply lookup_insert_ne.
      intros E'. apply Hk. left. exact E'.
Qed.

Lemma required_stems_distinct : List.NoDup (map stem required_files).
Proof.
  unfold required_files. cbn [map].
  repeat (constructor; [vm_compute; intuition discriminate |]). constructor.
Qed.

(** X28: when each of the eight data files can be opened and decoded
    (none is missing and none raises an exception other than
    [JSONDecodeError]), loading returns and fills exactly the eight keys
    (the file names without [.json]): each holds the content of its
    file, or [{}] if the file is not valid JSON, and the configuration
    is what [organization_config] holds. *)
Theorem load_all_data_when_present :
  Forall (fun f => files f <> Missing /\ files f <> Unreadable) required_files ->
  exists db config,
    _load_all_data empty_dict files = Loaded (db, config)
    /\ (forall f, In f required_files ->
          db !! stem f = Some (stored empty_dict (files f)))
    /\ (forall k, ~ In k (map stem required_files) -> db !! k = None)
    /\ config = stored empty_dict (files "organization_config.json"%string).
Proof.
  intros Hall. unfold _load_all_data.
  destruct (load_files_present required_files required_stems_distinct Hall
              {| database := ∅; key := None |}) as (st' & Hload & Hin & Hout).
  rewrite Hload. eexists _, _. split; [reflexivity |]. split; [exact Hin |]. split.
  - intros k Hk. rewrite (Hout k Hk). apply lookup_empty.
  - unfold get.
    change "organization_config"%string with (stem "organization_config.json").
    rewrite Hin; [reflexivity |]. vm_compute. tauto.
Qed.

(** X29: a missing data file is not given an empty dictionary of its
    own.  If the first file is missing, loading raises
    [UnboundLocalError]; if loading ends and a file is missing whose
    predecessor in the list could be opened, the missing file's key is
    left absent and the predecessor's key holds [{}] instead of what was
    read. *)
Theorem load_all_data_missing_file :
  (files "invoices_input.json"%string = Missing ->
   _load_all_data empty_dict files = UnboundLocalError)
  /\ (forall db config l1 l2 previous missing,
        _load_all_data empty_dict files = Loaded (db, config) ->
        required_files = l1 ++ previous :: missing :: l2 ->
        files previous <> Missing -> files missing = Missing ->
        db !! stem missing = None /\ db !! stem previous = Some empty_dict).
Proof.
  split.
  - intros H. unfold _load_all_data, required_files. cbn [load_files].
    unfold load_file at 1. rewrite H. reflexivity.
  - intros db config l1 l2 previous missing Hload Hsplit Hprev Hmiss.
    unfold _load_all_data in Hload.
    pose proof required_stems_distinct as Hnd.
    rewrite Hsplit in Hload, Hnd.
    rewrite map_app in Hnd. cbn [map] in Hnd.
    apply NoDup_remove in Hnd as [Hnd Hp].
    apply NoDup_remove in Hnd as [_ Hm].
    rewrite load_files_app in Hload.
    destruct (load_files empty_dict files l1 _) as [st1 | |] eqn:E1;
      [| discriminate | discriminate].
    destruct (load_files_frame l1 _ _ (stem missing) E1) as [Hm1 _];
      [intros Hin; apply Hm, in_or_app; left; exact Hin | discriminate |].
    cbn [load_files] in Hload. unfold load_file at 1 in Hload.
    set (st2 := {| database := <[stem previous := stored empty_dict (files previous)]>
                                 (database st1);
                   key := Some (stem previous) |}).
    assert (E2 : match files previous with
                 | Parsed content =>
                     Loaded {| database := <[stem previous := content]> (database st1);
                               key := Some (stem previous) |}
                 | Malformed =>
                     Loaded {| database := <[stem previous := empty_dict]> (database st1);
                               key := Some (stem previous) |}
                 | Missing =>
                     match key st1 with
                     | Some k0 =>
                         Loaded {| database := <[k0 := empty_dict]> (database st1);
                                   key := Some k0 |}
                     | None => UnboundLocalError
                     end
                 | Unreadable => Uncaught
                 end = Loaded st2).
    { unfold st2. destruct (files previous) eqn:Eprev;
        [contradiction | reflexivity | discriminate Hload | reflexivity]. }
    rewrite E2 in Hload. unfold load_file at 1 in Hload. rewrite Hmiss in Hload.
    cbn [key st2] in Hload.
    destruct (load_files empty_dict files l2 _) as [st3 | |] eqn:E3;
      [| discriminate | discriminate].
    injection Hload as <- _.
    assert (Hne : stem previous <> stem missing).
    { intros E. apply Hp. apply in_or_app. right. left. symmetry. exact E. }
    split.
    + destruct (load_files_frame l2 _ _ (stem missing) E3) as [H3 _].
      * intros Hin. apply Hm, in_or_app. right. exact Hin.
      * cbn [key]. congruence.
      * rewrite H3. cbn [database st2].
        rewrite !lookup_insert_ne by exact Hne. rewrite Hm1. apply lookup_empty.
    + apply (load_files_keeps_empty l2 _ _ (stem previous) E3).
      * intros Hin. apply Hp, in_or_app. right. right. exact Hin.
      * reflexivity.
      * cbn [database]. apply lookup_insert_eq.
Qed.
End LoadingFacts.

Lemma load_all_data_when_present_witness :
  exists db config,
    DataLoading._load_all_data "{}"%string complete_directory
      = DataLoading.Loaded (db, config)
    /\ db !! "vendor_master"%string = Some "vendor_master.json"%string
    /\ db !! "market_intelligence"%string = Some "{}"%string.
Proof.
  destruct (load_all_data_when_present "{}"%string complete_directory)
    as (db & config & Hload & Hin & _).
  - repeat constructor; discriminate.
  - exists db, config. split; [exact Hload |]. split.
    + apply (Hin "vendor_master.json"%string). vm_compute. tauto.
    + apply (Hin "market_intelligence.json"%string). vm_compute. tauto.
Defined.

Lemma load_all_data_missing_file_witness :
  exists db config,
    DataLoading._load_all_data "{}"%string sample_directory
      = DataLoading.Loaded (db, config)
    /\ db !! "communication_logs"%string = None
    /\ db !! "payment_history"%string = Some "{}"%string.
Proof.
  destruct (DataLoading._load_all_data "{}"%string sample_directory)
    as [[db config] | |] eqn:E; [| vm_compute in E; discriminate E ..].
  exists db, config. split; [reflexivity |].
  apply (proj2 (load_all_data_missing_file "{}"%string sample_directory)
           db config
           ["invoices_input.json"; "vendor_master.json"]%string
           ["performance_metrics.json"; "market_intelligence.json";
            "organization_config.json"; "financial_parameters.json"]%string
           "payment_history.json"%string "communication_logs.json"%string E);
    [reflexivity | discriminate | reflexivity].
Defined.

(** ** Comparing the results of the modes *)

Section ModeComparisonFacts.
Import ModeComparer ModeComparison.

Lemma max_by_spec {A} (key : A -> Q) (rest : list A) :
  forall first : A,
    let best := max_by key first rest in
    In best (first :: rest) /\ Forall (fun x => key x <= key best) (first :: rest).
Proof.
  unfold max_by. induction rest as [| x rest IH]; intros first; cbn zeta.
  - cbn [fold_left]. split; [left; reflexivity |]. constructor; [lra | constructor].
  - cbn [fold_left].
    destruct (Qltb (key first) (key x)) eqn:E.
    + apply Qltb_lt in E. destruct (IH x) as [Hin Hall]. cbn zeta in *.
      split; [right; exact Hin |].
      inversion Hall as [| ? ? Hx Hrest]; subst.
      constructor; [lra | constructor; assumption].
    + apply Qltb_ge in E. destruct (IH first) as [Hin Hall]. cbn zeta in *.
      split; [destruct Hin as [<- | Hin]; [left; reflexivity | right; right; exact Hin] |].
      inversion Hall as [| ? ? Hf Hrest]; subst.
      constructor; [exact Hf | constructor; [lra | exact Hrest]].
Qed.

Lemma next_key_found (key : ComparisonRow -> Q) (target : Q)
    (rows : list (string * ComparisonRow)) (row : ComparisonRow) :
  In row (map snd rows) -> key row == target ->
  exists k row',
    next_key key target rows = Return k /\ In (k, row') rows /\ key row' == target.
Proof.
  intros Hin Hk. unfold next_key.
  destruct (List.find _ rows) as [[k row'] |] eqn:E.
  - apply find_some in E as [Hin' Heq]. cbn [snd] in Heq.
    exists k, row'. repeat split; [exact Hin' | apply Qeq_bool_iff; exact Heq].
  - apply in_map_iff in Hin as ([k0 r0] & <- & Hin0).
    pose proof (find_none _ _ E _ Hin0) as Hn. cbn [snd] in Hn, Hk.
    apply Qeq_bool_iff in Hk. congruence.
Qed.

Lemma comparison_rows_spec (successful : list (string * ModeRun)) :
  (Forall (fun kv => ~ available_cash (snd kv) == 0) successful ->
   exists rows,
     comparison_rows successful = Return rows
     /\ map fst rows = map fst successful
     /\ map (fun kv => total_savings (snd kv)) rows
        = map (fun kv => potential_savings (snd kv)) successful
     /\ map (fun kv => average_vrs (snd kv)) rows
        = map (fun kv => average_vrs_score (snd kv)) successful)
  /\ (Exists (fun kv => available_cash (snd kv) == 0) successful ->
      comparison_rows successful = Raise "division by zero").
Proof.
  induction successful as [| [mode results] rest [IHok IHbad]]; split.
  - intros _. exists []. repeat split.
  - intros H. inversion H.
  - intros H. inversion H as [| ? ? Hcash Hrest]; subst. cbn [snd] in Hcash.
    destruct (IHok Hrest) as (rows & E & H1 & H2 & H3).
    cbn [comparison_rows]. unfold divide.
    destruct (Qeq_bool (available_cash results) 0) eqn:Ez;
      [apply Qeq_bool_iff in Ez; contradiction |].
    rewrite E. eexists. split; [reflexivity |].
    cbn [map fst snd total_savings average_vrs]. rewrite H1, H2, H3. repeat split.
  - intros H. cbn [comparison_rows]. unfold divide.
    destruct (Qeq_bool (available_cash results) 0) eqn:Ez; [reflexivity |].
    inversion H as [? ? Hz | ? ? Hrest]; subst.
    + cbn [snd] in Hz. apply Qeq_bool_iff in Hz. congruence.
    + rewrite (IHbad Hrest). reflexivity.
Qed.

(** X30: the comparison of the modes (a) reports that there is nothing
    to compare when no mode succeeded, (b) raises a division by zero as
    soon as one successful mode has an available cash of 0, and (c)
    otherwise has one row per successful mode, in order, and names as
    best a mode whose savings (respectively average relationship score)
    no other successful mode exceeds. *)
Theorem mode_comparison_outcomes (mode_results : list (string * ModeResult ModeRun)) :
  (successful_modes mode_results = [] ->
   _generate_mode_comparison mode_results = Return NoSuccessfulMode)
  /\ (Exists (fun kv => available_cash (snd kv) == 0) (successful_modes mode_results) ->
      _generate_mode_comparison mode_results = Raise "division by zero")
  /\ (successful_modes mode_results <> [] ->
      Forall (fun kv => ~ available_cash (snd kv) == 0) (successful_modes mode_results) ->
      exists rows best,
        _generate_mode_comparison mode_results = Return (Compared rows (Some best))
        /\ map fst rows = map fst (successful_modes mode_results)
        /\ (exists row, In (highest_savings_mode best, row) rows
                        /\ total_savings row == highest_savings best)
        /\ Forall (fun kv => total_savings (snd kv) <= highest_savings best) rows
        /\ (exists row, In (highest_vrs_mode best, row) rows
                        /\ average_vrs row == highest_vrs best)
        /\ Forall (fun kv => average_vrs (snd kv) <= highest_vrs best) rows).
Proof.
  unfold _generate_mode_comparison.
  destruct (comparison_rows_spec (successful_modes mode_results)) as [Hok Hbad].
  destruct (successful_modes mode_results) as [| s0 srest] eqn:Es.
  - split; [reflexivity |]. split; [intros H; inversion H | intros H; contradiction].
  - split; [discriminate |]. split.
    + intros H. rewrite (Hbad H). reflexivity.
    + intros _ H. destruct (Hok H) as (rows & E & Hkeys & _). rewrite E.
      destruct rows as [| first rest]; [discriminate Hkeys |].
      destruct (max_by_spec total_savings (map snd rest) (snd first)) as [Sin Sall].
      destruct (max_by_spec average_vrs (map snd rest) (snd first)) as [Vin Vall].
      cbn zeta in *.
      change (snd first :: map snd rest) with (map snd (first :: rest)) in *.
      destruct (next_key_found total_savings _ (first :: rest) _ Sin (Qeq_refl _))
        as (ks & rs & Es' & Hs1 & Hs2).
      destruct (next_key_found average_vrs _ (first :: rest) _ Vin (Qeq_refl _))
        as (kv & rv & Ev' & Hv1 & Hv2).
      rewrite Es', Ev'. eexists _, _. split; [reflexivity |].
      cbn [highest_savings_mode highest_savings highest_vrs_mode highest_vrs].
      split; [exact Hkeys |].
      split; [exists rs; split; assumption |].
      split; [rewrite List.Forall_map in Sall; exact Sall |].
      split; [exists rv; split; assumption |].
      rewrite List.Forall_map in Vall. exact Vall.
Qed.
End ModeComparisonFacts.

Lemma mode_comparison_outcomes_witness :
  exists rows best,
    ModeComparison._generate_mode_comparison sample_mode_results
      = ModeComparer.Return (ModeComparison.Compared rows (Some best))
    /\ ModeComparison.highest_savings_mode best = "balanced"%string
    /\ Forall (fun kv => ModeComparison.total_savings (snd kv)
                         <= ModeComparison.highest_savings best) rows.
Proof.
  destruct (proj2 (proj2 (mode_comparison_outcomes sample_mode_results)))
    as (rows & best & E & _ & _ & Hall & _).
  - discriminate.
  - repeat constructor; vm_compute; discriminate.
  - exists rows, best. split; [exact E |]. split; [| exact Hall].
    vm_compute in E. injection E as _ <-. reflexivity.
Defined.

(** * The allocation in binary64 *)

(** ** Binary64 numbers: order and sign *)

Section Binary64Order.
Local Open Scope Z_scope.

Lemma SFcompare_rank (x y : spec_float) :
  SFis_nan x = false -> SFis_nan y = false ->
  exists c, SFcompare x y = Some c
    /\ (c = Lt <-> rank_lt (rank x) (rank y))
    /\ (c = Eq <-> rank x = rank y)
    /\ (c = Gt <-> rank_lt (rank y) (rank x)).
Proof.
  intros Hx Hy.
  destruct x as [sx | sx | | sx mx ex], y as [sy | sy | | sy my ey];
    try discriminate; try destruct sx; try destruct sy;
    cbn [SFcompare rank rank_lt];
    try change (Pos.compare_cont Eq mx my) with (Pos.compare mx my);
    try (destruct (Z.compare_spec ex ey) as [E | E | E];
         [destruct (Pos.compare_spec mx my) as [E' | E' | E'] | |]);
    (eexists; split; [reflexivity |]); cbn [CompOpp];
    repeat split; intros H; try discriminate H; try reflexivity;
    try (injection H; intros; lia); try lia; try (subst; reflexivity).
Qed.

Lemma SFleb_rank (x y : spec_float) :
  SFleb x y = true
  <-> SFis_nan x = false /\ SFis_nan y = false
      /\ (rank_lt (rank x) (rank y) \/ rank x = rank y).
Proof.
  unfold SFleb. split.
  - intros H.
    assert (Hx : SFis_nan x = false) by (destruct x; try reflexivity; discriminate H).
    assert (Hy : SFis_nan y = false)
      by (destruct x, y; try reflexivity; discriminate H).
    destruct (SFcompare_rank x y Hx Hy) as (c & E & HLt & HEq & HGt).
    rewrite E in H. repeat split; try assumption.
    destruct c; [right; apply HEq | left; apply HLt | discriminate H]; reflexivity.
  - intros (Hx & Hy & H).
    destruct (SFcompare_rank x y Hx Hy) as (c & E & HLt & HEq & HGt).
    rewrite E. destruct H as [H | H].
    + apply HLt in H. subst c. reflexivity.
    + apply HEq in H. subst c. reflexivity.
Qed.

Lemma SFltb_rank (x y : spec_float) :
  SFltb x y = true
  <-> SFis_nan x = false /\ SFis_nan y = false /\ rank_lt (rank x) (rank y).
Proof.
  unfold SFltb. split.
  - intros H.
    assert (Hx : SFis_nan x = false) by (destruct x; try reflexivity; discriminate H).
    assert (Hy : SFis_nan y = false)
      by (destruct x, y; try reflexivity; discriminate H).
    destruct (SFcompare_rank x y Hx Hy) as (c & E & HLt & HEq & HGt).
    rewrite E in H. repeat split; try assumption.
    destruct c; try discriminate H. apply HLt. reflexivity.
  - intros (Hx & Hy & H).
    destruct (SFcompare_rank x y Hx Hy) as (c & E & HLt & HEq & HGt).
    rewrite E. apply HLt in H. subst c. reflexivity.
Qed.

Lemma SFeqb_rank (x y : spec_float) :
  SFeqb x y = true
  <-> SFis_nan x = false /\ SFis_nan y = false /\ rank x = rank y.
Proof.
  unfold SFeqb. split.
  - intros H.
    assert (Hx : SFis_nan x = false) by (destruct x; try reflexivity; discriminate H).
    assert (Hy : SFis_nan y = false)
      by (destruct x, y; try reflexivity; discriminate H).
    destruct (SFcompare_rank x y Hx Hy) as (c & E & HLt & HEq & HGt).
    rewrite E in H. repeat split; try assumption.
    destruct c; try discriminate H. apply HEq. reflexivity.
  - intros (Hx & Hy & H).
    destruct (SFcompare_rank x y Hx Hy) as (c & E & HLt & HEq & HGt).
    rewrite E. apply HEq in H. subst c. reflexivity.
Qed.

Lemma rank_lt_trans (a b c : Z * Z * Z) :
  rank_lt a b \/ a = b -> rank_lt b c \/ b = c -> rank_lt a c \/ a = c.
Proof.
  destruct a as [[a1 a2] a3], b as [[b1 b2] b3], c as [[c1 c2] c3]. cbn [rank_lt].
  intros [H1 | H1] [H2 | H2]; try (injection H1 as -> -> ->);
    try (injection H2 as -> -> ->); auto; left; lia.
Qed.

Lemma rank_total (a b : Z * Z * Z) : rank_lt a b \/ a = b \/ rank_lt b a.
Proof.
  destruct a as [[a1 a2] a3], b as [[b1 b2] b3]. cbn [rank_lt].
  destruct (Z.lt_total a1 b1) as [H | [H | H]]; [lia | | lia].
  destruct (Z.lt_total a2 b2) as [H2 | [H2 | H2]]; [lia | | lia].
  destruct (Z.lt_total a3 b3) as [H3 | [H3 | H3]]; [lia | | lia].
  subst. auto.
Qed.

Lemma rank_lt_irrefl (a b : Z * Z * Z) : rank_lt a b -> a = b -> False.
Proof.
  destruct a as [[a1 a2] a3], b as [[b1 b2] b3]. cbn [rank_lt].
  intros H E. injection E as -> -> ->. lia.
Qed.

(** *** The order of binary64 numbers *)

Lemma is_nan_spec (x : float) : is_nan x = SFis_nan (Prim2SF x).
Proof.
  unfold is_nan. rewrite FloatAxioms.eqb_spec. unfold SFeqb.
  destruct (Prim2SF x) as [s | s | | s m e]; try destruct s; cbn; try reflexivity.
  all: rewrite Z.compare_refl; change (Pos.compare_cont Eq m m) with (Pos.compare m m);
    rewrite Pos.compare_refl; reflexivity.
Qed.

Lemma leb_trans (x y z : float) :
  (x <=? y)%float = true -> (y <=? z)%float = true -> (x <=? z)%float = true.
Proof.
  rewrite !FloatAxioms.leb_spec, !SFleb_rank. intros (Hx & Hy & H1) (_ & Hz & H2).
  repeat split; try assumption. apply (rank_lt_trans _ _ _ H1 H2).
Qed.

Lemma ltb_leb (x y : float) : (x <? y)%float = true -> (x <=? y)%float = true.
Proof.
  rewrite FloatAxioms.ltb_spec, FloatAxioms.leb_spec, SFltb_rank, SFleb_rank. intros (Hx & Hy & H). auto.
Qed.

Lemma ltb_false_leb (x y : float) :
  is_nan x = false -> is_nan y = false ->
  (x <? y)%float = false -> (y <=? x)%float = true.
Proof.
  rewrite !is_nan_spec, FloatAxioms.ltb_spec, FloatAxioms.leb_spec. intros Hx Hy H.
  apply SFleb_rank. repeat split; try assumption.
  destruct (rank_total (rank (Prim2SF x)) (rank (Prim2SF y))) as [Hlt | [Heq | Hgt]]; auto.
  assert (E : SFltb (Prim2SF x) (Prim2SF y) = true) by (apply SFltb_rank; auto).
  congruence.
Qed.

Lemma eqb_ltb (x y v : float) :
  (x =? v)%float = true -> (y =? v)%float = true -> (x <? y)%float = false.
Proof.
  rewrite !FloatAxioms.eqb_spec, FloatAxioms.ltb_spec, !SFeqb_rank. intros (Hx & Hv & H1) (Hy & _ & H2).
  destruct (SFltb (Prim2SF x) (Prim2SF y)) eqn:E; [| reflexivity].
  apply SFltb_rank in E as (_ & _ & E). exfalso.
  apply (rank_lt_irrefl _ _ E). congruence.
Qed.

(** *** The sign of a difference *)

Lemma digits2_pos_bounds (m : positive) :
  2 ^ (Zpos (digits2_pos m) - 1) <= Zpos m < 2 ^ Zpos (digits2_pos m).
Proof.
  induction m as [m IH | m IH |]; cbn [digits2_pos].
  - rewrite Pos2Z.inj_succ.
    replace (Z.succ (Zpos (digits2_pos m)) - 1) with (Z.succ (Zpos (digits2_pos m) - 1)) by lia.
    rewrite !Z.pow_succ_r by lia. lia.
  - rewrite Pos2Z.inj_succ.
    replace (Z.succ (Zpos (digits2_pos m)) - 1) with (Z.succ (Zpos (digits2_pos m) - 1)) by lia.
    rewrite !Z.pow_succ_r by lia. lia.
  - cbn. lia.
Qed.

Lemma iter_xO (m d : positive) : Zpos (Pos.iter xO m d) = Zpos m * 2 ^ Zpos d.
Proof.
  induction d as [| d IH] using Pos.peano_ind.
  - cbn. lia.
  - rewrite Pos.iter_succ, Pos2Z.inj_succ, Z.pow_succ_r by lia.
    rewrite Pos2Z.inj_xO, IH. lia.
Qed.

Lemma shl_align_value (m : positive) (e e' : Z) :
  e' <= e -> Zpos (fst (shl_align m e e')) = Zpos m * 2 ^ (e - e').
Proof.
  intros H. unfold shl_align.
  destruct (e' - e) as [| d | d] eqn:E; cbn [fst].
  - replace (e - e') with 0 by lia. lia.
  - lia.
  - rewrite iter_xO. f_equal. f_equal. lia.
Qed.

(** A number in canonical form with an exponent above the least one has
    a full mantissa. *)
Lemma bounded_digits (m : positive) (e : Z) :
  bounded prec emax m e = true ->
  Zpos (digits2_pos m) <= 53 /\ (emin < e -> Zpos (digits2_pos m) = 53).
Proof.
  unfold bounded, canonical_mantissa, fexp. intros H.
  apply andb_true_iff in H as [H _]. apply Z.eqb_eq in H.
  change prec with 53 in *. lia.
Qed.

Lemma bounded_emin (m : positive) (e : Z) :
  bounded prec emax m e = true -> emin <= e.
Proof.
  unfold bounded, canonical_mantissa, fexp. intros H.
  apply andb_true_iff in H as [H _]. apply Z.eqb_eq in H. lia.
Qed.

(** Of two positive numbers in canonical form, the one with the smaller
    exponent is the smaller. *)
Lemma aligned_lt (mx my : positive) (ex ey : Z) :
  bounded prec emax mx ex = true -> bounded prec emax my ey = true ->
  ey < ex -> Zpos my < Zpos mx * 2 ^ (ex - ey).
Proof.
  intros Hx Hy H.
  destruct (bounded_digits _ _ Hx) as [_ Hdx].
  destruct (bounded_digits _ _ Hy) as [Hdy _].
  pose proof (bounded_emin _ _ Hy) as Hey.
  specialize (Hdx ltac:(lia)).
  pose proof (digits2_pos_bounds mx) as Bx. pose proof (digits2_pos_bounds my) as By.
  rewrite Hdx in Bx.
  assert (H53 : 2 ^ Zpos (digits2_pos my) <= 2 ^ 53) by (apply Z.pow_le_mono_r; lia).
  assert (Hp : 2 ^ 1 <= 2 ^ (ex - ey)) by (apply Z.pow_le_mono_r; lia).
  change (2 ^ 1) with 2 in Hp. change (53 - 1) with 52 in Bx.
  assert (H2 : 2 ^ 53 = 2 * 2 ^ 52) by reflexivity.
  nia.
Qed.


Lemma SFleb_zero (x : spec_float) : SFleb (S754_zero false) x = SFnonneg x.
Proof. destruct x as [s | s | | s m e]; try destruct s; reflexivity. Qed.

Lemma iter_pos_invariant {A} (P : A -> Prop) (f : A -> A) :
  (forall a, P a -> P (f a)) -> forall p a, P a -> P (SpecFloat.iter_pos f p a).
Proof.
  intros Hf p. induction p as [p IH | p IH |]; intros a Ha; cbn [SpecFloat.iter_pos]; auto.
Qed.

Lemma shr_1_nonneg (mrs : shr_record) : 0 <= shr_m mrs -> 0 <= shr_m (shr_1 mrs).
Proof.
  destruct mrs as [m r s]. cbn [shr_m]. intros H.
  destruct m as [| [p | p |] | p]; cbn; lia.
Qed.

Lemma shr_nonneg (mrs : shr_record) (e n : Z) :
  0 <= shr_m mrs -> 0 <= shr_m (fst (shr mrs e n)).
Proof.
  intros H. unfold shr. destruct n as [| p | p]; cbn [fst]; try exact H.
  apply (iter_pos_invariant (fun x => 0 <= shr_m x)); [apply shr_1_nonneg | exact H].
Qed.

Lemma shr_fexp_nonneg (m e : Z) (l : location) :
  0 <= m -> 0 <= shr_m (fst (shr_fexp prec emax m e l)).
Proof.
  intros H. unfold shr_fexp. apply shr_nonneg.
  destruct l as [| []]; exact H.
Qed.

Lemma round_nearest_even_nonneg (m : Z) (l : location) :
  0 <= m -> 0 <= round_nearest_even m l.
Proof.
  intros H. unfold round_nearest_even.
  destruct l as [| []]; try destruct (Z.even m); lia.
Qed.

Lemma binary_round_aux_nonneg (m e : Z) (l : location) :
  0 <= m -> SFnonneg (binary_round_aux prec emax false m e l) = true.
Proof.
  intros H. unfold binary_round_aux.
  pose proof (shr_fexp_nonneg m e l H) as H1.
  destruct (shr_fexp prec emax m e l) as [mrs' e'] eqn:E1. cbn [fst] in H1.
  pose proof (shr_fexp_nonneg _ e' loc_Exact
                (round_nearest_even_nonneg _ (loc_of_shr_record mrs') H1)) as H2.
  destruct (shr_fexp prec emax (round_nearest_even _ _) e' loc_Exact) as [mrs'' e''].
  cbn [fst] in H2.
  destruct (shr_m mrs'') as [| p | p]; [reflexivity | | lia].
  destruct (e'' <=? emax - prec); reflexivity.
Qed.

Lemma binary_normalize_nonneg (m e : Z) :
  0 <= m -> SFnonneg (binary_normalize prec emax m e false) = true.
Proof.
  intros H. unfold binary_normalize. destruct m as [| p | p]; [reflexivity | | lia].
  unfold binary_round. destruct (shl_align _ _ _) as [mz ez].
  apply binary_round_aux_nonneg. lia.
Qed.

(** A finite amount that the budget covers leaves a budget that is not
    negative. *)
Lemma SFsub_nonneg (x y : spec_float) :
  valid_binary x = true -> valid_binary y = true ->
  match y with S754_zero _ | S754_finite _ _ _ => True | _ => False end ->
  SFleb y x = true -> SFnonneg (SF64sub x y) = true.
Proof.
  intros Vx Vy Fy H.
  destruct y as [sy | sy | | sy my ey]; try contradiction;
    destruct x as [sx | sx | | sx mx ex]; try discriminate H;
    try destruct sx; try destruct sy; try discriminate H; try reflexivity.
  all: cbn [SF64sub SFsub]; apply binary_normalize_nonneg.
  all: cbn [valid_binary] in Vx, Vy.
  all: rewrite !shl_align_value by lia; cbn [cond_Zopp].
  all: unfold SFleb in H; cbn [SFcompare] in H.
  all: try change (Pos.compare_cont Eq my mx) with (Pos.compare my mx) in H.
  all: try (assert (0 < 2 ^ (ex - Z.min ex ey)) by (apply Z.pow_pos_nonneg; lia);
            assert (0 < 2 ^ (ey - Z.min ex ey)) by (apply Z.pow_pos_nonneg; lia)).
  - (* both negative *)
    destruct (Z.compare_spec ey ex) as [E | E | E]; try discriminate H.
    + subst. rewrite Z.min_id, Z.sub_diag. change (2 ^ 0) with 1.
      destruct (Pos.compare_spec my mx); try discriminate H; lia.
    + pose proof (aligned_lt my mx ey ex Vy Vx E).
      rewrite Z.min_l by lia. rewrite Z.sub_diag. change (2 ^ 0) with 1. lia.
  - lia.
  - destruct (Z.compare_spec ey ex) as [E | E | E]; try discriminate H.
    + subst. rewrite Z.min_id, Z.sub_diag. change (2 ^ 0) with 1.
      destruct (Pos.compare_spec my mx); try discriminate H; lia.
    + pose proof (aligned_lt mx my ex ey Vx Vy E).
      rewrite Z.min_r by lia. rewrite Z.sub_diag. change (2 ^ 0) with 1. lia.
Qed.


Lemma Prim2SF_finite (a : float) :
  is_finite a = true ->
  match Prim2SF a with S754_zero _ | S754_finite _ _ _ => True | _ => False end.
Proof.
  unfold is_finite, is_infinity. rewrite is_nan_spec, FloatAxioms.eqb_spec, FloatAxioms.abs_spec.
  change (Prim2SF infinity) with (S754_infinity false).
  destruct (Prim2SF a) as [s | s | | s m e]; cbn; try discriminate; exact (fun _ => I).
Qed.

Lemma sub_nonneg (r a : float) :
  is_finite a = true -> (a <=? r)%float = true -> (0 <=? r - a)%float = true.
Proof.
  intros Ha H. rewrite FloatAxioms.leb_spec in *. rewrite FloatAxioms.sub_spec.
  change (Prim2SF 0) with (S754_zero false). rewrite SFleb_zero.
  apply SFsub_nonneg; [apply Prim2SF_valid | apply Prim2SF_valid | | exact H].
  apply Prim2SF_finite. exact Ha.
Qed.
(** *** Whole numbers are computed exactly *)

(** The number of binary digits. *)
Lemma digits2_pos_log2 (m : positive) : Zpos (digits2_pos m) = Z.log2 (Zpos m) + 1.
Proof.
  pose proof (digits2_pos_bounds m) as [H1 H2].
  assert (E : Z.log2 (Zpos m) = Zpos (digits2_pos m) - 1).
  { apply Z.log2_unique; [lia |].
    replace (Z.succ (Zpos (digits2_pos m) - 1)) with (Zpos (digits2_pos m)) by lia.
    split; assumption. }
  lia.
Qed.

Lemma digits_range (n : Z) : 0 < n < 2 ^ 53 -> 1 <= digits n <= 53.
Proof.
  intros H. unfold digits. pose proof (Z.log2_nonneg n).
  assert (Z.log2 n < 53) by (apply Z.log2_lt_pow2; lia). lia.
Qed.

Lemma digits_shift (n k : Z) : 0 < n -> 0 <= k -> digits (n * 2 ^ k) = digits n + k.
Proof. intros Hn Hk. unfold digits. rewrite Z.log2_mul_pow2 by lia. lia. Qed.

Lemma digits_mono (m n : Z) : 0 < m <= n -> digits m <= digits n.
Proof. intros H. unfold digits. pose proof (Z.log2_le_mono m n). lia. Qed.

Lemma digits_bounds (n : Z) : 0 < n -> 2 ^ (digits n - 1) <= n < 2 ^ digits n.
Proof.
  intros H. unfold digits. pose proof (Z.log2_spec n H).
  replace (Z.log2 n + 1 - 1) with (Z.log2 n) by lia.
  replace (Z.log2 n + 1) with (Z.succ (Z.log2 n)) by lia. exact H0.
Qed.

(** Shifting out zeros is exact. *)
Lemma iter_pos_nat {A} (f : A -> A) (p : positive) (x : A) :
  SpecFloat.iter_pos f p x = Nat.iter (Pos.to_nat p) f x.
Proof.
  revert x. induction p as [p IH | p IH |]; intros x; cbn [SpecFloat.iter_pos].
  - rewrite !IH, Pos2Nat.inj_xI, Nat.iter_succ_r.
    replace (2 * Pos.to_nat p)%nat with (Pos.to_nat p + Pos.to_nat p)%nat by lia.
    rewrite Nat.iter_add. reflexivity.
  - rewrite !IH, Pos2Nat.inj_xO.
    replace (2 * Pos.to_nat p)%nat with (Pos.to_nat p + Pos.to_nat p)%nat by lia.
    rewrite Nat.iter_add. reflexivity.
  - reflexivity.
Qed.

Lemma shr_1_even (x : Z) :
  0 < x ->
  shr_1 {| shr_m := 2 * x; shr_r := false; shr_s := false |}
  = {| shr_m := x; shr_r := false; shr_s := false |}.
Proof. intros H. destruct x as [| p | p]; try lia. reflexivity. Qed.

Lemma shr_zeros (k : nat) (x : Z) :
  0 < x ->
  Nat.iter k shr_1 {| shr_m := x * 2 ^ Z.of_nat k; shr_r := false; shr_s := false |}
  = {| shr_m := x; shr_r := false; shr_s := false |}.
Proof.
  intros Hx. induction k as [| k IH].
  - cbn [Nat.iter Z.of_nat]. rewrite Z.pow_0_r, Z.mul_1_r. reflexivity.
  - rewrite Nat.iter_succ_r.
    replace (x * 2 ^ Z.of_nat (S k)) with (2 * (x * 2 ^ Z.of_nat k))
      by (rewrite Nat2Z.inj_succ, Z.pow_succ_r by lia; lia).
    rewrite shr_1_even by (apply Z.mul_pos_pos; [lia | apply Z.pow_pos_nonneg; lia]).
    exact IH.
Qed.

Lemma shr_exact (x e s : Z) :
  0 < x -> 0 <= s ->
  shr {| shr_m := x * 2 ^ s; shr_r := false; shr_s := false |} e s
  = ({| shr_m := x; shr_r := false; shr_s := false |}, e + s).
Proof.
  intros Hx Hs. unfold shr. destruct s as [| p | p]; try lia.
  - change (2 ^ 0) with 1. rewrite Z.mul_1_r, Z.add_0_r. reflexivity.
  - rewrite iter_pos_nat.
    pose proof (shr_zeros (Pos.to_nat p) x Hx) as E.
    rewrite positive_nat_Z in E. rewrite E. reflexivity.
Qed.

Lemma Zdigits2_digits (x : Z) : 0 < x -> Zdigits2 x = digits x.
Proof.
  intros H. destruct x as [| p | p]; try lia. cbn [Zdigits2].
  apply digits2_pos_log2.
Qed.

Lemma fexp_small (d : Z) : 1 <= d <= 53 -> fexp prec emax d = d - 53.
Proof. intros H. unfold fexp, emin. change prec with 53. change emax with 1024. lia. Qed.

Lemma shr_none (mrs : shr_record) (e : Z) : shr mrs e 0 = (mrs, e).
Proof. reflexivity. Qed.

(** Rounding a whole number below 2^53 that is written in canonical form
    followed by [s] zeros gives it back. *)
Lemma binary_round_aux_exact (q s : Z) :
  0 < q < 2 ^ 53 -> 0 <= s ->
  binary_round_aux prec emax false
    (q * 2 ^ (53 - digits q) * 2 ^ s) (digits q - 53 - s) loc_Exact
  = canon q.
Proof.
  intros Hq Hs. pose proof (digits_range q Hq) as Hd.
  set (m := q * 2 ^ (53 - digits q)).
  assert (Hm : 0 < m) by (apply Z.mul_pos_pos; [lia | apply Z.pow_pos_nonneg; lia]).
  assert (Hdm : digits m = 53) by (unfold m; rewrite digits_shift by lia; lia).
  unfold binary_round_aux, shr_fexp.
  rewrite Zdigits2_digits by (apply Z.mul_pos_pos; [lia | apply Z.pow_pos_nonneg; lia]).
  rewrite digits_shift, Hdm by lia.
  replace (53 + s + (digits q - 53 - s)) with (digits q) by lia.
  rewrite fexp_small by lia.
  replace (digits q - 53 - (digits q - 53 - s)) with s by lia.
  cbn [shr_record_of_loc]. rewrite shr_exact by lia.
  cbn [shr_m loc_of_shr_record round_nearest_even].
  rewrite Zdigits2_digits, Hdm by lia.
  replace (digits q - 53 - s + s) with (digits q - 53) by lia.
  replace (53 + (digits q - 53)) with (digits q) by lia.
  rewrite fexp_small by lia. rewrite Z.sub_diag, shr_none. cbn [shr_m].
  unfold canon. destruct q as [| p | p]; try lia. fold m.
  destruct m as [| pm | pm] eqn:Em; try lia.
  replace (digits (Z.pos p) - 53 <=? emax - prec) with true
    by (symmetry; apply Z.leb_le; change emax with 1024; change prec with 53; lia).
  reflexivity.
Qed.

Lemma shl_align_exp (m : positive) (e e' : Z) :
  e' <= e -> snd (shl_align m e e') = e'.
Proof.
  intros H. unfold shl_align.
  destruct (e' - e) as [| d | d] eqn:E; cbn [snd]; lia.
Qed.

Lemma shl_align_none (m : positive) (e e' : Z) :
  e <= e' -> shl_align m e e' = (m, e).
Proof.
  intros H. unfold shl_align. destruct (e' - e) as [| d | d] eqn:E; try reflexivity. lia.
Qed.

(** Normalising a whole number below 2^53 written with a mantissa and an
    exponent that is not positive. *)
Lemma binary_round_exact (q e : Z) (d : positive) :
  0 < q < 2 ^ 53 -> e <= 0 -> Zpos d = q * 2 ^ (- e) ->
  binary_round prec emax false d e = canon q.
Proof.
  intros Hq He Hd. pose proof (digits_range q Hq) as Hdq.
  unfold binary_round.
  assert (Hdig : Zpos (digits2_pos d) + e = digits q).
  { rewrite digits2_pos_log2. fold (digits (Zpos d)). rewrite Hd, digits_shift by lia. lia. }
  rewrite Hdig, fexp_small by lia.
  destruct (Z.le_gt_cases (digits q - 53) e) as [Ht | Ht].
  - pose proof (shl_align_value d e _ Ht) as Hv. pose proof (shl_align_exp d e _ Ht) as Hx.
    destruct (shl_align d e (digits q - 53)) as [mz ez]. cbn [fst snd] in Hv, Hx. subst ez.
    rewrite Hv, Hd, <- Z.mul_assoc, <- Z.pow_add_r by lia.
    replace (- e + (e - (digits q - 53))) with (53 - digits q) by lia.
    pose proof (binary_round_aux_exact q 0 Hq ltac:(lia)) as E.
    change (2 ^ 0) with 1 in E. rewrite Z.mul_1_r, Z.sub_0_r in E. exact E.
  - rewrite shl_align_none by lia.
    pose proof (binary_round_aux_exact q (digits q - 53 - e) Hq ltac:(lia)) as E.
    rewrite <- Z.mul_assoc, <- Z.pow_add_r in E by lia.
    replace (53 - digits q + (digits q - 53 - e)) with (- e) in E by lia.
    replace (digits q - 53 - (digits q - 53 - e)) with e in E by lia.
    rewrite Hd. exact E.
Qed.

Lemma canon_valid (n : Z) : 0 <= n < 2 ^ 53 -> valid_binary (canon n) = true.
Proof.
  intros H. unfold canon. destruct n as [| p | p]; try reflexivity.
  pose proof (digits_range (Zpos p) ltac:(lia)) as Hd.
  cbn [SpecFloat.valid_binary]. unfold bounded, canonical_mantissa.
  assert (Hm : 0 < Zpos p * 2 ^ (53 - digits (Zpos p)))
    by (apply Z.mul_pos_pos; [lia | apply Z.pow_pos_nonneg; lia]).
  rewrite digits2_pos_log2, Z2Pos.id by lia.
  fold (digits (Zpos p * 2 ^ (53 - digits (Zpos p)))). rewrite digits_shift by lia.
  replace (digits (Zpos p) + (53 - digits (Zpos p)) + (digits (Zpos p) - 53))
    with (digits (Zpos p)) by lia.
  rewrite fexp_small by lia. rewrite Z.eqb_refl. cbn [andb].
  apply Z.leb_le. change emax with 1024. change prec with 53. lia.
Qed.

(** The difference of two whole numbers is computed exactly. *)
Lemma canon_sub (m n : Z) :
  0 <= m <= n -> n < 2 ^ 53 -> SF64sub (canon n) (canon m) = canon (n - m).
Proof.
  intros Hmn Hn.
  destruct (Z.eq_dec m 0) as [-> | Hm0].
  { rewrite Z.sub_0_r. unfold canon at 2. destruct (canon n) as [[] | | |]; reflexivity. }
  destruct (Z.eq_dec m n) as [-> | Hne].
  { rewrite Z.sub_diag. unfold canon. destruct n as [| p | p]; try lia.
    cbn [SF64sub SFsub cond_Zopp]. rewrite Z.sub_diag. reflexivity. }
  assert (Hm : 0 < m < 2 ^ 53) by lia. assert (Hn' : 0 < n < 2 ^ 53) by lia.
  pose proof (digits_range m Hm) as Hdm. pose proof (digits_range n Hn') as Hdn.
  pose proof (digits_mono m n ltac:(lia)) as Hmono.
  unfold canon at 1 2. destruct m as [| pm | pm]; try lia. destruct n as [| pn | pn]; try lia.
  cbn [SF64sub SFsub cond_Zopp].
  rewrite Z.min_r by lia.
  rewrite !shl_align_value by lia.
  assert (Hpm : 0 < Zpos pm * 2 ^ (53 - digits (Zpos pm)))
    by (apply Z.mul_pos_pos; [lia | apply Z.pow_pos_nonneg; lia]).
  assert (Hpn : 0 < Zpos pn * 2 ^ (53 - digits (Zpos pn)))
    by (apply Z.mul_pos_pos; [lia | apply Z.pow_pos_nonneg; lia]).
  rewrite !Z2Pos.id by lia.
  rewrite Z.sub_diag. change (2 ^ 0) with 1. rewrite Z.mul_1_r.
  rewrite <- Z.mul_assoc, <- Z.pow_add_r by lia.
  replace (53 - digits (Zpos pn) + (digits (Zpos pn) - 53 - (digits (Zpos pm) - 53)))
    with (53 - digits (Zpos pm)) by lia.
  rewrite <- Z.mul_sub_distr_r.
  assert (Hq : 0 < Zpos pn - Zpos pm < 2 ^ 53) by lia.
  assert (Hpos : 0 < (Zpos pn - Zpos pm) * 2 ^ (53 - digits (Zpos pm)))
    by (apply Z.mul_pos_pos; [lia | apply Z.pow_pos_nonneg; lia]).
  destruct ((Zpos pn - Zpos pm) * 2 ^ (53 - digits (Zpos pm))) as [| d | d] eqn:Ed; try lia.
  cbn [binary_normalize].
  apply binary_round_exact; [exact Hq | lia |].
  rewrite <- Ed. f_equal. f_equal. lia.
Qed.

(** Whole numbers compare as their binary64 numbers do. *)
Lemma canon_compare (m n : Z) :
  0 <= m < 2 ^ 53 -> 0 <= n < 2 ^ 53 ->
  SFcompare (canon m) (canon n) = Some (m ?= n).
Proof.
  intros Hm Hn. unfold canon.
  destruct m as [| pm | pm], n as [| pn | pn]; try lia; try reflexivity.
  pose proof (digits_range (Zpos pm) ltac:(lia)) as Hdm.
  pose proof (digits_range (Zpos pn) ltac:(lia)) as Hdn.
  pose proof (digits_bounds (Zpos pm) ltac:(lia)) as Bm.
  pose proof (digits_bounds (Zpos pn) ltac:(lia)) as Bn.
  cbn [SFcompare]. f_equal.
  destruct (Z.compare_spec (digits (Zpos pm) - 53) (digits (Zpos pn) - 53)) as [E | E | E].
  - assert (Ed : digits (Zpos pm) = digits (Zpos pn)) by lia. rewrite Ed.
    change (Pos.compare_cont Eq ?a ?b) with (Pos.compare a b).
    assert (Hp : 0 < 2 ^ (53 - digits (Zpos pn))) by (apply Z.pow_pos_nonneg; lia).
    rewrite <- Z2Pos.inj_compare by nia.
    rewrite <- Zmult_compare_compat_r by lia. reflexivity.
  - symmetry. apply Z.compare_lt_iff.
    assert (2 ^ digits (Zpos pm) <= 2 ^ (digits (Zpos pn) - 1))
      by (apply Z.pow_le_mono_r; lia).
    lia.
  - symmetry. apply Z.compare_gt_iff.
    assert (2 ^ digits (Zpos pn) <= 2 ^ (digits (Zpos pm) - 1))
      by (apply Z.pow_le_mono_r; lia).
    lia.
Qed.

Lemma canon_leb (m n : Z) :
  0 <= m < 2 ^ 53 -> 0 <= n < 2 ^ 53 -> SFleb (canon m) (canon n) = (m <=? n).
Proof.
  intros Hm Hn. unfold SFleb. rewrite canon_compare by assumption.
  unfold Z.leb. destruct (m ?= n); reflexivity.
Qed.

Lemma canon_ltb (m n : Z) :
  0 <= m < 2 ^ 53 -> 0 <= n < 2 ^ 53 -> SFltb (canon m) (canon n) = (m <? n).
Proof.
  intros Hm Hn. unfold SFltb. rewrite canon_compare by assumption.
  unfold Z.ltb. destruct (m ?= n); reflexivity.
Qed.



Lemma units_canon (x : float) (n : Z) :
  0 <= n < 2 ^ 53 -> Prim2SF x = canon n -> units x = n.
Proof.
  intros Hn E. unfold units. rewrite E. unfold canon.
  destruct n as [| p | p]; try lia; try reflexivity.
  pose proof (digits_range (Zpos p) ltac:(lia)) as Hd.
  assert (Hp : 0 < 2 ^ (53 - digits (Zpos p))) by (apply Z.pow_pos_nonneg; lia).
  rewrite Z2Pos.id by nia.
  replace (digits (Zpos p) - 53) with (- (53 - digits (Zpos p))) by lia.
  rewrite Z.shiftl_opp_r, Z.shiftr_div_pow2 by lia.
  apply Z.div_mul. lia.
Qed.

Lemma whole_canon (x : float) (n : Z) :
  0 <= n < 2 ^ 53 -> Prim2SF x = canon n -> whole x.
Proof.
  intros Hn E. unfold whole. rewrite (units_canon x n Hn E). split; assumption.
Qed.

Lemma whole_leb (a r : float) :
  whole a -> whole r -> (a <=? r)%float = (units a <=? units r).
Proof.
  intros [Ha Ea] [Hr Er]. rewrite FloatAxioms.leb_spec, Ea, Er. apply canon_leb; assumption.
Qed.

Lemma whole_ltb (a r : float) :
  whole a -> whole r -> (a <? r)%float = (units a <? units r).
Proof.
  intros [Ha Ea] [Hr Er]. rewrite FloatAxioms.ltb_spec, Ea, Er. apply canon_ltb; assumption.
Qed.

Lemma whole_sub (a r : float) :
  whole a -> whole r -> units a <= units r ->
  whole (r - a) /\ units (r - a) = units r - units a.
Proof.
  intros [Ha Ea] [Hr Er] Hle.
  assert (E : Prim2SF (r - a) = canon (units r - units a)).
  { rewrite FloatAxioms.sub_spec, Ea, Er. apply canon_sub; lia. }
  assert (Hn : 0 <= units r - units a < 2 ^ 53) by lia.
  split; [exact (whole_canon _ _ Hn E) | exact (units_canon _ _ Hn E)].
Qed.

Lemma units_nonneg (x : float) : 0 <= units x.
Proof.
  unfold units. destruct (Prim2SF x) as [s | s | | [] m e]; try lia.
  apply Z.shiftl_nonneg. lia.
Qed.
End Binary64Order.

(** ** The allocation loop in binary64 *)

Lemma value_nonneg (x : float) : (0 <=? x)%float = true -> 0 <= Binary64.value x.
Proof.
  rewrite FloatAxioms.leb_spec. change (Prim2SF 0) with (S754_zero false). rewrite SFleb_zero.
  unfold Binary64.value.
  destruct (Prim2SF x) as [s | s | | s m e]; try (intros; apply Qle_refl).
  destruct s; [discriminate |]. intros _. cbn [cond_Zopp].
  apply Qmult_le_0_compat; [unfold Qle; cbn; lia |].
  apply Qpower_0_le. unfold Qle; cbn; lia.
Qed.

Section FloatSortedReverseFacts.
Import Binary64.
Context {A : Type} (key : A -> float).

Lemma float_insert_desc_perm (x : A) (l : list A) :
  Permutation (x :: l) (insert_desc key x l).
Proof.
  induction l as [| y l IH]; simpl.
  - reflexivity.
  - destruct (key x <? key y)%float.
    + rewrite perm_swap. apply perm_skip. exact IH.
    + reflexivity.
Qed.

Lemma float_sorted_reverse_perm (l : list A) :
  Permutation l (sorted_reverse key l).
Proof.
  induction l as [| x l IH]; simpl.
  - reflexivity.
  - rewrite <- float_insert_desc_perm. apply perm_skip. exact IH.
Qed.

Lemma float_insert_desc_sorted (x : A) (l : list A) :
  is_nan (key x) = false -> Forall (fun a => is_nan (key a) = false) l ->
  StronglySorted (fun a b => (key b <=? key a)%float = true) l ->
  StronglySorted (fun a b => (key b <=? key a)%float = true) (insert_desc key x l).
Proof.
  intros Hx Hl Hs. induction Hs as [| y l Hs IH Hy]; simpl.
  - repeat constructor.
  - inversion Hl as [| ? ? Hny Hl']; subst.
    destruct (key x <? key y)%float eqn:E.
    + constructor; [apply IH; exact Hl' |].
      apply (Permutation_Forall (float_insert_desc_perm x l)).
      constructor; [apply ltb_leb; exact E | exact Hy].
    + pose proof (ltb_false_leb _ _ Hx Hny E) as Hle.
      constructor; [constructor; assumption |].
      constructor; [exact Hle |].
      apply (List.Forall_impl (P := fun b => (key b <=? key y)%float = true)); [| exact Hy].
      intros b Hb. apply (leb_trans _ _ _ Hb Hle).
Qed.

Lemma float_sorted_reverse_sorted (l : list A) :
  Forall (fun a => is_nan (key a) = false) l ->
  StronglySorted (fun a b => (key b <=? key a)%float = true) (sorted_reverse key l).
Proof.
  induction 1 as [| x l Hx Hl IH]; simpl.
  - constructor.
  - apply float_insert_desc_sorted; [exact Hx | | exact IH].
    apply (Permutation_Forall (float_sorted_reverse_perm l)). exact Hl.
Qed.

Lemma float_insert_desc_filter (v : float) (x : A) (l : list A) :
  List.filter (fun a => (key a =? v)%float) (insert_desc key x l)
  = List.filter (fun a => (key a =? v)%float) (x :: l).
Proof.
  induction l as [| y l IH]; [reflexivity |].
  cbn [insert_desc].
  destruct (key x <? key y)%float eqn:E; [| reflexivity].
  cbn [List.filter] in *. rewrite IH.
  destruct (key x =? v)%float eqn:Ex; [| reflexivity].
  destruct (key y =? v)%float eqn:Ey; [| reflexivity].
  rewrite (eqb_ltb _ _ _ Ex Ey) in E. discriminate E.
Qed.

Lemma float_sorted_reverse_filter (v : float) (l : list A) :
  List.filter (fun a => (key a =? v)%float) (sorted_reverse key l)
  = List.filter (fun a => (key a =? v)%float) l.
Proof.
  induction l as [| x l IH]; [reflexivity |].
  cbn [sorted_reverse fold_right]. rewrite float_insert_desc_filter.
  cbn [List.filter]. fold (sorted_reverse key l). rewrite IH. reflexivity.
Qed.
End FloatSortedReverseFacts.

Section FloatAllocation.
Import Binary64.

Lemma float_loop_body_appends (l : list ScoredInvoice) :
  forall (i : nat) (st : LoopState),
    payment_sequence (fold_left loop_body (combine (seq i (length l)) l) st)
    = payment_sequence st ++ appended i (remaining_cash st) l.
Proof.
  induction l as [| x rest IH]; intros i st.
  - simpl. rewrite app_nil_r. reflexivity.
  - cbn [length seq combine fold_left appended]. rewrite IH.
    unfold loop_body.
    destruct (invoice_amount (invoice x) <=? remaining_cash st)%float;
      cbn [payment_sequence remaining_cash]; rewrite <- app_assoc; reflexivity.
Qed.

Lemma float_allocate_appended (usable_cash : float) (scored_invoices : list ScoredInvoice) :
  allocate usable_cash scored_invoices
  = appended 0 usable_cash (sorted_reverse bv scored_invoices).
Proof. unfold allocate, enumerate. rewrite float_loop_body_appends. reflexivity. Qed.

Lemma float_appended_walk (l : list ScoredInvoice) :
  forall (i : nat) (remaining : float), greedy_walk remaining l (appended i remaining l).
Proof.
  induction l as [| x rest IH]; intros i remaining; cbn [appended].
  - constructor.
  - destruct (invoice_amount (invoice x) <=? remaining)%float eqn:E.
    + apply walk_scheduled; try reflexivity; [exact E | apply IH].
    + apply walk_deferred; try reflexivity; [exact E | apply IH].
Qed.

(** C2: the allocator visits the invoices in the stable descending order
    of their final business value (none of which is a NaN) with a
    running budget that starts at [usable_cash]; an invoice that the
    budget covers is scheduled, captures [amount * (discount_rate /
    100)], is timed one day before the discount deadline and is
    subtracted from the budget, in binary64; one that it does not cover
    is deferred to its due date with no discount. *)
Theorem allocate_is_greedy_walk (usable_cash : float)
    (scored_invoices : list ScoredInvoice) :
  Forall (fun x => is_nan (bv x) = false) scored_invoices ->
  stable_descending bv scored_invoices (sorted_reverse bv scored_invoices)
  /\ greedy_walk usable_cash (sorted_reverse bv scored_invoices)
       (allocate usable_cash scored_invoices).
Proof.
  intros Hnan. split; [split; [| split] |].
  - apply float_sorted_reverse_perm.
  - apply float_sorted_reverse_sorted. exact Hnan.
  - intros v. apply float_sorted_reverse_filter.
  - rewrite float_allocate_appended. apply float_appended_walk.
Qed.

Lemma float_scheduled_total_cons (e : PaymentSequenceEntry) (es : list PaymentSequenceEntry) :
  scheduled_total (e :: es)
  = if is_scheduled e then value (amount e) + scheduled_total es else scheduled_total es.
Proof. reflexivity. Qed.

Lemma float_scheduled_prefix_grows (es : list PaymentSequenceEntry) :
  Forall (fun e => (0 <=? amount e)%float = true) es ->
  forall k : nat,
    scheduled_total (firstn k es) <= scheduled_total (firstn (S k) es).
Proof.
  induction 1 as [| e es He Hes IH]; intros k.
  - destruct k; apply Qle_refl.
  - apply value_nonneg in He. destruct k as [| k].
    + change (scheduled_total [] <= scheduled_total (e :: firstn 0 es)).
      rewrite float_scheduled_total_cons.
      change (firstn 0 es) with (@nil PaymentSequenceEntry).
      change (scheduled_total []) with 0.
      destruct (is_scheduled e); lra.
    + specialize (IH k).
      change (scheduled_total (e :: firstn k es)
              <= scheduled_total (e :: firstn (S k) es)).
      rewrite !float_scheduled_total_cons.
      destruct (is_scheduled e); lra.
Qed.

Lemma float_appended_amounts (P : float -> Prop) (l : list ScoredInvoice) :
  Forall (fun x => P (invoice_amount (invoice x))) l ->
  forall (i : nat) (remaining : float),
    Forall (fun e => P (amount e)) (appended i remaining l).
Proof.
  induction 1 as [| x rest Hx Hrest IH]; intros i remaining; cbn [appended].
  - constructor.
  - destruct (_ <=? _)%float; constructor; try apply IH; exact Hx.
Qed.

Lemma balance_prefix_nonneg (l : list ScoredInvoice) :
  Forall (fun x => is_finite (invoice_amount (invoice x)) = true) l ->
  forall (i : nat) (remaining : float) (k : nat),
    (0 <=? remaining)%float = true ->
    (0 <=? balance remaining (firstn k (appended i remaining l)))%float = true.
Proof.
  induction 1 as [| x rest Hx Hrest IH]; intros i remaining k Hr.
  - destruct k; exact Hr.
  - destruct k as [| k]; [exact Hr |].
    cbn [appended].
    destruct (invoice_amount (invoice x) <=? remaining)%float eqn:E;
      cbn [firstn balance fold_left is_scheduled status scheduled_entry deferred_entry
           amount].
    + apply IH. apply sub_nonneg; assumption.
    + apply IH. exact Hr.
Qed.

(** C1, as the code has it: when the usable cash is not negative and the
    invoice amounts are finite and not negative, the scheduled amounts
    summed over the first k entries of the payment sequence never
    decrease as k grows, and the balance that the loop keeps, the usable
    cash less these amounts subtracted one by one in binary64, is never
    negative. *)
Theorem balance_never_negative
    (available_cash cash_reserve_ratio : option float)
    (scored_invoices : list ScoredInvoice) :
  let usable_cash :=
    usable_cash_of (get_field available_cash 2500000%float)
                   (get_field cash_reserve_ratio 0.2%float) in
  let out := generate_payment_sequence available_cash cash_reserve_ratio
               scored_invoices in
  (0 <=? usable_cash)%float = true ->
  Forall (fun x => is_finite (invoice_amount (invoice x)) = true
                   /\ (0 <=? invoice_amount (invoice x))%float = true)
         scored_invoices ->
  forall k : nat,
    scheduled_total (firstn k out) <= scheduled_total (firstn (S k) out)
    /\ (0 <=? balance usable_cash (firstn k out))%float = true.
Proof.
  intros usable_cash out Hu Ha k. subst out.
  unfold generate_payment_sequence. fold usable_cash.
  rewrite float_allocate_appended.
  pose proof (Permutation_Forall (float_sorted_reverse_perm bv scored_invoices) Ha) as Hs.
  split.
  - apply float_scheduled_prefix_grows.
    apply (float_appended_amounts (fun a => (0 <=? a)%float = true)).
    revert Hs. apply List.Forall_impl. intros x [_ H]. exact H.
  - apply balance_prefix_nonneg; [| exact Hu].
    revert Hs. apply List.Forall_impl. intros x [H _]. exact H.
Qed.
End FloatAllocation.

Lemma allocate_is_greedy_walk_witness :
  Binary64.greedy_walk 800%float
    (Binary64.sorted_reverse Binary64.bv Binary64.small_invoices)
    (Binary64.allocate 800%float Binary64.small_invoices)
  /\ map Binary64.status (Binary64.allocate 800%float Binary64.small_invoices)
     = [scheduled; deferred].
Proof.
  split; [| reflexivity].
  apply (allocate_is_greedy_walk 800%float Binary64.small_invoices).
  repeat constructor.
Defined.

Lemma balance_never_negative_witness :
  let out := Binary64.generate_payment_sequence None None Binary64.rounded_invoices in
  Binary64.scheduled_total (firstn 2 out) <= Binary64.scheduled_total (firstn 3 out)
  /\ (0 <=? Binary64.balance (Binary64.usable_cash_of 2500000 0.2) (firstn 2 out))%float
     = true.
Proof.
  apply (balance_never_negative None None Binary64.rounded_invoices).
  - reflexivity.
  - repeat constructor.
Defined.

(** C1 as stated fails twice.  With the default budget of two millions,
    three invoices whose amounts add up to a little more are all
    scheduled, because the balance kept in binary64 is rounded; and with
    an overdrawn account the usable cash is negative, nothing is
    scheduled, and the empty sum 0 exceeds it. *)
Lemma scheduled_total_exceeds_usable_cash :
  (let usable_cash := Binary64.usable_cash_of 2500000 0.2 in
   let out := Binary64.generate_payment_sequence None None Binary64.rounded_invoices in
   (0 <=? usable_cash)%float = true
   /\ ~ (forall k : nat,
           Binary64.scheduled_total (firstn k out)
             <= Binary64.scheduled_total (firstn (S k) out)
           /\ Binary64.scheduled_total (firstn k out) <= Binary64.value usable_cash))
  /\ (let usable_cash := Binary64.usable_cash_of (-1000) 0.2 in
      let out := Binary64.generate_payment_sequence (Some (-1000)%float) None
                   Binary64.rounded_invoices in
      ~ (forall k : nat,
           Binary64.scheduled_total (firstn k out)
             <= Binary64.scheduled_total (firstn (S k) out)
           /\ Binary64.scheduled_total (firstn k out) <= Binary64.value usable_cash)).
Proof.
  split; cbv zeta.
  - split; [reflexivity |]. intros H. destruct (H 3%nat) as [_ H3].
    vm_compute in H3. apply H3. reflexivity.
  - intros H. destruct (H 1%nat) as [_ H1].
    vm_compute in H1. apply H1. reflexivity.
Qed.

(** ** Whole amounts *)

Section WholeAmounts.
Import Binary64.
Local Open Scope Z_scope.

Lemma total_units_perm (l l' : list ScoredInvoice) :
  Permutation l l' -> total_units l = total_units l'.
Proof.
  induction 1 as [| x l l' _ IH | x y l | l l' l'' _ IH1 _ IH2]; cbn [total_units fold_right].
  - reflexivity.
  - fold (total_units l) (total_units l'). lia.
  - lia.
  - congruence.
Qed.

Lemma total_units_nonneg (l : list ScoredInvoice) : 0 <= total_units l.
Proof.
  induction l as [| x l IH]; cbn [total_units fold_right]; [lia |].
  fold (total_units l). pose proof (units_nonneg (invoice_amount (invoice x))).
  unfold units_of. lia.
Qed.

Lemma appended_whole_fit (l : list ScoredInvoice) :
  Forall (fun x => whole (invoice_amount (invoice x))) l ->
  forall (i : nat) (remaining : float),
    whole remaining -> total_units l <= units remaining ->
    Forall (fun e => status e = scheduled) (appended i remaining l).
Proof.
  induction 1 as [| x rest Hx Hrest IH]; intros i remaining Hr Hfit; cbn [appended].
  - constructor.
  - cbn [total_units fold_right] in Hfit. fold (total_units rest) in Hfit.
    pose proof (total_units_nonneg rest) as Hnn. unfold units_of in Hfit.
    rewrite (whole_leb _ _ Hx Hr).
    replace (units (invoice_amount (invoice x)) <=? units remaining) with true
      by (symmetry; apply Z.leb_le; lia).
    destruct (whole_sub _ _ Hx Hr ltac:(lia)) as [Hw Hu].
    constructor; [reflexivity |]. apply IH; [exact Hw | lia].
Qed.

(** The loop of the allocator and the loop of a baseline pay as many
    invoices as the loop on whole units does. *)
Lemma appended_paid_units (l : list ScoredInvoice) :
  Forall (fun x => whole (invoice_amount (invoice x))) l ->
  forall (i : nat) (remaining : float),
    whole remaining ->
    length (List.filter is_scheduled (appended i remaining l))
    = paid_units (units remaining) (map units_of l).
Proof.
  induction 1 as [| x rest Hx Hrest IH]; intros i remaining Hr;
    cbn [appended map paid_units]; [reflexivity |].
  rewrite (whole_leb _ _ Hx Hr).
  change (units_of x) with (units (invoice_amount (invoice x))).
  destruct (units (invoice_amount (invoice x)) <=? units remaining) eqn:E.
  - apply Z.leb_le in E. destruct (whole_sub _ _ Hx Hr E) as [Hw Hu].
    cbn [List.filter is_scheduled status scheduled_entry length].
    rewrite (IH _ _ Hw), Hu. reflexivity.
  - cbn [List.filter is_scheduled status deferred_entry]. apply IH. exact Hr.
Qed.

Lemma traditional_paid_units (l : list ScoredInvoice) :
  Forall (fun x => whole (invoice_amount (invoice x))) l ->
  forall st : TraditionalState,
    whole (acc_remaining_cash st) ->
    acc_vendors_paid (fold_left traditional_body l st)
    = (acc_vendors_paid st
       + paid_units (units (acc_remaining_cash st)) (map units_of l))%nat.
Proof.
  induction 1 as [| x rest Hx Hrest IH]; intros st Hr;
    cbn [fold_left map paid_units]; [lia |].
  unfold traditional_body at 2. rewrite (whole_leb _ _ Hx Hr).
  change (units_of x) with (units (invoice_amount (invoice x))).
  destruct (units (invoice_amount (invoice x)) <=? units (acc_remaining_cash st)) eqn:E.
  - apply Z.leb_le in E. destruct (whole_sub _ _ Hx Hr E) as [Hw Hu].
    rewrite IH by (cbn [acc_remaining_cash]; exact Hw).
    cbn [acc_vendors_paid acc_remaining_cash]. rewrite Hu. lia.
  - apply IH. exact Hr.
Qed.

(** *** The loop on whole units *)

Lemma paid_units_zero (l : list Z) (r : Z) :
  Forall (fun a => r < a) l -> paid_units r l = 0%nat.
Proof.
  induction 1 as [| a l Ha _ IH]; [reflexivity |]. cbn [paid_units].
  replace (a <=? r) with false by (symmetry; apply Z.leb_gt; exact Ha). exact IH.
Qed.

Lemma paid_units_without_smallest (x : Z) (l2 l1 : list Z) :
  0 <= x -> Forall (fun a => x <= a) (l1 ++ l2) ->
  forall u : Z,
    (paid_units u (l1 ++ x :: l2) <= S (paid_units (u - x) (l1 ++ l2)))%nat.
Proof.
  intros Hx. induction l1 as [| a t IH]; intros Hall u; cbn [app] in *.
  - cbn [paid_units]. destruct (x <=? u) eqn:E; [lia |].
    apply Z.leb_gt in E. rewrite paid_units_zero; [lia |].
    eapply List.Forall_impl; [| exact Hall]. cbn beta. intros y Hy. lia.
  - inversion Hall as [| ? ? Ha Ht]; subst. specialize (IH Ht).
    cbn [paid_units].
    destruct (a <=? u) eqn:E1; destruct (a <=? u - x) eqn:E2.
    + specialize (IH (u - a)).
      replace (u - x - a) with (u - a - x) by lia. lia.
    + apply Z.leb_le in E1. apply Z.leb_gt in E2.
      rewrite paid_units_zero; [lia |].
      apply Forall_app. apply Forall_app in Ht as [Ht1 Ht2]. split.
      * eapply List.Forall_impl; [| exact Ht1]. cbn beta. intros y Hy. lia.
      * constructor; [lia |].
        eapply List.Forall_impl; [| exact Ht2]. cbn beta. intros y Hy. lia.
    + apply Z.leb_gt in E1. apply Z.leb_le in E2. lia.
    + specialize (IH u). lia.
Qed.

Lemma paid_units_smallest_first (l : list Z) :
  StronglySorted Z.le l -> Forall (fun a => 0 <= a) l ->
  forall (l' : list Z) (u : Z),
    Permutation l l' -> (paid_units u l' <= paid_units u l)%nat.
Proof.
  induction 1 as [| x rest Hs IH Hx]; intros Hnn l' u Hp.
  - apply Permutation_nil in Hp. subst. cbn. lia.
  - inversion Hnn as [| ? ? Hx0 Hrest0]; subst.
    assert (Hin : In x l') by (apply (Permutation_in _ Hp); left; reflexivity).
    apply in_split in Hin as (l1 & l2 & ->).
    apply Permutation_cons_app_inv in Hp.
    cbn [paid_units].
    destruct (x <=? u) eqn:E.
    + pose proof (paid_units_without_smallest x l2 l1 Hx0
                    (Permutation_Forall Hp Hx) u).
      specialize (IH Hrest0 (l1 ++ l2) (u - x) Hp). lia.
    + apply Z.leb_gt in E. rewrite paid_units_zero; [lia |].
      pose proof (Permutation_Forall Hp Hx) as Hall.
      apply Forall_app in Hall as [H1 H2]. apply Forall_app. split.
      * eapply List.Forall_impl; [| exact H1]. cbn beta. intros y Hy. lia.
      * constructor; [exact E |].
        eapply List.Forall_impl; [| exact H2]. cbn beta. intros y Hy. lia.
Qed.

(** *** The ascending order of whole amounts *)

Section FloatSortedAscending.
Context {A : Type} (key : A -> float).

Lemma float_insert_asc_perm (x : A) (l : list A) :
  Permutation (x :: l) (insert_asc key x l).
Proof.
  induction l as [| y l IH]; simpl; [reflexivity |].
  destruct (key y <? key x)%float; [| reflexivity].
  rewrite perm_swap. apply perm_skip. exact IH.
Qed.

Lemma float_sorted_ascending_perm (l : list A) : Permutation l (sorted_ascending key l).
Proof.
  induction l as [| x l IH]; simpl; [reflexivity |].
  rewrite <- float_insert_asc_perm. apply perm_skip. exact IH.
Qed.

Lemma float_insert_asc_sorted (x : A) (l : list A) :
  whole (key x) -> Forall (fun a => whole (key a)) l ->
  StronglySorted (fun a b => units (key a) <= units (key b)) l ->
  StronglySorted (fun a b => units (key a) <= units (key b)) (insert_asc key x l).
Proof.
  intros Hx Hl Hs. induction Hs as [| y l Hs IH Hy]; simpl; [repeat constructor |].
  inversion Hl as [| ? ? Hwy Hl']; subst.
  rewrite (whole_ltb _ _ Hwy Hx).
  destruct (units (key y) <? units (key x)) eqn:E.
  - apply Z.ltb_lt in E. constructor; [apply IH; exact Hl' |].
    apply (Permutation_Forall (float_insert_asc_perm x l)).
    constructor; [lia | exact Hy].
  - apply Z.ltb_ge in E. constructor; [constructor; assumption |].
    constructor; [exact E |].
    apply (List.Forall_impl (P := fun b => units (key y) <= units (key b))); [| exact Hy].
    intros b Hb. lia.
Qed.

Lemma float_sorted_ascending_sorted (l : list A) :
  Forall (fun a => whole (key a)) l ->
  StronglySorted (fun a b => units (key a) <= units (key b)) (sorted_ascending key l).
Proof.
  induction 1 as [| x l Hx Hl IH]; simpl; [constructor |].
  apply float_insert_asc_sorted; [exact Hx | | exact IH].
  apply (Permutation_Forall (float_sorted_ascending_perm l)). exact Hl.
Qed.
End FloatSortedAscending.

Lemma sorted_map {A} (f : A -> Z) (l : list A) :
  StronglySorted (fun a b => f a <= f b) l -> StronglySorted Z.le (map f l).
Proof.
  induction 1 as [| x l Hs IH Hx]; cbn [map]; constructor; [exact IH |].
  apply Forall_map. exact Hx.
Qed.

(** X14: when the usable cash and the invoice amounts are whole numbers
    (of currency units, below 2^53) and the amounts add up to no more
    than the usable cash, every invoice is scheduled.  For amounts with
    cents it need not be so: 700.1 and 99.9 add up to 800.0 in binary64,
    yet a budget of 800 does not cover both. *)
Theorem allocate_schedules_whole_amounts_that_fit :
  (forall (usable_cash : float) (scored_invoices : list ScoredInvoice),
     whole usable_cash ->
     Forall (fun x => whole (invoice_amount (invoice x))) scored_invoices ->
     total_units scored_invoices <= units usable_cash ->
     Forall (fun e => status e = scheduled) (allocate usable_cash scored_invoices))
  /\ ((700.1 + 99.9 =? 800)%float = true
      /\ map (fun x => invoice_amount (invoice x)) small_invoices = [99.9; 700.1]%float
      /\ map status (allocate 800 small_invoices) = [scheduled; deferred]).
Proof.
  split.
  - intros usable_cash scored_invoices Hu Hw Hfit.
    rewrite float_allocate_appended.
    pose proof (float_sorted_reverse_perm bv scored_invoices) as Hp.
    apply appended_whole_fit.
    + apply (Permutation_Forall Hp). exact Hw.
    + exact Hu.
    + rewrite <- (total_units_perm _ _ Hp). exact Hfit.
  - repeat split; reflexivity.
Qed.

(** X22: when the usable cash of the baselines and the invoice amounts
    are whole numbers, no ordering pays more vendors than Snowball: the
    admission loop run on any ordering of the batch pays at most as many
    invoices as on the Snowball order; so does Avalanche, and so does
    the allocator itself when its reserve ratio is the default 20%.  For
    amounts with cents it need not be so: with a budget of 800 the
    amounts 300, 274.8 and 225.2 are all paid in that order and only two
    of them in the Snowball order. *)
Theorem snowball_pays_most_whole_amounts :
  (forall (available_cash : option float)
          (scored_invoices ordering : list ScoredInvoice) (method_name : string),
     whole (usable_cash_of (get_field available_cash 2500000%float) 0.2) ->
     Forall (fun x => whole (invoice_amount (invoice x))) scored_invoices ->
     Permutation scored_invoices ordering ->
     let snowball :=
       _calculate_traditional_results available_cash
         (snowball_sequence scored_invoices) "Snowball" in
     (vendors_paid (_calculate_traditional_results available_cash ordering method_name)
      <= vendors_paid snowball)%nat
     /\ (vendors_paid (_calculate_traditional_results available_cash
                         (avalanche_sequence scored_invoices) "Avalanche")
         <= vendors_paid snowball)%nat
     /\ (length (List.filter is_scheduled
                   (generate_payment_sequence available_cash None scored_invoices))
         <= vendors_paid snowball)%nat)
  /\ (vendors_paid (_calculate_traditional_results (Some 1000%float) cents_invoices "Input")
      = 3%nat
      /\ vendors_paid (_calculate_traditional_results (Some 1000%float)
                         (snowball_sequence cents_invoices) "Snowball")
         = 2%nat).
Proof.
  split; [| split; reflexivity].
  intros available_cash scored_invoices ordering method_name Hu Hw Hp snowball.
  subst snowball. unfold _calculate_traditional_results. cbn [vendors_paid].
  unfold usable_cash_of in Hu. cbv zeta in Hu.
  set (u := (get_field available_cash 2500000 - get_field available_cash 2500000 * 0.2)%float)
    in *.
  set (snow := snowball_sequence scored_invoices).
  assert (Hps : Permutation scored_invoices snow) by apply float_sorted_ascending_perm.
  assert (Hcount : forall l, Permutation scored_invoices l ->
            acc_vendors_paid
              (fold_left traditional_body l
                 {| acc_savings := 0; acc_business_value := 0;
                    acc_vendors_paid := 0; acc_remaining_cash := u |})
            = paid_units (units u) (map units_of l)).
  { intros l Hl. rewrite traditional_paid_units; [reflexivity | | exact Hu].
    apply (Permutation_Forall Hl). exact Hw. }
  assert (Hmost : forall l, Permutation scored_invoices l ->
            (paid_units (units u) (map units_of l)
             <= paid_units (units u) (map units_of snow))%nat).
  { intros l Hl. apply paid_units_smallest_first.
    - apply sorted_map.
      apply (float_sorted_ascending_sorted (fun x => invoice_amount (invoice x))).
      exact Hw.
    - apply Forall_map, Forall_forall. intros x _. apply units_nonneg.
    - apply Permutation_map. rewrite <- Hps. exact Hl. }
  rewrite !Hcount by (try exact Hp; try exact Hps; apply float_sorted_reverse_perm).
  split; [apply Hmost; exact Hp |]. split.
  - apply Hmost. apply float_sorted_reverse_perm.
  - unfold generate_payment_sequence, usable_cash_of. cbn [get_field default]. cbv zeta.
    fold u. rewrite float_allocate_appended.
    rewrite appended_paid_units; [| | exact Hu].
    + apply Hmost. apply float_sorted_reverse_perm.
    + apply (Permutation_Forall (float_sorted_reverse_perm bv scored_invoices)). exact Hw.
Qed.
End WholeAmounts.

Lemma allocate_schedules_whole_amounts_that_fit_witness :
  Forall (fun e => Binary64.status e = scheduled)
         (Binary64.allocate 800 Binary64.whole_invoices).
Proof.
  apply (proj1 allocate_schedules_whole_amounts_that_fit 800%float Binary64.whole_invoices).
  - split; [vm_compute; split; [discriminate | reflexivity] | reflexivity].
  - repeat constructor; vm_compute; try discriminate; reflexivity.
  - vm_compute. discriminate.
Defined.

Lemma snowball_pays_most_whole_amounts_witness :
  (Binary64.vendors_paid
     (Binary64._calculate_traditional_results (Some 750%float)
        Binary64.whole_invoices "Input")
   <= Binary64.vendors_paid
        (Binary64._calculate_traditional_results (Some 750%float)
           (Binary64.snowball_sequence Binary64.whole_invoices) "Snowball"))%nat.
Proof.
  apply (proj1 snowball_pays_most_whole_amounts (Some 750%float)
           Binary64.whole_invoices Binary64.whole_invoices "Input").
  - split; [vm_compute; split; [discriminate | reflexivity] | reflexivity].
  - repeat constructor; vm_compute; try discriminate; reflexivity.
  - reflexivity.
Defined.
